(** * Set operations on arrays: [jax/_src/numpy/setops.py]

    A shallow embedding of [in1d], [setdiff1d], [union1d], [setxor1d],
    [intersect1d], [_unique_sorted_mask], [_unique] and [unique], and the
    properties of the sorting-based uniqueness engine.

    Conventions of the embedding.
    - An element is a number or NaN.  Only comparison and equality of
      elements are ever used by the module, so the numbers of a dtype are
      represented by their rank in the dtype's order ([Val z]); values
      that compare equal are identified.
    - An array is seen from its working axis: [rows] lists the slices along
      that axis (after [moveaxis(ar, axis, 0)]), each flattened to
      [width] = [_prod(out_shape)] components.  A one-dimensional array has
      width 1.
    - Integer arrays (positions, counts) are lists of [Z].
    - The errors of the module that depend on the data are [ValueError]
      (a size without a fill value on an empty input, a fill value that the
      dtype of the array cannot hold) and [IndexError] (the first element
      of an empty array); [concrete_or_error], [_check_arraylike] and [jit]
      do not change results and are left out, as is the NaN
      canonicalisation of complex arrays.
    - A dtype is known by its kind, integer or inexact.  Two arrays of one
      kind are taken to have the same dtype; joining an integer array with
      an inexact one converts the integers to the inexact dtype, by a
      conversion [cast] that need not be injective.
    - The array primitives of [lax] and [lax_numpy] that the module calls
      are not part of these sources; they are modelled once, below, with
      their numpy meaning. *)

From Stdlib Require Import List ZArith Lia Bool Arith Permutation Sorted.
Import ListNotations.
Local Open Scope Z_scope.

(** ** Elements *)

Inductive elt : Type :=
| Val (z : Z)
| NaN.

Abbreviation row := (list elt).

Definition isnan (x : elt) : bool :=
  match x with NaN => true | Val _ => false end.

(** Modelled from the spec: [lax.eq] and [lax.ne] ([==] and [!=] on
    arrays), missing from the sources; a direct comparison with NaN is
    never an equality. *)
Definition lax_eq (x y : elt) : bool :=
  match x, y with
  | Val a, Val b => a =? b
  | _, _ => false
  end.

Definition lax_ne (x y : elt) : bool :=
  match x, y with
  | Val a, Val b => negb (a =? b)
  | _, _ => true
  end.

(** Modelled from the spec: the comparator of the sort primitives, missing
    from the sources; NaN is ordered as the maximum and two NaNs are
    equal. *)
Definition lax_lt (x y : elt) : bool :=
  match x, y with
  | Val a, Val b => a <? b
  | Val _, NaN => true
  | NaN, _ => false
  end.

Definition elt_le (x y : elt) : bool := negb (lax_lt y x).

(** Composite key: the components of a row, first component first. *)
Fixpoint row_lt (r s : row) : bool :=
  match r, s with
  | [], [] => false
  | [], _ :: _ => true
  | _ :: _, [] => false
  | x :: r', y :: s' => lax_lt x y || (negb (lax_lt y x) && row_lt r' s')
  end.

Definition row_le (r s : row) : bool := negb (row_lt s r).

(** ** Arrays *)

Record ndarray : Type := mk_array {
  inexact : bool;        (* the dtype is floating (np.inexact) *)
  width : nat;           (* _prod(out_shape) *)
  rows : list row        (* slices along the working axis *)
}.

(** Rows have the declared width, and only an inexact dtype has NaN. *)
Definition well_formed (a : ndarray) : bool :=
  forallb (fun r => (length r =? width a)%nat) (rows a)
  && (inexact a || forallb (forallb (fun e => negb (isnan e))) (rows a)).

(** [ar.size] *)
Definition array_size (w : nat) (l : list row) : nat := (length l * w)%nat.

(** [ravel], [flatten]: the elements in row-major order. *)
Definition ravel (a : ndarray) : list elt := concat (rows a).

Definition array1 (fl : bool) (l : list elt) : ndarray :=
  mk_array fl 1 (map (fun e => [e]) l).

Definition flatten (a : ndarray) : ndarray := array1 (inexact a) (ravel a).

(** ** Array primitives used by the module *)

(** Modelled from the spec: [zeros], [ones] and [arange] of [lax_numpy],
    missing from the sources. *)
Definition zeros (n : nat) : list Z := repeat 0 n.
Definition zeros_bool (n : nat) : list bool := repeat false n.
Definition ones_bool (n : nat) : list bool := repeat true n.
Definition arange (n : nat) : list Z := map Z.of_nat (seq 0 n).

(** Modelled from the spec: indexing of [lax_numpy], missing from the
    sources.  Position selected by an integer index in an axis of length
    [n]: a negative index counts from the end, and an index out of range is
    clamped into range. *)
Definition norm_index (n : nat) (i : Z) : nat :=
  let j := if i <? 0 then i + Z.of_nat n else i in
  Z.to_nat (Z.min (Z.max j 0) (Z.of_nat n - 1)).

(** [l[idx]] for an integer index array. *)
Definition take {A : Type} (d : A) (l : list A) (idx : list Z) : list A :=
  map (fun i => nth (norm_index (length l) i) l d) idx.

(** [l[mask]] for a boolean mask. *)
Fixpoint compress {A : Type} (mask : list bool) (l : list A) : list A :=
  match mask, l with
  | b :: mask', x :: l' => if b then x :: compress mask' l' else compress mask' l'
  | _, _ => []
  end.

Inductive index : Type :=
| BoolIdx (mask : list bool)
| IntIdx (idx : list Z).

Definition getitem {A : Type} (d : A) (l : list A) (i : index) : list A :=
  match i with
  | BoolIdx m => compress m l
  | IntIdx idx => take d l idx
  end.

(** A boolean read as an integer. *)
Definition b2z (b : bool) : Z := if b then 1 else 0.

(** Modelled from the spec: [mask.sum()], [cumsum], [nonzero] and [diff] of
    [lax_numpy], missing from the sources. *)
Definition sum_bool (mask : list bool) : Z :=
  fold_right (fun b acc => b2z b + acc) 0 mask.

Fixpoint cumsum_from (acc : Z) (mask : list bool) : list Z :=
  match mask with
  | [] => []
  | b :: mask' =>
      let acc' := acc + b2z b in acc' :: cumsum_from acc' mask'
  end.

Definition cumsum (mask : list bool) : list Z := cumsum_from 0 mask.

Fixpoint nonzero_from (pos : Z) (mask : list bool) : list Z :=
  match mask with
  | [] => []
  | b :: mask' =>
      if b then pos :: nonzero_from (pos + 1) mask'
      else nonzero_from (pos + 1) mask'
  end.

(** [nonzero(mask)[0]]: the positions of the true entries. *)
Definition nonzero (mask : list bool) : list Z := nonzero_from 0 mask.

(** [nonzero(mask, size=size)[0]]: the first [size] positions of true
    entries, padded with position 0 (the padding that [_unique] recognises
    in its counts and that makes the default fill the first sorted
    value). *)
Definition nonzero_size (mask : list bool) (size : nat) : list Z :=
  let nz := firstn size (nonzero mask) in
  nz ++ zeros (size - length nz).

(** [diff] *)
Fixpoint diff (l : list Z) : list Z :=
  match l with
  | x :: (y :: _) as l' => (y - x) :: diff l'
  | _ => []
  end.

(** Modelled from the spec: the indexed updates of [lax_numpy], missing from
    the sources.  [base.at[1:].set(v)] *)
Definition set_from1 {A : Type} (base v : list A) : list A :=
  firstn 1 base ++ firstn (length base - 1) v.

Fixpoint set_nth {A : Type} (l : list A) (n : nat) (v : A) : list A :=
  match l, n with
  | [], _ => []
  | _ :: l', O => v :: l'
  | x :: l', S n' => x :: set_nth l' n' v
  end.

(** One update of [base.at[idx].set(vals)], [len] being the length of the
    array: a negative index counts from the end and an update outside the
    array is dropped. *)
Definition scatter_step {A : Type} (len : nat) (acc : list A) (iv : Z * A) : list A :=
  let i := if fst iv <? 0 then fst iv + Z.of_nat len else fst iv in
  if (0 <=? i) && (i <? Z.of_nat len)
  then set_nth acc (Z.to_nat i) (snd iv) else acc.

(** [base.at[idx].set(vals)] *)
Definition scatter_set {A : Type} (base : list A) (idx : list Z) (vals : list A) : list A :=
  fold_left (scatter_step (length base)) (combine idx vals) base.

(** Modelled from the spec: broadcasting and [where] of [lax_numpy], missing
    from the sources.  Broadcasting of an array with one row against [n]
    rows. *)
Definition broadcast_rows {A : Type} (n : nat) (l : list A) : list A :=
  match l with
  | [x] => repeat x n
  | _ => l
  end.

Fixpoint map2 {A B C : Type} (f : A -> B -> C) (l1 : list A) (l2 : list B) : list C :=
  match l1, l2 with
  | x :: l1', y :: l2' => f x y :: map2 f l1' l2'
  | _, _ => []
  end.

(** [where(cond, x, y)] on one-dimensional arrays, [y] a scalar. *)
Definition where_ {A : Type} (cond : list bool) (x : list A) (y : A) : list A :=
  map2 (fun (c : bool) v => if c then v else y) cond x.

(** ** The ordering primitive *)

Section InsertionSort.
Context {A : Type} (leb : A -> A -> bool).

Fixpoint insert (x : A) (l : list A) : list A :=
  match l with
  | [] => [x]
  | y :: l' => if leb x y then x :: l else y :: insert x l'
  end.

Definition isort (l : list A) : list A := fold_right insert [] l.

End InsertionSort.

(** Modelled from the spec: [sort] of [lax_numpy], missing from the sources;
    the elements in non-decreasing order. *)
Definition sort (l : list elt) : list elt := isort elt_le l.

Definition key_le (p q : Z * row) : bool := row_le (snd p) (snd q).

(** Modelled from the spec: the ordering primitive ([lexsort] of
    [lax_numpy], missing from the sources).  A stable sort of the positions
    along the working axis by composite key.  The call passes the columns
    in reverse order and [lexsort] takes its last key as the primary one, so
    rows are compared from their first component on. *)
Definition lexsort (l : list row) : list Z :=
  map fst (isort key_le (combine (arange (length l)) l)).

(** Modelled from the spec: [lax.sort_key_val(ar, iota)], missing from the
    sources; the sorted elements and the positions they come from. *)
Definition sort_key_val (l : list elt) : list elt * list Z :=
  let s := isort (fun p q : Z * elt => elt_le (snd p) (snd q))
             (combine (arange (length l)) l) in
  (map snd s, map fst s).

(** ** [_unique_sorted_mask] *)

(** The [neq] of [_unique_sorted_mask], chosen by dtype. *)
Definition neq (fl : bool) (x y : elt) : bool :=
  if fl then lax_ne x y && negb (isnan x && isnan y) else lax_ne x y.

(** [any(neq(r, s), tuple(range(1, aux.ndim)))] for one pair of rows. *)
Definition row_neq (fl : bool) (r s : row) : bool :=
  existsb (fun b : bool => b) (map2 (neq fl) r s).

Definition _unique_sorted_mask (ar : ndarray) : list row * list bool * list Z :=
  let aux := rows ar in
  let size := length aux in
  let out := width ar in
  let '(size, perm) :=
    if (out =? 0)%nat then (1%nat, zeros 1) else (size, lexsort aux) in
  let aux := take [] aux perm in
  let mask :=
    if negb (array_size out aux =? 0)%nat
    then set_from1 (ones_bool size)
           (map2 (row_neq (inexact ar)) (tl aux) (removelast aux))
    else zeros_bool size in
  (aux, mask, perm).

(** ** [_unique] *)

Inductive error : Type :=
| ValueError
| IndexError.

(** [asarray(v, dtype=...)] for a scalar [v] and the dtype of an array of
    kind [fl]: an integer dtype cannot hold NaN. *)
Definition asarray (fl : bool) (v : elt) : error + elt :=
  if negb fl && isnan v then inl ValueError else inr v.

Record unique_out : Type := mk_out {
  result : list row;
  out_index : option (list Z);
  out_inverse : option (list Z);
  out_counts : option (list Z);
  out_true_size : option Z
}.

(** Truth value of an optional size: [None] and [0] are false. *)
Definition truthy (size : option nat) : bool :=
  match size with
  | Some (S _) => true
  | _ => false
  end.

Definition is_none {A : Type} (o : option A) : bool :=
  match o with None => true | Some _ => false end.

(** [where(valid, result, fill_value)] with [valid] one flag per row and
    [fill_value] a scalar. *)
Definition where_rows (w : nat) (valid : list bool) (res : list row)
    (fill : elt) : list row :=
  where_ valid (broadcast_rows (length valid) res) (repeat fill w).

Definition _unique (ar : ndarray) (return_index return_inverse return_counts : bool)
    (size : option nat) (fill_value : option elt) (return_true_size : bool)
  : error + unique_out :=
  let n := length (rows ar) in
  if (n =? 0)%nat && truthy size && is_none fill_value then inl ValueError
  else
    let '(aux, mask, perm) := _unique_sorted_mask ar in
    let w := width ar in
    let nonempty := negb (array_size w aux =? 0)%nat in
    let ind :=
      match size with
      | None => BoolIdx mask
      | Some sz => IntIdx (nonzero_size mask sz)
      end in
    let res := if nonempty then getitem [] aux ind else aux in
    match match fill_value with
          | None => inr None
          | Some fv =>
              match asarray (inexact ar) fv with
              | inl e => inl e
              | inr fv => inr (Some fv)
              end
          end with
    | inl e => inl e
    | inr fill_value =>
    let res :=
      match size, fill_value with
      | Some sz, Some fv =>
          if negb (length res =? 0)%nat
          then where_rows w (map (fun i => i <? sum_bool mask) (arange sz)) res fv
          else repeat (repeat fv w) sz
      | _, _ => res
      end in
    let r_index :=
      if return_index
      then Some (if nonempty then getitem 0 perm ind else perm)
      else None in
    let r_inverse :=
      if return_inverse
      then Some (if nonempty
                 then scatter_set (zeros (length mask)) perm
                        (map (fun c => c - 1) (cumsum mask))
                 else zeros n)
      else None in
    let r_counts :=
      if return_counts
      then Some (if nonempty
                 then
                   match size with
                   | None => diff (nonzero mask ++ [Z.of_nat (length mask)])
                   | Some sz =>
                       let idx := nonzero_size mask (sz + 1) in
                       diff (set_from1 idx
                               (map (fun i => if negb (i =? 0) then i
                                              else Z.of_nat (length mask))
                                  (tl idx)))
                   end
                 else if negb (n =? 0)%nat then [Z.of_nat n]
                 else [])
      else None in
    let r_true := if return_true_size then Some (sum_bool mask) else None in
    inr (mk_out res r_index r_inverse r_counts r_true)
    end.

(** [unique]: without an axis the array is flattened; with one, [ar] is the
    array seen from that axis. *)
Definition unique (ar : ndarray) (return_index return_inverse return_counts : bool)
    (axis : option nat) (size : option nat) (fill_value : option elt)
  : error + unique_out :=
  let ar := match axis with None => flatten ar | Some _ => ar end in
  _unique ar return_index return_inverse return_counts size fill_value false.

(** Length of the input along the working axis. *)
Definition axis_length (ar : ndarray) (axis : option nat) : nat :=
  match axis with None => length (ravel ar) | Some _ => length (rows ar) end.

(** The array whose slices [unique] compares: the flattened array without an
    axis, the array seen from the axis with one. *)
Definition view (ar : ndarray) (axis : option nat) : ndarray :=
  match axis with None => flatten ar | Some _ => ar end.

(** ** [in1d] *)

Definition in1d (ar1 ar2 : list elt) (assume_unique invert : bool) : list bool :=
  if invert
  then map (forallb (fun b : bool => b))
         (map (fun x => map (fun y => lax_ne x y) ar2) ar1)
  else map (existsb (fun b : bool => b))
         (map (fun x => map (fun y => lax_eq x y) ar2) ar1).

(** ** [setdiff1d], [union1d] on one-dimensional arrays

    [fl] is the dtype flag of the first array. *)

(** The values of a one-dimensional result of [unique]. *)
Definition values (o : unique_out) : list elt := concat (result o).

Definition unique_values (fl : bool) (ar : list elt) (size : option nat)
    (fill_value : option elt) : error + list elt :=
  match unique (array1 fl ar) false false false None size fill_value with
  | inl e => inl e
  | inr o => inr (values o)
  end.

Definition setdiff1d (fl : bool) (ar1 ar2 : list elt) (assume_unique : bool)
    (size : option nat) (fill_value : option elt) : error + list elt :=
  match asarray fl (match fill_value with None => Val 0 | Some v => v end) with
  | inl e => inl e
  | inr fill_value =>
  if (length ar1 =? 0)%nat
  then inr (repeat fill_value (match size with None => 0%nat | Some n => n end))
  else
    match (if negb assume_unique
           then unique_values fl ar1
                  (option_map (fun n => if (n =? 0)%nat then 0%nat else length ar1) size)
                  None
           else inr ar1) with
    | inl e => inl e
    | inr ar1 =>
        let mask := in1d ar1 ar2 false true in
        match size with
        | None => inr (compress mask ar1)
        | Some sz =>
            match (if negb assume_unique
                   then
                     match nth_error ar1 0 with
                     | None => inl IndexError
                     | Some first =>
                         let n_unique :=
                           Z.of_nat (length ar1) + 1
                           - sum_bool (map (fun x => lax_eq x first) ar1) in
                         inr (where_ (map (fun i => i <? n_unique)
                                        (arange (length ar1))) mask false)
                     end
                   else inr mask) with
            | inl e => inl e
            | inr mask =>
                inr (where_ (map (fun i => i <? sum_bool mask) (arange sz))
                       (take (Val 0) ar1 (nonzero_size mask sz)) fill_value)
            end
        end
    end
  end.

Definition union1d (fl : bool) (ar1 ar2 : list elt) (size : option nat)
    (fill_value : option elt) : error + list elt :=
  unique_values fl (ar1 ++ ar2) size fill_value.

(** ** [intersect1d] *)

(** [concatenate((ar1, ar2))] of two one-dimensional arrays of kinds [fl1]
    and [fl2]: the arrays are first converted to their common dtype, which
    changes the elements of an integer array joined with an inexact one. *)
Definition concatenate (cast : elt -> elt) (fl1 : bool) (ar1 : list elt)
    (fl2 : bool) (ar2 : list elt) : list elt :=
  (if negb fl1 && fl2 then map cast ar1 else ar1)
  ++ (if negb fl2 && fl1 then map cast ar2 else ar2).

Definition _intersect1d_sorted_mask (cast : elt -> elt) (fl1 : bool)
    (ar1 : list elt) (fl2 : bool) (ar2 : list elt) (return_indices : bool)
  : list elt * list bool * option (list Z) :=
  let ar := concatenate cast fl1 ar1 fl2 ar2 in
  let '(aux, indices) :=
    if return_indices
    then (fst (sort_key_val ar), Some (snd (sort_key_val ar)))
    else (sort ar, None) in
  let mask := map2 lax_eq (tl aux) (removelast aux) in
  (aux, mask, indices).

Definition unique_with_index (fl : bool) (ar : list elt)
  : error + (list elt * list Z) :=
  match unique (array1 fl ar) true false false None None None with
  | inl e => inl e
  | inr o => inr (values o, match out_index o with Some i => i | None => [] end)
  end.

Definition intersect1d (cast : elt -> elt) (fl1 : bool) (ar1 : list elt)
    (fl2 : bool) (ar2 : list elt) (assume_unique return_indices : bool)
  : error + (list elt * option (list Z * list Z)) :=
  let dedup fl ar :=
    if negb assume_unique
    then
      if return_indices
      then unique_with_index fl ar
      else match unique_values fl ar None None with
           | inl e => inl e
           | inr u => inr (u, [])
           end
    else inr (ar, []) in
  match dedup fl1 ar1, dedup fl2 ar2 with
  | inl e, _ => inl e
  | _, inl e => inl e
  | inr (ar1, ind1), inr (ar2, ind2) =>
      let '(aux, mask, aux_sort_indices) :=
        _intersect1d_sorted_mask cast fl1 ar1 fl2 ar2 return_indices in
      let int1d := compress mask (removelast aux) in
      match aux_sort_indices with
      | Some si =>
          let ar1_indices := compress mask (removelast si) in
          let ar2_indices :=
            map (fun i => i - Z.of_nat (length ar1)) (compress mask (tl si)) in
          let '(ar1_indices, ar2_indices) :=
            if negb assume_unique
            then (take 0 ind1 ar1_indices, take 0 ind2 ar2_indices)
            else (ar1_indices, ar2_indices) in
          inr (int1d, Some (ar1_indices, ar2_indices))
      | None => inr (int1d, None)
      end
  end.

(** ** [setxor1d] *)

Definition setxor1d (cast : elt -> elt) (fl1 : bool) (ar1 : list elt)
    (fl2 : bool) (ar2 : list elt) (assume_unique : bool) : error + list elt :=
  let dedup fl ar :=
    if negb assume_unique then unique_values fl ar None None else inr ar in
  match dedup fl1 ar1, dedup fl2 ar2 with
  | inl e, _ => inl e
  | _, inl e => inl e
  | inr ar1, inr ar2 =>
      let aux := concatenate cast fl1 ar1 fl2 ar2 in
      if (length aux =? 0)%nat then inr aux
      else
        let aux := sort aux in
        let flag :=
          [true] ++ map2 lax_ne (tl aux) (removelast aux) ++ [true] in
        inr (compress (map2 andb (tl flag) (removelast flag)) aux)
  end.

(** Literals for examples: a float array with [None] for NaN, an integer
    array. *)
Definition floats (l : list (option Z)) : list elt :=
  map (fun o => match o with Some z => Val z | None => NaN end) l.

Definition ints (l : list Z) : list elt := map Val l.

(** A conversion for examples that loses the last bit, as the conversion of
    a large integer to a floating-point dtype does. *)
Definition round_even (e : elt) : elt :=
  match e with
  | Val z => Val (2 * (z / 2))
  | NaN => NaN
  end.

(** A float array with NaNs and repeated values, and its distinct values. *)
Definition sample : ndarray :=
  array1 true (floats [None; Some 2; None; Some 1; Some 2]).

Definition sample_unique : unique_out :=
  mk_out [[Val 1]; [Val 2]; [NaN]] None None None None.

(** A two-dimensional integer array, seen from its first axis, with a
    repeated slice. *)
Definition sample_rows : ndarray :=
  mk_array false 2 [ints [2; 1]; ints [1; 3]; ints [2; 1]].

(** The outputs of [unique] for [sample] with every flag set. *)
Definition sample_all : unique_out :=
  mk_out [[Val 1]; [Val 2]; [NaN]]
    (Some [3; 1; 0]) (Some [2; 1; 2; 0; 1]) (Some [1; 2; 2]) None.

(** An integer array with repeated values, and the outputs of [unique] for
    it with every flag set. *)
Definition sample_ints : ndarray := array1 false (ints [3; 1; 2; 1; 3]).

Definition sample_ints_all : unique_out :=
  mk_out [[Val 1]; [Val 2]; [Val 3]]
    (Some [1; 2; 0]) (Some [2; 0; 1; 0; 2]) (Some [2; 1; 2]) None.

(** ** Reference functions used in the statements *)

Lemma elt_eq_dec (x y : elt) : {x = y} + {x <> y}.
Proof. decide equality. apply Z.eq_dec. Defined.

Definition row_eq_dec : forall r s : row, {r = s} + {r <> s} :=
  list_eq_dec elt_eq_dec.

(** Two rows are different values. *)
Definition row_differs (r s : row) : bool :=
  if row_eq_dec r s then false else true.

Section Adjacent.
Context {A : Type} (differs : A -> A -> bool).

(** The comparison of each entry with its left neighbour, [p] being the
    neighbour of the first. *)
Fixpoint adj (p : A) (l : list A) : list bool :=
  match l with
  | [] => []
  | y :: t => differs y p :: adj y t
  end.

(** The first-occurrence mask of a sorted array. *)
Definition mask_of (l : list A) : list bool :=
  match l with
  | [] => []
  | p :: t => true :: adj p t
  end.

(** Lengths of the runs of equal entries of [p :: l]. *)
Fixpoint runs (p : A) (l : list A) : list Z :=
  match l with
  | [] => [1]
  | y :: t =>
      if differs y p then 1 :: runs y t
      else match runs y t with
           | c :: cs => (c + 1) :: cs
           | [] => []
           end
  end.

End Adjacent.

(** The rows of an array reordered by its sort permutation, with their
    positions. *)
Definition sorted_pairs (l : list row) : list (Z * row) :=
  isort key_le (combine (arange (length l)) l).

Definition sorted_rows (l : list row) : list row := map snd (sorted_pairs l).

Definition sum_Z (l : list Z) : Z := fold_right Z.add 0 l.

(** Equality of two elements under the NaN-equal-to-NaN rule. *)
Definition nan_equal (x y : elt) : bool := negb (neq true x y).

Definition le_of {A : Type} (leb : A -> A -> bool) (x y : A) : Prop :=
  leb x y = true.

Definition lt_of {A : Type} (leb : A -> A -> bool) (x y : A) : Prop :=
  leb x y = true /\ x <> y.

(** Order of the sorted pairs of a stable sort: by key, and by position
    among equal keys. *)
Definition stable_le {K : Type} (leb : K -> K -> bool) (p q : Z * K) : Prop :=
  leb (snd p) (snd q) = true
  /\ (leb (snd q) (snd p) = true -> fst p < fst q).

Definition pair_le {K : Type} (leb : K -> K -> bool) (p q : Z * K) : bool :=
  leb (snd p) (snd q).

(** The left entries of the adjacent equal pairs of a list. *)
Fixpoint dups (l : list elt) : list elt :=
  match l with
  | [] => []
  | x :: t =>
      match t with
      | [] => []
      | y :: _ => if lax_eq y x then x :: dups t else dups t
      end
  end.

(** The entries of a list that differ from both neighbours, [f] telling
    whether the first entry differs from the one before it. *)
Fixpoint singles (f : bool) (l : list elt) : list elt :=
  match l with
  | [] => []
  | x :: t =>
      match t with
      | [] => if f then [x] else []
      | y :: _ =>
          (if f && lax_ne y x then [x] else []) ++ singles (lax_ne y x) t
      end
  end.

(** The adjacent pairs of sorted (position, value) pairs whose values are
    equal. *)
Fixpoint dup_pairs (s : list (Z * elt)) : list ((Z * elt) * (Z * elt)) :=
  match s with
  | [] => []
  | p :: t =>
      match t with
      | [] => []
      | q :: _ =>
          if lax_eq (snd q) (snd p) then (p, q) :: dup_pairs t
          else dup_pairs t
      end
  end.

(** * Properties *)

(** ** Concrete cases *)

Example unique_values_example :
  unique_values false (ints [3; 1; 2; 1; 3]) None None = inr (ints [1; 2; 3]).
Proof. reflexivity. Qed.

Example unique_counts_example :
  unique (array1 false (ints [3; 1; 2; 1; 3])) false false true None None None
  = inr (mk_out [[Val 1]; [Val 2]; [Val 3]] None None (Some [2; 1; 2]) None).
Proof. reflexivity. Qed.

Example unique_all_outputs_example :
  unique (array1 true (floats [None; Some 2; None; Some 1; Some 2]))
    true true true None None None
  = inr (mk_out [[Val 1]; [Val 2]; [NaN]]
           (Some [3; 1; 0]) (Some [2; 1; 2; 0; 1]) (Some [1; 2; 2]) None).
Proof. reflexivity. Qed.

Example unique_truncated_example :
  unique_values false (ints [3; 1; 2; 1; 3]) (Some 2%nat) (Some (Val (-1)))
  = inr (ints [1; 2]).
Proof. reflexivity. Qed.

Example unique_empty_example :
  unique_values false [] (Some 2%nat) (Some (Val 0)) = inr (ints [0; 0]).
Proof. reflexivity. Qed.

Example union1d_example :
  union1d false (ints [1; 2; 3]) (ints [3; 4]) None None
  = inr (ints [1; 2; 3; 4]).
Proof. reflexivity. Qed.

Example intersect1d_example :
  intersect1d round_even false (ints [1; 2; 3]) false (ints [2; 3; 4]) false false
  = inr (ints [2; 3], None).
Proof. reflexivity. Qed.

Example intersect1d_indices_example :
  intersect1d round_even false (ints [3; 1; 2; 3]) false (ints [2; 3; 4; 3])
    false true
  = inr (ints [2; 3], Some ([2; 0], [0; 1])).
Proof. reflexivity. Qed.

Example setdiff1d_example :
  setdiff1d false (ints [1; 2; 3]) (ints [2]) false None None
  = inr (ints [1; 3]).
Proof. reflexivity. Qed.

(** A fill value that the dtype of the array cannot hold is refused, with
    or without a size. *)
Example unique_fill_conversion_example :
  unique (array1 false []) false false false None (Some 2%nat) (Some NaN)
  = inl ValueError
  /\ unique (array1 false (ints [1; 1])) false false true None (Some 3%nat)
       (Some NaN)
     = inl ValueError
  /\ unique (array1 false (ints [1; 1])) false false false None None (Some NaN)
     = inl ValueError
  /\ unique (array1 true (floats [Some 1; Some 1])) false false false None
       (Some 3%nat) (Some NaN)
     = inr (mk_out [[Val 1]; [NaN]; [NaN]] None None None None).
Proof. repeat split. Qed.

Example setdiff1d_fill_conversion_example :
  setdiff1d false (ints [1; 2]) (ints [2]) false None (Some NaN)
  = inl ValueError
  /\ setdiff1d false (ints [1; 2]) (ints [2]) true (Some 3%nat) (Some NaN)
     = inl ValueError.
Proof. repeat split. Qed.

(** With [size=0] and no [assume_unique], the first element of the empty
    array left by [unique] is read. *)
Example setdiff1d_size_zero_example :
  setdiff1d false (ints [1; 2]) (ints [2]) false (Some 0%nat) None
  = inl IndexError
  /\ setdiff1d false (ints [1; 2]) (ints [2]) true (Some 0%nat) None = inr [].
Proof. repeat split. Qed.

(** Integers that [unique] keeps apart and that the conversion to the
    common dtype identifies are reported as common to both arrays. *)
Example intersect1d_promotion_example :
  intersect1d round_even false (ints [4; 5]) true (floats [Some 1]) false false
  = inr (ints [4], None)
  /\ setxor1d round_even false (ints [4; 5]) true (floats [Some 1]) false
     = inr (ints [1]).
Proof. repeat split. Qed.

Example setdiff1d_sized_example :
  setdiff1d false (ints [3; 1; 2; 3; 1]) (ints [2]) false (Some 4%nat)
    (Some (Val 9))
  = inr (ints [1; 3; 9; 9]).
Proof. reflexivity. Qed.

Example in1d_example :
  in1d (ints [1; 5]) (ints [1; 2; 3]) false false = [true; false].
Proof. reflexivity. Qed.

(** ** The order of elements and of rows *)

Lemma lax_lt_irrefl x : lax_lt x x = false.
Proof. destruct x; simpl; auto using Z.ltb_irrefl. Qed.

Lemma elt_le_total x y : elt_le x y = true \/ elt_le y x = true.
Proof.
  unfold elt_le; destruct x, y; simpl; auto.
  destruct (Z.ltb_spec z0 z), (Z.ltb_spec z z0); simpl; auto; lia.
Qed.

Lemma elt_le_trans x y z :
  elt_le x y = true -> elt_le y z = true -> elt_le x z = true.
Proof.
  unfold elt_le; destruct x, y, z; simpl; auto; try discriminate.
  rewrite !negb_true_iff, !Z.ltb_ge; lia.
Qed.

Lemma elt_le_antisym x y :
  elt_le x y = true -> elt_le y x = true -> x = y.
Proof.
  unfold elt_le; destruct x, y; simpl; auto; try discriminate.
  rewrite !negb_true_iff, !Z.ltb_ge; intros; f_equal; lia.
Qed.

Lemma lax_lt_trans x y z :
  lax_lt x y = true -> lax_lt y z = true -> lax_lt x z = true.
Proof.
  destruct x, y, z; simpl; auto; try discriminate.
  rewrite !Z.ltb_lt; lia.
Qed.

(** The three outcomes of comparing two elements. *)
Lemma lax_lt_cases x y :
  (lax_lt x y = true /\ lax_lt y x = false)
  \/ (x = y /\ lax_lt x y = false /\ lax_lt y x = false)
  \/ (lax_lt x y = false /\ lax_lt y x = true).
Proof.
  destruct x, y; simpl; auto 6.
  destruct (Z.ltb_spec z z0), (Z.ltb_spec z0 z); auto; try lia.
  right; left; repeat split; auto; f_equal; lia.
Qed.

Lemma row_lt_cases r : forall s,
  (row_lt r s = true /\ row_lt s r = false)
  \/ (r = s /\ row_lt r s = false /\ row_lt s r = false)
  \/ (row_lt r s = false /\ row_lt s r = true).
Proof.
  induction r as [|x r IH]; intros [|y s]; simpl; auto.
  destruct (lax_lt_cases x y) as [[H1 H2]|[[E [H1 H2]]|[H1 H2]]];
    rewrite H1, H2; simpl; auto.
  subst y. destruct (IH s) as [[K1 K2]|[[E [K1 K2]]|[K1 K2]]];
    rewrite K1, K2; auto.
  subst s; auto.
Qed.

Lemma row_lt_trans r : forall s t,
  row_lt r s = true -> row_lt s t = true -> row_lt r t = true.
Proof.
  induction r as [|x r IH]; intros [|y s] [|z t]; simpl; auto; try discriminate.
  intros H1 H2.
  destruct (lax_lt_cases x y) as [[A1 A2]|[[E [A1 A2]]|[A1 A2]]];
    rewrite A1, A2 in H1; simpl in H1; try discriminate.
  - destruct (lax_lt_cases y z) as [[B1 B2]|[[E [B1 B2]]|[B1 B2]]];
      rewrite B1, B2 in H2; simpl in H2; try discriminate.
    + rewrite (lax_lt_trans _ _ _ A1 B1); auto.
    + subst z. rewrite A1; auto.
  - subst y.
    destruct (lax_lt_cases x z) as [[B1 B2]|[[E [B1 B2]]|[B1 B2]]];
      rewrite B1, B2 in H2 |- *; simpl in *; try discriminate; auto.
    eapply IH; eauto.
Qed.

Lemma row_le_total r s : row_le r s = true \/ row_le s r = true.
Proof.
  unfold row_le.
  destruct (row_lt_cases r s) as [[H1 H2]|[[E [H1 H2]]|[H1 H2]]];
    rewrite H1, H2; auto.
Qed.

Lemma row_le_antisym r s :
  row_le r s = true -> row_le s r = true -> r = s.
Proof.
  unfold row_le.
  destruct (row_lt_cases r s) as [[H1 H2]|[[E [H1 H2]]|[H1 H2]]];
    rewrite H1, H2; simpl; auto; discriminate.
Qed.

Lemma row_le_trans r s t :
  row_le r s = true -> row_le s t = true -> row_le r t = true.
Proof.
  unfold row_le. rewrite !negb_true_iff. intros H1 H2.
  destruct (row_lt t r) eqn:E; auto.
  destruct (row_lt_cases s t) as [[K1 K2]|[[E' [K1 K2]]|[K1 K2]]];
    try congruence.
  rewrite (row_lt_trans _ _ _ K1 E) in H1. discriminate.
Qed.

(** ** Insertion sort *)

Section SortFacts.
Context {A : Type} (leb : A -> A -> bool).
Hypothesis leb_total : forall x y, leb x y = true \/ leb y x = true.
Hypothesis leb_trans :
  forall x y z, leb x y = true -> leb y z = true -> leb x z = true.

Lemma insert_perm x l : Permutation (insert leb x l) (x :: l).
Proof.
  induction l as [|y l IH]; simpl; auto.
  destruct (leb x y); auto.
  rewrite IH. apply perm_swap.
Qed.

Lemma isort_perm l : Permutation (isort leb l) l.
Proof.
  induction l as [|x l IH]; simpl; auto.
  rewrite insert_perm. auto.
Qed.

Lemma isort_length l : length (isort leb l) = length l.
Proof. apply Permutation_length, isort_perm. Qed.

Lemma insert_sorted x l :
  StronglySorted (le_of leb) l -> StronglySorted (le_of leb) (insert leb x l).
Proof.
  induction 1 as [|y l Hs IH Hall]; simpl.
  - repeat constructor.
  - destruct (leb x y) eqn:E.
    + constructor; [constructor; auto|].
      constructor; auto.
      eapply Forall_impl; [|exact Hall].
      intros z Hz. eapply leb_trans; eauto.
    + constructor; auto.
      eapply Permutation_Forall; [symmetry; apply insert_perm|].
      constructor; auto.
      destruct (leb_total x y); [congruence|auto].
Qed.

Lemma isort_sorted l : StronglySorted (le_of leb) (isort leb l).
Proof.
  induction l; simpl; [constructor|apply insert_sorted; auto].
Qed.

Lemma isort_sorted_id l : StronglySorted (le_of leb) l -> isort leb l = l.
Proof.
  induction 1 as [|x l Hs IH Hall]; simpl; auto.
  rewrite IH. destruct l as [|y l]; simpl; auto.
  inversion Hall as [|? ? Hxy _]; subst. unfold le_of in Hxy.
  now rewrite Hxy.
Qed.

Hypothesis leb_antisym : forall x y, leb x y = true -> leb y x = true -> x = y.

Lemma sorted_perm_eq l1 : forall l2,
  StronglySorted (le_of leb) l1 -> StronglySorted (le_of leb) l2 ->
  Permutation l1 l2 -> l1 = l2.
Proof.
  induction l1 as [|x l1 IH]; intros l2 S1 S2 P.
  - apply Permutation_nil in P; auto.
  - destruct l2 as [|y l2].
    + symmetry in P. apply Permutation_nil in P. discriminate.
    + inversion S1 as [|? ? S1' F1]; inversion S2 as [|? ? S2' F2]; subst.
      assert (x = y).
      { assert (Hy : In y (x :: l1))
          by (eapply Permutation_in; [symmetry; exact P|left; auto]).
        assert (Hx : In x (y :: l2))
          by (eapply Permutation_in; [exact P|left; auto]).
        destruct Hy as [|Hy]; auto. destruct Hx as [|Hx]; auto.
        rewrite Forall_forall in F1, F2.
        apply leb_antisym; [apply F1|apply F2]; auto. }
      subst y. f_equal. apply IH; auto.
      eapply Permutation_cons_inv; eauto.
Qed.

Lemma isort_perm_eq l1 l2 :
  Permutation l1 l2 -> isort leb l1 = isort leb l2.
Proof.
  intros P. apply sorted_perm_eq; try apply isort_sorted.
  rewrite !isort_perm. auto.
Qed.

End SortFacts.

(** ** Indexing *)

Lemma norm_index_in_range n i :
  0 <= i < Z.of_nat n -> norm_index n i = Z.to_nat i.
Proof.
  intros H. unfold norm_index.
  destruct (Z.ltb_spec i 0); [lia|]. f_equal. lia.
Qed.

Lemma take_length {A} (d : A) l idx : length (take d l idx) = length idx.
Proof. unfold take. apply length_map. Qed.

Lemma compress_In {A} (m : list bool) : forall (l : list A) x,
  In x (compress m l) -> In x l.
Proof.
  induction m as [|b m IH]; intros [|y l] x; simpl; try tauto.
  destruct b; simpl; intros H; [destruct H; auto|]; right; eauto.
Qed.

Lemma compress_all_true {A} (l : list A) :
  compress (repeat true (length l)) l = l.
Proof. induction l; simpl; congruence. Qed.

Lemma combine_arange_In {A} (d : A) (l : list A) : forall s i r,
  In (i, r) (combine (map Z.of_nat (seq s (length l))) l) ->
  exists k, i = Z.of_nat (s + k) /\ (k < length l)%nat /\ nth k l d = r.
Proof.
  induction l as [|x l IH]; simpl; intros s i r H; [tauto|].
  destruct H as [H|H].
  - inversion H; subst. exists 0%nat. repeat split; auto; try lia.
  - apply IH in H. destruct H as (k & -> & Hk & Hn).
    exists (S k). repeat split; auto; lia.
Qed.

Lemma map_fst_combine_arange {A} (l : list A) : forall s,
  map fst (combine (map Z.of_nat (seq s (length l))) l)
  = map Z.of_nat (seq s (length l)).
Proof. induction l; simpl; intros; f_equal; auto. Qed.

Lemma map_snd_combine_arange {A} (l : list A) : forall s,
  map snd (combine (map Z.of_nat (seq s (length l))) l) = l.
Proof. induction l; simpl; intros; f_equal; auto. Qed.

(** ** The sort permutation *)

Lemma key_le_total p q : key_le p q = true \/ key_le q p = true.
Proof. apply row_le_total. Qed.

Lemma key_le_trans p q r :
  key_le p q = true -> key_le q r = true -> key_le p r = true.
Proof. apply row_le_trans. Qed.

Lemma sorted_pairs_perm l :
  Permutation (sorted_pairs l) (combine (arange (length l)) l).
Proof. apply isort_perm. Qed.

Lemma lexsort_perm l : Permutation (lexsort l) (arange (length l)).
Proof.
  unfold lexsort. fold (sorted_pairs l).
  rewrite (Permutation_map fst (sorted_pairs_perm l)).
  unfold arange. now rewrite map_fst_combine_arange.
Qed.

Lemma sorted_rows_perm l : Permutation (sorted_rows l) l.
Proof.
  unfold sorted_rows.
  rewrite (Permutation_map snd (sorted_pairs_perm l)).
  unfold arange. now rewrite map_snd_combine_arange.
Qed.

Lemma sorted_rows_length l : length (sorted_rows l) = length l.
Proof. apply Permutation_length, sorted_rows_perm. Qed.

Lemma lexsort_length l : length (lexsort l) = length l.
Proof.
  rewrite (Permutation_length (lexsort_perm l)).
  unfold arange. now rewrite length_map, length_seq.
Qed.

Lemma sorted_pairs_lookup l i r :
  In (i, r) (sorted_pairs l) ->
  0 <= i < Z.of_nat (length l) /\ nth (Z.to_nat i) l [] = r.
Proof.
  intros H. apply (Permutation_in _ (sorted_pairs_perm l)) in H.
  apply (combine_arange_In []) in H. destruct H as (k & -> & Hk & Hn).
  simpl. rewrite Nat2Z.id. split; auto. lia.
Qed.

Lemma lexsort_in_range l i :
  In i (lexsort l) -> 0 <= i < Z.of_nat (length l).
Proof.
  intros H. apply (Permutation_in _ (lexsort_perm l)) in H.
  unfold arange in H. apply in_map_iff in H. destruct H as (k & <- & Hk).
  apply in_seq in Hk. lia.
Qed.

(** [aux[perm]] is the list of rows in sorted order. *)
Lemma take_lexsort l : take [] l (lexsort l) = sorted_rows l.
Proof.
  unfold take, lexsort, sorted_rows. fold (sorted_pairs l).
  rewrite map_map. apply map_ext_in. intros [i r] H.
  apply sorted_pairs_lookup in H. destruct H as [Hi Hr]. simpl.
  rewrite norm_index_in_range; auto.
Qed.

Lemma sorted_rows_sorted l : StronglySorted (le_of row_le) (sorted_rows l).
Proof.
  unfold sorted_rows, sorted_pairs.
  generalize (isort_sorted key_le key_le_total key_le_trans
                (combine (arange (length l)) l)).
  generalize (isort key_le (combine (arange (length l)) l)).
  induction 1 as [|p ps Hs IH Hall]; simpl; constructor; auto.
  rewrite Forall_forall in *. intros r Hr.
  apply in_map_iff in Hr. destruct Hr as (q & <- & Hq).
  apply (Hall q Hq).
Qed.

(** ** The mask *)

Lemma map2_adj {A} (f : A -> A -> bool) (l : list A) : forall p,
  map2 f l (removelast (p :: l)) = adj f p l.
Proof.
  induction l as [|y l IH]; intros p; auto.
  change (removelast (p :: y :: l)) with (p :: removelast (y :: l)).
  cbn [map2]. now rewrite IH.
Qed.

Lemma adj_length {A} (f : A -> A -> bool) (l : list A) : forall p,
  length (adj f p l) = length l.
Proof. induction l; simpl; auto. Qed.

Lemma mask_of_length {A} (f : A -> A -> bool) (l : list A) :
  length (mask_of f l) = length l.
Proof. destruct l; simpl; auto using adj_length. Qed.

Lemma set_from1_mask {A} (f : A -> A -> bool) (l : list A) :
  l <> [] ->
  set_from1 (ones_bool (length l)) (map2 f (tl l) (removelast l)) = mask_of f l.
Proof.
  destruct l as [|p l]; [congruence|intros _].
  simpl tl. rewrite map2_adj. unfold set_from1, ones_bool. simpl.
  rewrite repeat_length, Nat.sub_0_r.
  rewrite <- (adj_length f l p) at 1. now rewrite firstn_all.
Qed.

Lemma adj_ext {A} (f g : A -> A -> bool) (l : list A) : forall p,
  (forall x y, In x (p :: l) -> In y (p :: l) -> f x y = g x y) ->
  adj f p l = adj g p l.
Proof.
  induction l as [|y l IH]; intros p H; simpl; auto.
  f_equal; [apply H; simpl; auto|].
  apply IH. intros; apply H; simpl; auto.
Qed.

Lemma mask_of_ext {A} (f g : A -> A -> bool) (l : list A) :
  (forall x y, In x l -> In y l -> f x y = g x y) ->
  mask_of f l = mask_of g l.
Proof.
  destruct l; simpl; auto. intros H. f_equal. now apply adj_ext.
Qed.

Lemma nth_adj {A} (f : A -> A -> bool) (d : A) (l : list A) : forall p i,
  (i < length l)%nat ->
  nth i (adj f p l) false = f (nth i l d) (nth i (p :: l) d).
Proof.
  induction l as [|y l IH]; intros p i Hi; simpl in *; [lia|].
  destruct i; auto. rewrite IH by lia. reflexivity.
Qed.

(** [neq] decides equality of values of a well-typed array. *)
Lemma neq_false_iff fl x y :
  (fl = false -> isnan x = false /\ isnan y = false) ->
  neq fl x y = false <-> x = y.
Proof.
  intros Hfl. unfold neq.
  destruct x as [a|], y as [b|]; simpl.
  - assert (E : negb (a =? b) = false <-> Val a = Val b).
    { rewrite negb_false_iff, Z.eqb_eq.
      split; [congruence|intros H; inversion H; auto]. }
    destruct fl; simpl; rewrite ?andb_true_r; auto.
  - destruct fl; simpl in *; [split; congruence|destruct Hfl; auto; congruence].
  - destruct fl; simpl in *; [split; congruence|destruct Hfl; auto; congruence].
  - destruct fl; simpl in *; [tauto|destruct Hfl; auto; congruence].
Qed.

Lemma row_neq_false_iff fl (r : row) : forall s,
  length r = length s ->
  (fl = false -> Forall (fun e => isnan e = false) r
                 /\ Forall (fun e => isnan e = false) s) ->
  row_neq fl r s = false <-> r = s.
Proof.
  unfold row_neq.
  induction r as [|x r IH]; intros [|y s] Hl Hfl; simpl in *; try discriminate.
  - tauto.
  - rewrite orb_false_iff, IH, neq_false_iff.
    + split; [intros []; congruence|intros H; inversion H; auto].
    + intros E. destruct (Hfl E) as [F1 F2].
      inversion F1; inversion F2; auto.
    + lia.
    + intros E. destruct (Hfl E) as [F1 F2].
      inversion F1; inversion F2; auto.
Qed.

Lemma row_differs_false_iff r s : row_differs r s = false <-> r = s.
Proof.
  unfold row_differs. destruct (row_eq_dec r s); split; auto; congruence.
Qed.

Section Dedup.
Context {A : Type} (differs : A -> A -> bool).
Hypothesis differs_spec : forall x y, differs x y = false <-> x = y.

Lemma adj_cover (l : list A) : forall p x,
  In x l -> x = p \/ In x (compress (adj differs p l) l).
Proof.
  induction l as [|y l IH]; intros p x H; simpl in *; [tauto|].
  destruct (differs y p) eqn:E.
  - destruct H as [->|H]; simpl; auto.
    destruct (IH y x H) as [->|K]; simpl; auto.
  - apply differs_spec in E. subst y.
    destruct H as [->|H]; auto.
Qed.

Lemma mask_cover (l : list A) x :
  In x l <-> In x (compress (mask_of differs l) l).
Proof.
  split; [|apply compress_In].
  destruct l as [|p l]; simpl; auto.
  intros [->|H]; auto. destruct (adj_cover l p x H); auto.
Qed.

Context (leb : A -> A -> bool).
Hypothesis leb_trans :
  forall x y z, leb x y = true -> leb y z = true -> leb x z = true.
Hypothesis leb_antisym : forall x y, leb x y = true -> leb y x = true -> x = y.

Lemma adj_strict (l : list A) : forall p,
  StronglySorted (le_of leb) (p :: l) ->
  StronglySorted (lt_of leb) (p :: compress (adj differs p l) l).
Proof.
  induction l as [|y l IH]; intros p S; simpl.
  - repeat constructor.
  - inversion S as [|? ? S' F]; subst.
    specialize (IH y S').
    destruct (differs y p) eqn:E.
    + constructor; auto.
      assert (Hpy : lt_of leb p y).
      { inversion F; subst. split; auto. intros ->.
        assert (differs y y = false) by now apply differs_spec.
        congruence. }
      constructor; auto.
      inversion IH as [|? ? _ F']; subst.
      eapply Forall_impl; [|exact F'].
      intros z [Hz Hne]. destruct Hpy as [Hp Hpne]. split.
      * eapply leb_trans; eauto.
      * intros ->. apply Hpne. apply leb_antisym; auto.
    + apply differs_spec in E. subst y. auto.
Qed.

Lemma mask_strict (l : list A) :
  StronglySorted (le_of leb) l ->
  StronglySorted (lt_of leb) (compress (mask_of differs l) l).
Proof.
  destruct l as [|p l]; simpl; [constructor|apply adj_strict].
Qed.

Lemma strict_NoDup (l : list A) : StronglySorted (lt_of leb) l -> NoDup l.
Proof.
  induction 1 as [|x l S IH F]; constructor; auto.
  intros H. rewrite Forall_forall in F. destruct (F x H) as [_ K].
  now apply K.
Qed.

Lemma strict_nth (d : A) (l : list A) :
  StronglySorted (lt_of leb) l ->
  forall i j, (i < j < length l)%nat -> lt_of leb (nth i l d) (nth j l d).
Proof.
  induction 1 as [|x l S IH F]; intros i j Hij; simpl in *; [lia|].
  destruct j; [lia|]. destruct i.
  - rewrite Forall_forall in F. apply F, nth_In. lia.
  - apply IH. lia.
Qed.

Lemma strict_weaken (l : list A) :
  StronglySorted (lt_of leb) l -> StronglySorted (le_of leb) l.
Proof.
  induction 1 as [|x l S IH F]; constructor; auto.
  eapply Forall_impl; [|exact F]. now intros z [H _].
Qed.

(* On a strictly sorted array every entry is a first occurrence. *)
Lemma adj_all_true (l : list A) : forall p,
  StronglySorted (lt_of leb) (p :: l) ->
  adj differs p l = repeat true (length l).
Proof.
  induction l as [|y l IH]; intros p S; simpl; auto.
  inversion S as [|? ? S' F]; subst. inversion F as [|? ? [_ Hne] _]; subst.
  rewrite (IH y S'). f_equal.
  destruct (differs y p) eqn:E; auto.
  apply differs_spec in E. congruence.
Qed.

Lemma mask_all_true (l : list A) :
  StronglySorted (lt_of leb) l ->
  mask_of differs l = repeat true (length l).
Proof.
  destruct l as [|p l]; simpl; auto. intros S. f_equal. now apply adj_all_true.
Qed.

End Dedup.

(** ** [_unique_sorted_mask] and [_unique] in closed form *)

Lemma bool_eq_false_iff (a b : bool) (P : Prop) :
  (a = false <-> P) -> (b = false <-> P) -> a = b.
Proof. destruct a, b; intuition congruence. Qed.

Lemma well_formed_row ar r :
  well_formed ar = true -> In r (rows ar) ->
  length r = width ar
  /\ (inexact ar = false -> Forall (fun e => isnan e = false) r).
Proof.
  unfold well_formed. rewrite andb_true_iff, orb_true_iff, !forallb_forall.
  intros [Hw Hn] Hr. split.
  - apply Nat.eqb_eq. auto.
  - intros E. destruct Hn as [Hn|Hn]; [congruence|].
    specialize (Hn r Hr). rewrite forallb_forall in Hn.
    apply Forall_forall. intros e He. apply negb_true_iff. auto.
Qed.

Lemma well_formed_flatten ar :
  well_formed ar = true -> well_formed (flatten ar) = true.
Proof.
  unfold well_formed, flatten, array1, ravel. simpl.
  rewrite !andb_true_iff, !orb_true_iff, !forallb_forall.
  intros [_ Hn]. split.
  - intros r Hr. apply in_map_iff in Hr. destruct Hr as (e & <- & _). auto.
  - destruct Hn as [Hn|Hn]; auto. right.
    intros r Hr.
    apply in_map_iff in Hr. destruct Hr as (e & <- & He). simpl.
    rewrite andb_true_r. apply in_concat in He. destruct He as (r' & Hr' & He).
    specialize (Hn r' Hr'). rewrite forallb_forall in Hn. auto.
Qed.

Lemma sorted_rows_In l r : In r (sorted_rows l) <-> In r l.
Proof.
  split; apply Permutation_in; [|symmetry]; apply sorted_rows_perm.
Qed.

Lemma unique_sorted_mask_eq ar :
  width ar <> 0%nat ->
  _unique_sorted_mask ar
  = (sorted_rows (rows ar),
     mask_of (row_neq (inexact ar)) (sorted_rows (rows ar)),
     lexsort (rows ar)).
Proof.
  intros Hw. unfold _unique_sorted_mask.
  destruct (Nat.eqb_spec (width ar) 0); [contradiction|].
  rewrite take_lexsort. f_equal. f_equal.
  unfold array_size.
  destruct (sorted_rows (rows ar)) as [|p t] eqn:E.
  - simpl. rewrite <- sorted_rows_length, E. reflexivity.
  - destruct (Nat.eqb_spec (length (p :: t) * width ar) 0) as [H|H].
    + simpl in H. lia.
    + simpl negb. cbv iota. rewrite <- sorted_rows_length, E.
      apply set_from1_mask. discriminate.
Qed.

Lemma mask_well_formed ar :
  well_formed ar = true ->
  mask_of (row_neq (inexact ar)) (sorted_rows (rows ar))
  = mask_of row_differs (sorted_rows (rows ar)).
Proof.
  intros Hwf. apply mask_of_ext. intros x y Hx Hy.
  apply (proj1 (sorted_rows_In _ _)) in Hx.
  apply (proj1 (sorted_rows_In _ _)) in Hy.
  destruct (well_formed_row ar x Hwf Hx) as [Lx Nx].
  destruct (well_formed_row ar y Hwf Hy) as [Ly Ny].
  eapply bool_eq_false_iff; [|apply row_differs_false_iff].
  apply row_neq_false_iff; [congruence|auto].
Qed.

(** A fill value that the dtype of the array holds is converted to
    itself. *)
Lemma asarray_holds (fl : bool) (fill : option elt) :
  (fl = false -> fill <> Some NaN) ->
  match fill with
  | None => inr None
  | Some fv =>
      match asarray fl fv with
      | inl e => inl e
      | inr fv => inr (Some fv)
      end
  end = (inr fill : error + option elt).
Proof.
  intros H. destruct fill as [fv|]; [|reflexivity]. unfold asarray.
  destruct fl; [reflexivity|]. destruct fv; [reflexivity|].
  exfalso. now apply H.
Qed.

Lemma unique_size_none ar ri rv rc rt :
  width ar <> 0%nat ->
  let aux := sorted_rows (rows ar) in
  let mask := mask_of (row_neq (inexact ar)) aux in
  let perm := lexsort (rows ar) in
  _unique ar ri rv rc None None rt
  = inr (mk_out (compress mask aux)
           (if ri then Some (compress mask perm) else None)
           (if rv then Some (scatter_set (zeros (length mask)) perm
                               (map (fun c => c - 1) (cumsum mask)))
            else None)
           (if rc then Some (diff (nonzero mask ++ [Z.of_nat (length mask)]))
            else None)
           (if rt then Some (sum_bool mask) else None)).
Proof.
  intros Hw aux mask perm. unfold _unique.
  rewrite unique_sorted_mask_eq by auto. fold aux mask perm.
  simpl truthy. rewrite andb_false_r. cbv iota.
  unfold array_size.
  destruct (Nat.eqb_spec (length aux * width ar) 0) as [H|H]; simpl negb; cbv iota.
  - assert (Ha : aux = []) by (destruct aux; simpl in H; [auto|lia]).
    assert (Hn : length (rows ar) = 0%nat)
      by (rewrite <- sorted_rows_length; fold aux; now rewrite Ha).
    assert (Hp : perm = [])
      by (apply length_zero_iff_nil; unfold perm; now rewrite lexsort_length).
    unfold mask. rewrite Ha, Hp, Hn. simpl.
    destruct ri, rv, rc, rt; reflexivity.
  - reflexivity.
Qed.

(** ** One-dimensional arrays *)

Lemma concat_singletons (l : list elt) : concat (map (fun e => [e]) l) = l.
Proof. induction l; simpl; congruence. Qed.

Lemma singletons_concat (l : list row) :
  Forall (fun r => length r = 1%nat) l -> map (fun e => [e]) (concat l) = l.
Proof.
  induction 1 as [|r l Hr _ IH]; simpl; auto.
  destruct r as [|e [|e' r]]; try discriminate. simpl. congruence.
Qed.

Lemma ravel_flatten x : ravel (flatten x) = ravel x.
Proof. unfold flatten, array1, ravel at 1. simpl. apply concat_singletons. Qed.

Lemma nan_equal_iff x y : nan_equal x y = true <-> x = y.
Proof.
  unfold nan_equal. rewrite negb_true_iff.
  apply neq_false_iff. discriminate.
Qed.

Lemma mask_of_nth {A} (f : A -> A -> bool) (d : A) (l : list A) i :
  (i < length l)%nat ->
  nth i (mask_of f l) false
  = (i =? 0)%nat || f (nth i l d) (nth (i - 1) l d).
Proof.
  destruct l as [|p l]; simpl; [lia|]. intros Hi.
  destruct i as [|i]; auto.
  rewrite (nth_adj f d) by lia. simpl. now rewrite Nat.sub_0_r.
Qed.

(** The unique rows of a well-formed array are strictly increasing. *)
Lemma unique_rows_strict ar :
  well_formed ar = true ->
  StronglySorted (lt_of row_le)
    (compress (mask_of (row_neq (inexact ar)) (sorted_rows (rows ar)))
       (sorted_rows (rows ar))).
Proof.
  intros Hwf. rewrite mask_well_formed by auto.
  apply (mask_strict row_differs row_differs_false_iff row_le
           row_le_trans row_le_antisym).
  apply sorted_rows_sorted.
Qed.

(** C1: without a size, the values returned by [unique] are pairwise
    different under the NaN-equal-to-NaN rule and every element of the
    input is equal to one of them; the mask computed from the sorted array
    has one entry per sorted element, true at position 0 and, at a position
    [i > 0], true exactly when the sorted element at [i] differs from the
    one at [i - 1] under that rule, and the result is the sorted array
    selected by the mask. *)
Theorem unique_distinct_and_complete (x : ndarray) :
  well_formed x = true ->
  exists o,
    unique x false false false None None None = inr o
    /\ (forall i j, (i < j < length (values o))%nat ->
          nan_equal (nth i (values o) NaN) (nth j (values o) NaN) = false)
    /\ (forall e, In e (ravel x) ->
          exists v, In v (values o) /\ nan_equal e v = true)
    /\ (let '(aux, mask, _) := _unique_sorted_mask (flatten x) in
        length mask = length aux
        /\ result o = compress mask aux
        /\ forall i, (i < length mask)%nat ->
             nth i mask false
             = (i =? 0)%nat
               || row_neq true (nth i aux []) (nth (i - 1) aux [])).
Proof.
  intros Hwf.
  assert (Hwf' := well_formed_flatten x Hwf).
  assert (Hw : width (flatten x) <> 0%nat) by (simpl; lia).
  unfold unique. rewrite (unique_size_none _ false false false false Hw).
  rewrite (unique_sorted_mask_eq _ Hw).
  set (aux := sorted_rows (rows (flatten x))).
  set (mask := mask_of (row_neq (inexact (flatten x))) aux).
  eexists; split; [reflexivity|]. unfold values; simpl result.
  assert (Hstrict := unique_rows_strict _ Hwf'). fold aux mask in Hstrict.
  assert (Hsing : Forall (fun r => length r = 1%nat) (compress mask aux)).
  { apply Forall_forall. intros r Hr. apply compress_In in Hr.
    apply (proj1 (sorted_rows_In _ _)) in Hr.
    apply (well_formed_row _ _ Hwf' Hr). }
  assert (Hres := singletons_concat _ Hsing).
  assert (Hlen : length (concat (compress mask aux)) = length (compress mask aux)).
  { rewrite <- Hres at 2. now rewrite length_map. }
  split; [|split; [|split; [|split]]].
  - intros i j Hij. rewrite Hlen in Hij.
    destruct (strict_nth row_le [NaN] _ Hstrict i j Hij) as [_ Hne].
    rewrite <- Hres in Hne.
    assert (Hn : forall k l, nth k (map (fun e : elt => [e]) l) [NaN]
                             = [nth k l NaN])
      by (intros; apply (map_nth (fun e : elt => [e]))).
    rewrite !Hn in Hne.
    destruct (nan_equal _ _) eqn:E; auto.
    apply nan_equal_iff in E. congruence.
  - intros e He. exists e. split; [|now apply nan_equal_iff].
    apply in_concat. exists [e]. split; [|simpl; auto].
    unfold mask. rewrite mask_well_formed by auto.
    apply (proj1 (mask_cover row_differs row_differs_false_iff _ _)).
    apply (proj2 (sorted_rows_In _ _)).
    unfold flatten, array1; cbn [rows]. apply in_map_iff. eauto.
  - apply mask_of_length.
  - reflexivity.
  - intros i Hi. unfold mask in *. rewrite mask_of_length in Hi.
    rewrite (mask_of_nth _ [] aux i Hi). f_equal.
    assert (Hrow : forall k, (k < length aux)%nat ->
              length (nth k aux []) = 1%nat
              /\ (inexact (flatten x) = false ->
                  Forall (fun e => isnan e = false) (nth k aux []))).
    { intros k Hk. apply (well_formed_row _ _ Hwf').
      apply (proj1 (sorted_rows_In _ _)). now apply nth_In. }
    destruct (Hrow i Hi) as [L1 N1].
    destruct (Hrow (i - 1)%nat) as [L2 N2]; [lia|].
    apply (bool_eq_false_iff _ _ (nth i aux [] = nth (i - 1) aux []));
      apply row_neq_false_iff; try congruence; auto.
Qed.

Lemma well_formed_intro ar :
  (forall r, In r (rows ar) ->
     length r = width ar
     /\ (inexact ar = false -> Forall (fun e => isnan e = false) r)) ->
  well_formed ar = true.
Proof.
  intros H. unfold well_formed.
  rewrite andb_true_iff, orb_true_iff, !forallb_forall. split.
  - intros r Hr. apply Nat.eqb_eq. now apply H.
  - destruct (inexact ar) eqn:E; auto. right. intros r Hr.
    destruct (H r Hr) as [_ Hn]. specialize (Hn eq_refl).
    rewrite Forall_forall in Hn. apply forallb_forall.
    intros e He. apply negb_true_iff. auto.
Qed.

(** Sorting a sorted array leaves it as it is. *)
Lemma combine_sorted (l : list row) : forall s,
  StronglySorted (le_of row_le) l ->
  StronglySorted (le_of key_le) (combine (map Z.of_nat (seq s (length l))) l).
Proof.
  induction l as [|r l IH]; intros s S; simpl; [constructor|].
  inversion S as [|? ? S' F]; subst. constructor; auto.
  apply Forall_forall. intros [i q] Hq.
  apply in_combine_r in Hq. rewrite Forall_forall in F.
  apply (F q Hq).
Qed.

Lemma sorted_rows_id (l : list row) :
  StronglySorted (le_of row_le) l -> sorted_rows l = l.
Proof.
  intros S. unfold sorted_rows, sorted_pairs, arange.
  rewrite (isort_sorted_id key_le) by now apply combine_sorted.
  apply map_snd_combine_arange.
Qed.

(** C9: without a size, [unique] applied to the values returned by [unique]
    returns the same values. *)
Theorem unique_idempotent (x : ndarray) :
  well_formed x = true ->
  exists o,
    unique x false false false None None None = inr o
    /\ unique (array1 (inexact x) (values o)) false false false None None None
       = inr o.
Proof.
  intros Hwf.
  assert (Hwf' := well_formed_flatten x Hwf).
  assert (Hw : width (flatten x) <> 0%nat) by (simpl; lia).
  unfold unique at 1.
  rewrite (unique_size_none _ false false false false Hw).
  set (aux := sorted_rows (rows (flatten x))).
  set (mask := mask_of (row_neq (inexact (flatten x))) aux).
  eexists; split; [reflexivity|]. unfold values; simpl result.
  assert (Hstrict := unique_rows_strict _ Hwf'). fold aux mask in Hstrict.
  assert (Hin : forall r, In r (compress mask aux) -> In r (rows (flatten x))).
  { intros r Hr. apply compress_In in Hr.
    now apply (proj1 (sorted_rows_In _ _)) in Hr. }
  assert (Hsing : Forall (fun r => length r = 1%nat) (compress mask aux)).
  { apply Forall_forall. intros r Hr.
    apply (well_formed_row _ _ Hwf' (Hin r Hr)). }
  assert (Hres := singletons_concat _ Hsing).
  set (u := compress mask aux) in *.
  set (y := array1 (inexact x) (concat u)).
  assert (Hy : flatten y = mk_array (inexact x) 1 u).
  { unfold flatten, y, array1, ravel. simpl. now rewrite concat_singletons, Hres. }
  assert (Hwfy : well_formed (flatten y) = true).
  { apply well_formed_intro. rewrite Hy. simpl. intros r Hr.
    destruct (well_formed_row _ _ Hwf' (Hin r Hr)) as [H1 H2]. auto. }
  unfold unique.
  rewrite (unique_size_none _ false false false false) by (rewrite Hy; simpl; lia).
  rewrite (mask_well_formed _ Hwfy). rewrite Hy. simpl rows.
  rewrite (sorted_rows_id u)
    by now apply (strict_weaken row_le).
  rewrite (mask_all_true row_differs row_differs_false_iff row_le u Hstrict).
  now rewrite compress_all_true.
Qed.

(** ** Positions of the true entries of a mask *)

Lemma take_nonzero_from {A} (d : A) (mask : list bool) : forall (l pre : list A),
  length mask = length l ->
  take d (pre ++ l) (nonzero_from (Z.of_nat (length pre)) mask)
  = compress mask l.
Proof.
  induction mask as [|b m IH]; intros [|y l] pre Hl; simpl in *;
    try discriminate; auto.
  assert (E : take d (pre ++ y :: l)
                (nonzero_from (Z.of_nat (length pre) + 1) m) = compress m l).
  { replace (pre ++ y :: l) with ((pre ++ [y]) ++ l)
      by (rewrite <- app_assoc; reflexivity).
    replace (Z.of_nat (length pre) + 1) with (Z.of_nat (length (pre ++ [y])))
      by (rewrite length_app; simpl; lia).
    apply IH. lia. }
  destruct b; auto.
  unfold take in *. simpl. rewrite E. f_equal.
  rewrite norm_index_in_range by (rewrite length_app; simpl; lia).
  rewrite Nat2Z.id. apply nth_middle.
Qed.

Lemma take_nonzero {A} (d : A) (mask : list bool) (l : list A) :
  length mask = length l -> take d l (nonzero mask) = compress mask l.
Proof. intros H. apply (take_nonzero_from d mask l [] H). Qed.

Lemma nonzero_from_length {A} (mask : list bool) : forall (l : list A) off,
  length mask = length l ->
  length (nonzero_from off mask) = length (compress mask l).
Proof.
  induction mask as [|b m IH]; intros [|y l] off Hl; simpl in *;
    try discriminate; auto.
  destruct b; simpl; auto.
Qed.

Lemma take_app {A} (d : A) l i1 i2 :
  take d l (i1 ++ i2) = take d l i1 ++ take d l i2.
Proof. apply map_app. Qed.

Lemma norm_index_0 n : norm_index n 0 = 0%nat.
Proof. unfold norm_index. rewrite Z.ltb_irrefl. lia. Qed.

Lemma take_zeros {A} (d : A) (l : list A) k :
  take d l (zeros k) = repeat (nth 0 l d) k.
Proof.
  unfold take, zeros. induction k; simpl; auto.
  now rewrite IHk, norm_index_0.
Qed.

(** [aux[nonzero(mask, size=n)]]: the first [n] selected entries, then
    copies of the first entry of [aux]. *)
Lemma take_nonzero_size {A} (d : A) (mask : list bool) (l : list A) n :
  length mask = length l ->
  take d l (nonzero_size mask n)
  = firstn n (compress mask l)
    ++ repeat (nth 0 l d) (n - length (firstn n (compress mask l))).
Proof.
  intros H. unfold nonzero_size. rewrite take_app, take_zeros.
  unfold take at 1. rewrite <- firstn_map. fold (take d l (nonzero mask)).
  rewrite take_nonzero by auto. f_equal. f_equal.
  rewrite !length_firstn. unfold nonzero.
  now rewrite (nonzero_from_length mask l).
Qed.

Lemma unique_size_result ar ri rv rc n rt :
  width ar <> 0%nat -> rows ar <> [] ->
  let aux := sorted_rows (rows ar) in
  let mask := mask_of (row_neq (inexact ar)) aux in
  exists o,
    _unique ar ri rv rc (Some n) None rt = inr o
    /\ result o = take [] aux (nonzero_size mask n).
Proof.
  intros Hw Hr aux mask. unfold _unique.
  rewrite unique_sorted_mask_eq by auto. fold aux mask.
  destruct (rows ar) as [|r l] eqn:E; [congruence|].
  simpl length. simpl "&&". cbv iota.
  assert (Ha : (array_size (width ar) aux =? 0)%nat = false).
  { apply Nat.eqb_neq. unfold array_size, aux.
    rewrite sorted_rows_length. simpl. lia. }
  rewrite Ha. simpl negb. cbv iota.
  eexists. split; reflexivity.
Qed.

Lemma concat_repeat_single (e : elt) k : concat (repeat [e] k) = repeat e k.
Proof. induction k; simpl; congruence. Qed.

Lemma row_le_single a b : row_le [a] [b] = elt_le a b.
Proof.
  unfold row_le, elt_le. simpl.
  now rewrite andb_false_r, orb_false_r.
Qed.

(** ** [unique] with a size and no fill value *)

Lemma unique_sized_values (x : ndarray) (ri rv rc : bool) (n : nat) :
  well_formed x = true ->
  ravel x <> [] ->
  let aux := sorted_rows (rows (flatten x)) in
  let u := concat (compress (mask_of (row_neq (inexact x)) aux) aux) in
  exists o,
    unique x ri rv rc None (Some n) None = inr o
    /\ values o = firstn n u ++ repeat (hd NaN u) (n - length (firstn n u)).
Proof.
  intros Hwf Hne aux u.
  assert (Hwf' := well_formed_flatten x Hwf).
  assert (Hw : width (flatten x) <> 0%nat) by (simpl; lia).
  assert (Hr : rows (flatten x) <> []).
  { unfold flatten, array1. simpl. destruct (ravel x); [congruence|discriminate]. }
  unfold unique.
  destruct (unique_size_result (flatten x) ri rv rc n false Hw Hr)
    as (o & Ho & Hres).
  exists o. split; [exact Ho|]. unfold values. rewrite Hres. clear Ho Hres.
  change (inexact (flatten x)) with (inexact x). fold aux.
  set (mask := mask_of (row_neq (inexact x)) aux) in *.
  assert (Hsing : Forall (fun r => length r = 1%nat) (compress mask aux)).
  { apply Forall_forall. intros r Hr'. apply compress_In in Hr'.
    apply (proj1 (sorted_rows_In _ _)) in Hr'.
    apply (well_formed_row _ _ Hwf' Hr'). }
  assert (Hres := singletons_concat _ Hsing). fold u in Hres.
  rewrite take_nonzero_size by apply mask_of_length.
  rewrite <- Hres, firstn_map, length_map, concat_app, concat_singletons.
  f_equal.
  assert (Hhd : nth 0 aux [] = [hd NaN u]).
  { unfold u, mask.
    assert (Ha : Forall (fun r => length r = 1%nat) aux).
    { apply Forall_forall. intros r Hr'.
      apply (proj1 (sorted_rows_In _ _)) in Hr'.
      apply (well_formed_row _ _ Hwf' Hr'). }
    assert (La : length aux = length (rows (flatten x)))
      by apply sorted_rows_length.
    destruct aux as [|p t].
    - destruct (rows (flatten x)); [congruence|discriminate La].
    - inversion Ha as [|? ? Hp _]; subst.
      destruct p as [|e0 [|e1 p]]; try discriminate Hp. reflexivity. }
  rewrite Hhd. apply concat_repeat_single.
Qed.

(** C10: for a non-empty array, [unique] with a size larger than the number
    of distinct values and no [fill_value] raises no error; it returns the
    distinct values followed by copies of the first of them, which is the
    minimum of the array. *)
Theorem unique_pads_with_minimum (x : ndarray) (ri rv rc : bool) (n : nat)
    (o0 : unique_out) :
  well_formed x = true ->
  ravel x <> [] ->
  unique x false false false None None None = inr o0 ->
  (length (values o0) < n)%nat ->
  exists o,
    unique x ri rv rc None (Some n) None = inr o
    /\ values o
       = values o0 ++ repeat (hd NaN (values o0)) (n - length (values o0))
    /\ (forall e, In e (ravel x) -> elt_le (hd NaN (values o0)) e = true).
Proof.
  intros Hwf Hne H0 Hn.
  assert (Hwf' := well_formed_flatten x Hwf).
  destruct (unique_sized_values x ri rv rc n Hwf Hne) as (o & Ho & Hv).
  unfold unique in H0.
  rewrite (unique_size_none _ false false false false) in H0
    by (simpl; lia).
  injection H0 as <-. unfold values in *. cbn [result] in *.
  change (inexact (flatten x)) with (inexact x) in *.
  change (map (fun e : elt => [e]) (ravel x)) with (rows (flatten x)) in *.
  exists o. split; [exact Ho|]. split.
  - rewrite Hv. now rewrite firstn_all2 by lia.
  - clear Ho Hv Hn o.
    assert (Hsorted := sorted_rows_sorted (rows (flatten x))).
    assert (HIn := sorted_rows_In (rows (flatten x))).
    remember (sorted_rows (rows (flatten x))) as aux eqn:Eaux. clear Eaux.
    intros e He.
    assert (Hi : In [e] aux).
    { apply HIn. unfold flatten, array1. cbn [rows]. apply in_map_iff. eauto. }
    destruct aux as [|p t]; [destruct Hi|].
    assert (Hp : length p = 1%nat).
    { apply (well_formed_row _ _ Hwf'). apply HIn. left; auto. }
    destruct p as [|e0 [|e1 p]]; try discriminate Hp.
    cbn [mask_of compress concat app hd].
    rewrite <- row_le_single.
    inversion Hsorted as [|? ? _ F]; subst.
    destruct Hi as [Hi|Hi].
    + inversion Hi; subst. rewrite row_le_single.
      destruct (elt_le_total e e); auto.
    + rewrite Forall_forall in F. apply (F _ Hi).
Qed.

(** ** Arrays that are empty along the working axis *)

Lemma where_all_false {A} (cond : list bool) : forall (x : list A) (y : A),
  Forall (fun c => c = false) cond -> length x = length cond ->
  where_ cond x y = repeat y (length cond).
Proof.
  unfold where_.
  induction cond as [|c cond IH]; intros [|v x] y F L; simpl in *;
    try discriminate; auto.
  inversion F; subst. f_equal. apply IH; auto.
Qed.

Lemma arange_nonneg n : Forall (fun i => 0 <= i) (arange n).
Proof.
  unfold arange. apply Forall_forall. intros i Hi.
  apply in_map_iff in Hi. destruct Hi as (k & <- & _). lia.
Qed.

Lemma arange_length n : length (arange n) = n.
Proof. unfold arange. now rewrite length_map, length_seq. Qed.

Lemma unique_empty_axis fl w ri rv rc n fill rt :
  _unique (mk_array fl w []) ri rv rc (Some (S n)) fill rt
  = match fill with
    | None => inl ValueError
    | Some fv =>
        if negb fl && isnan fv then inl ValueError
        else
          inr (mk_out (repeat (repeat fv w) (S n))
                 (if ri then Some (if (w =? 0)%nat then [0] else []) else None)
                 (if rv then Some [] else None)
                 (if rc then Some [] else None)
                 (if rt then Some 0 else None))
    end.
Proof.
  destruct fill as [fv|]; [|reflexivity].
  unfold _unique, _unique_sorted_mask, asarray. cbn [rows width inexact length].
  cbn [Nat.eqb truthy is_none andb].
  destruct (negb fl && isnan fv); [destruct w; reflexivity|].
  destruct w as [|w].
  - cbn [Nat.eqb]. unfold array_size. rewrite Nat.mul_0_r.
    cbn [Nat.eqb negb]. unfold take at 2. cbn [zeros repeat map length].
    cbn [Nat.eqb negb zeros_bool repeat sum_bool fold_right b2z].
    assert (Hwr : where_rows 0 (map (fun i : Z => i <? 0 + 0) (arange (S n)))
                    [nth (norm_index 0 0) [] []] fv = repeat [] (S n)).
    { unfold where_rows. rewrite length_map, arange_length.
      cbn [broadcast_rows nth norm_index].
      rewrite where_all_false.
      - now rewrite length_map, arange_length.
      - apply Forall_forall. intros c Hc. apply in_map_iff in Hc.
        destruct Hc as (i & <- & Hi).
        pose proof (arange_nonneg (S n)) as F. rewrite Forall_forall in F.
        specialize (F i Hi). apply Z.ltb_ge. simpl. lia.
      - now rewrite repeat_length, length_map, arange_length. }
    rewrite Hwr. reflexivity.
  - cbn [Nat.eqb]. unfold lexsort. cbn.
    destruct ri, rv, rc, rt; reflexivity.
Qed.

(** C6: for an input that is empty along the working axis and a positive
    size, and a [fill_value], if any, that the dtype of the array holds,
    [unique] raises the error exactly when no [fill_value] is given, and
    with a [fill_value] it returns [size] slices along the axis, every
    entry of which is the [fill_value]. *)
Theorem unique_empty_input (ar : ndarray) (ri rv rc : bool) (axis : option nat)
    (n : nat) (fill : option elt) :
  axis_length ar axis = 0%nat ->
  (0 < n)%nat ->
  (inexact ar = false -> fill <> Some NaN) ->
  (unique ar ri rv rc axis (Some n) fill = inl ValueError <-> fill = None)
  /\ (forall fv, fill = Some fv ->
        exists o,
          unique ar ri rv rc axis (Some n) fill = inr o
          /\ length (result o) = n
          /\ Forall (Forall (fun e => e = fv)) (result o)
          /\ result o
             = repeat (repeat fv (match axis with
                                  | None => 1%nat
                                  | Some _ => width ar
                                  end)) n).
Proof.
  intros Hlen Hn Hfill. destruct n as [|n]; [lia|].
  assert (E : exists w,
             (match axis with None => flatten ar | Some _ => ar end)
             = mk_array (inexact ar) w []
             /\ w = match axis with None => 1%nat | Some _ => width ar end).
  { destruct axis as [k|]; simpl in Hlen.
    - destruct ar as [fl w l]. simpl in *.
      apply length_zero_iff_nil in Hlen. subst. eauto.
    - apply length_zero_iff_nil in Hlen. unfold flatten. rewrite Hlen.
      exists 1%nat. auto. }
  destruct E as (w & E & Hw). unfold unique. rewrite E.
  rewrite unique_empty_axis. rewrite <- Hw.
  assert (Hok : forall fv, fill = Some fv ->
                  negb (inexact ar) && isnan fv = false).
  { intros fv ->. destruct (inexact ar); [reflexivity|].
    destruct fv; [reflexivity|]. exfalso. now apply Hfill. }
  split.
  - destruct fill as [fv|]; [|split; congruence].
    rewrite (Hok fv eq_refl). split; congruence.
  - intros fv ->. rewrite (Hok fv eq_refl). eexists. split; [reflexivity|]. cbn [result].
    split; [apply repeat_length|]. split; [|reflexivity].
    apply Forall_forall. intros r Hr. apply repeat_spec in Hr. subst r.
    apply Forall_forall. intros e He. now apply repeat_spec in He.
Qed.

(** C7 as stated fails for an empty one-dimensional array: the permutation
    and the mask are empty. *)
Lemma empty_axis_placeholder_counterexample :
  axis_length (array1 false []) (Some 0%nat) = 0%nat
  /\ ~ (let '(_, mask, perm) := _unique_sorted_mask (array1 false []) in
        length perm = 1%nat /\ mask = [false]).
Proof. split; [reflexivity|]. cbn. intros [H _]. discriminate H. Qed.

(** C7, amended: the placeholder is produced when the other axes have no
    extent (the rows have width 0): the permutation is [[0]] and the mask
    is [[false]].  An array that is empty along the working axis while its
    rows have a positive width gets an empty permutation and an empty
    mask. *)
Theorem unique_sorted_mask_degenerate (fl : bool) (w : nat) (l : list row) :
  (let '(_, mask, perm) := _unique_sorted_mask (mk_array fl 0 l) in
   perm = [0] /\ mask = [false])
  /\ (let '(aux, mask, perm) := _unique_sorted_mask (mk_array fl (S w) []) in
      aux = [] /\ perm = [] /\ mask = []).
Proof.
  split.
  - unfold _unique_sorted_mask. cbn [rows width inexact Nat.eqb].
    unfold array_size. rewrite Nat.mul_0_r. cbn. auto.
  - cbn. auto.
Qed.

(** ** Membership *)

Lemma lax_ne_eq x y : lax_ne x y = negb (lax_eq x y).
Proof. destruct x, y; reflexivity. Qed.

Lemma in1d_direct ar1 ar2 au :
  in1d ar1 ar2 au false = map (fun x => existsb (lax_eq x) ar2) ar1.
Proof.
  unfold in1d. rewrite map_map. apply map_ext. intros x.
  induction ar2; simpl; congruence.
Qed.

Lemma in1d_invert ar1 ar2 au :
  in1d ar1 ar2 au true = map (fun x => negb (existsb (lax_eq x) ar2)) ar1.
Proof.
  unfold in1d. rewrite map_map. apply map_ext. intros x.
  induction ar2 as [|y l IH]; simpl; auto.
  now rewrite IH, lax_ne_eq, negb_orb.
Qed.

(** C5: [in1d] returns one entry per element of the first array; the entry
    is true exactly when the element is equal ([==]) to some element of the
    second array, and with [invert] exactly when it is equal to none, which
    is the negation of the entry without [invert].  [assume_unique] changes
    nothing. *)
Theorem in1d_membership (a b : list elt) (assume_unique : bool) :
  length (in1d a b assume_unique false) = length a
  /\ length (in1d a b assume_unique true) = length a
  /\ (forall i, (i < length a)%nat ->
        nth i (in1d a b assume_unique false) false = true
        <-> exists y, In y b /\ lax_eq (nth i a NaN) y = true)
  /\ (forall i, (i < length a)%nat ->
        nth i (in1d a b assume_unique true) false = true
        <-> forall y, In y b -> lax_eq (nth i a NaN) y = false)
  /\ in1d a b assume_unique true = map negb (in1d a b assume_unique false)
  /\ (forall invert, in1d a b assume_unique invert = in1d a b false invert).
Proof.
  rewrite in1d_direct, in1d_invert.
  assert (Hn : forall (f : elt -> bool) i, (i < length a)%nat ->
                 nth i (map f a) false = f (nth i a NaN)).
  { intros f i Hi. rewrite (nth_indep _ false (f NaN)) by now rewrite length_map.
    apply map_nth. }
  split; [now rewrite length_map|]. split; [now rewrite length_map|].
  split; [|split; [|split]].
  - intros i Hi. rewrite Hn by auto. apply existsb_exists.
  - intros i Hi. rewrite Hn by auto. rewrite negb_true_iff. split.
    + intros H y Hy. destruct (lax_eq (nth i a NaN) y) eqn:E; auto.
      assert (existsb (lax_eq (nth i a NaN)) b = true)
        by (apply existsb_exists; eauto).
      congruence.
    + intros H0. destruct (existsb _ b) eqn:E; auto.
      apply existsb_exists in E. destruct E as (y & Hy & Ey).
      rewrite (H0 y Hy) in Ey. discriminate.
  - now rewrite map_map.
  - reflexivity.
Qed.

(** ** Intersection *)

Lemma unique_values_none fl ar :
  unique_values fl ar None None
  = inr (concat (compress (mask_of (row_neq fl) (sorted_rows (map (fun e => [e]) ar)))
                   (sorted_rows (map (fun e => [e]) ar)))).
Proof.
  unfold unique_values, unique.
  rewrite (unique_size_none _ false false false false)
    by (simpl; lia).
  unfold values. cbn [result]. unfold flatten, array1, ravel. cbn [rows inexact].
  now rewrite concat_singletons.
Qed.

Lemma sort_app_comm l1 l2 : sort (l1 ++ l2) = sort (l2 ++ l1).
Proof.
  apply (isort_perm_eq elt_le elt_le_total elt_le_trans elt_le_antisym).
  apply Permutation_app_comm.
Qed.

Lemma concatenate_same cast fl l1 l2 :
  concatenate cast fl l1 fl l2 = l1 ++ l2.
Proof. unfold concatenate. now destruct fl. Qed.

Lemma concatenate_perm cast fl1 l1 l1' fl2 l2 l2' :
  Permutation l1 l1' -> Permutation l2 l2' ->
  Permutation (concatenate cast fl1 l1 fl2 l2) (concatenate cast fl1 l1' fl2 l2').
Proof.
  intros P1 P2. unfold concatenate. apply Permutation_app.
  - destruct (negb fl1 && fl2); auto using Permutation_map.
  - destruct (negb fl2 && fl1); auto using Permutation_map.
Qed.

Lemma sort_concatenate_comm cast fl1 l1 fl2 l2 :
  sort (concatenate cast fl1 l1 fl2 l2) = sort (concatenate cast fl2 l2 fl1 l1).
Proof. unfold concatenate. apply sort_app_comm. Qed.

Lemma compress_sorted {A} (R : A -> A -> Prop) (m : list bool) : forall l,
  StronglySorted R l -> StronglySorted R (compress m l).
Proof.
  induction m as [|b m IH]; intros l S; [destruct l; constructor|].
  destruct S as [|x l S F]; [constructor|]. simpl.
  destruct b; auto. constructor; auto.
  rewrite Forall_forall in *. intros y Hy. apply F.
  eapply compress_In; eauto.
Qed.

Lemma removelast_sorted {A} (R : A -> A -> Prop) (l : list A) :
  StronglySorted R l -> StronglySorted R (removelast l).
Proof.
  induction 1 as [|x l S IH F]; [constructor|].
  destruct l as [|y l]; [constructor|].
  change (removelast (x :: y :: l)) with (x :: removelast (y :: l)).
  constructor; auto.
  rewrite Forall_forall in *. intros z Hz. apply F.
  clear - Hz. revert y Hz. induction l as [|w l IHl]; intros y Hz.
  - destruct Hz.
  - change (removelast (y :: w :: l)) with (y :: removelast (w :: l)) in Hz.
    destruct Hz as [->|Hz]; [left; auto|right; auto].
Qed.

(** C8: the intersection of two one-dimensional arrays does not depend on
    the order of the arguments: both calls return the same array, which is
    in sorted order. *)
Theorem intersect1d_comm (cast : elt -> elt) (fl1 : bool) (a : list elt)
    (fl2 : bool) (b : list elt) :
  exists r,
    intersect1d cast fl1 a fl2 b false false = inr (r, None)
    /\ intersect1d cast fl2 b fl1 a false false = inr (r, None)
    /\ StronglySorted (le_of elt_le) r.
Proof.
  unfold intersect1d. cbn [negb]. rewrite !unique_values_none.
  unfold _intersect1d_sorted_mask.
  rewrite (sort_concatenate_comm cast fl2 _ fl1 _).
  eexists. split; [reflexivity|]. split; [reflexivity|].
  apply compress_sorted, removelast_sorted.
  apply (isort_sorted elt_le elt_le_total elt_le_trans).
Qed.

(** ** Set difference *)

Lemma flatten_array1 fl a : flatten (array1 fl a) = array1 fl a.
Proof.
  unfold flatten, ravel, array1. cbn [rows inexact].
  now rewrite concat_singletons.
Qed.


Lemma compress_length_le {A} (m : list bool) : forall l : list A,
  (length (compress m l) <= length l)%nat.
Proof.
  induction m as [|b m IH]; intros [|x l]; simpl; try lia.
  specialize (IH l). destruct b; simpl; lia.
Qed.

Lemma unique_values_props fl a u :
  well_formed (array1 fl a) = true ->
  unique_values fl a None None = inr u ->
  NoDup u /\ (length u <= length a)%nat /\ (a <> [] -> u <> []).
Proof.
  intros Hwf Hu. rewrite unique_values_none in Hu.
  inversion Hu as [Hu']; clear Hu.
  assert (Hstrict := unique_rows_strict _ Hwf). cbn [rows inexact array1] in Hstrict.
  assert (Hlen := sorted_rows_length (map (fun e : elt => [e]) a)).
  assert (HIn := sorted_rows_In (map (fun e : elt => [e]) a)).
  remember (sorted_rows (map (fun e : elt => [e]) a)) as aux eqn:Eaux. clear Eaux.
  set (U := compress (mask_of (row_neq fl) aux) aux) in *.
  assert (Hsing : Forall (fun r => length r = 1%nat) U).
  { apply Forall_forall. intros r Hr. apply compress_In in Hr.
    apply (proj1 (HIn _)) in Hr. apply (well_formed_row _ _ Hwf Hr). }
  assert (Hres := singletons_concat _ Hsing).
  split; [|split].
  - apply (NoDup_map_inv (fun e : elt => [e])). rewrite Hres.
    now apply (strict_NoDup row_le).
  - rewrite length_map in Hlen. rewrite <- Hlen.
    rewrite <- (length_map (fun e : elt => [e])), Hres.
    apply compress_length_le.
  - intros Hne E. unfold U in E.
    destruct aux as [|p t].
    + destruct a; [congruence|discriminate Hlen].
    + assert (Hp : length p = 1%nat).
      { apply (well_formed_row _ _ Hwf). apply HIn. left; auto. }
      destruct p as [|e0 [|e1 p]]; try discriminate Hp. discriminate E.
Qed.

Lemma lax_eq_true_iff x y : lax_eq x y = true <-> x = y /\ isnan y = false.
Proof.
  destruct x, y; simpl; rewrite ?Z.eqb_eq; split;
    try (intros [H1 H2]); try intros H; try discriminate;
    try (split; congruence); try congruence.
Qed.







Lemma compress_map {A} (g : A -> bool) (l : list A) :
  compress (map g l) l = filter g l.
Proof. induction l as [|x l IH]; simpl; auto. now rewrite IH. Qed.


Lemma where_lt_from {A} (l : list A) : forall s k y,
  where_ (map (fun i => i <? Z.of_nat k) (map Z.of_nat (seq s (length l)))) l y
  = firstn (k - s) l ++ repeat y (length l - (k - s)).
Proof.
  unfold where_.
  induction l as [|v l IH]; intros s k y; simpl length.
  - simpl. now rewrite firstn_nil.
  - cbn [seq map map2]. rewrite IH.
    destruct (Z.ltb_spec (Z.of_nat s) (Z.of_nat k)).
    + replace (k - s)%nat with (S (k - S s)) by lia. reflexivity.
    + replace (k - s)%nat with 0%nat by lia.
      replace (k - S s)%nat with 0%nat by lia.
      rewrite !Nat.sub_0_r. reflexivity.
Qed.

Lemma where_lt {A} (l : list A) k y :
  where_ (map (fun i => i <? Z.of_nat k) (arange (length l))) l y
  = firstn k l ++ repeat y (length l - k).
Proof.
  unfold arange. rewrite where_lt_from. now rewrite Nat.sub_0_r.
Qed.

(** The default fill value of [setdiff1d], and a fill value that the dtype
    of the first array holds, are converted to themselves. *)
Lemma asarray_default (fl : bool) (fill : option elt) :
  (fl = false -> fill <> Some NaN) ->
  asarray fl (match fill with None => Val 0 | Some v => v end)
  = inr (match fill with None => Val 0 | Some v => v end).
Proof.
  intros H. unfold asarray. destruct fl; [reflexivity|].
  destruct fill as [[z|]|]; try reflexivity. exfalso. now apply H.
Qed.


(** C4 fails on an array of NaNs: the distinct elements of [[nan, nan]]
    that are not in [[1.]] are [[nan]], and [setdiff1d] with [size=2] and
    [fill_value=0] returns [[nan, nan]], the second entry being the padding
    of the internal call of [unique]. *)
Theorem setdiff1d_reports_padding :
  unique_values true (floats [None; None]) None None = inr [NaN]
  /\ in1d [NaN] (floats [Some 1]) false true = [true]
  /\ setdiff1d true (floats [None; None]) (floats [Some 1]) false
       (Some 2%nat) (Some (Val 0))
     = inr [NaN; NaN].
Proof. repeat split. Qed.

(** ** [unique] with a size that does not truncate *)

Lemma sum_bool_compress {A} (mask : list bool) : forall l : list A,
  length mask = length l ->
  sum_bool mask = Z.of_nat (length (compress mask l)).
Proof.
  unfold sum_bool.
  induction mask as [|b m IH]; intros [|x l] H; simpl in *; try discriminate; auto.
  rewrite (IH l) by lia. destruct b; simpl length; unfold b2z; lia.
Qed.

Lemma broadcast_rows_id {A} (l : list A) : broadcast_rows (length l) l = l.
Proof. destruct l as [|x [|y l]]; reflexivity. Qed.

Lemma diff_repeat c j : diff (c :: repeat c j) = repeat 0 j.
Proof.
  induction j as [|j IH]; [reflexivity|].
  change (diff (c :: repeat c (S j))) with ((c - c) :: diff (c :: repeat c j)).
  rewrite IH. cbn [repeat]. f_equal. lia.
Qed.

Lemma diff_app_repeat (l : list Z) c j :
  diff ((l ++ [c]) ++ repeat c j) = diff (l ++ [c]) ++ repeat 0 j.
Proof.
  induction l as [|a l IH].
  - simpl. apply diff_repeat.
  - destruct l as [|b l].
    + simpl. f_equal. apply diff_repeat.
    + change (diff (((a :: b :: l) ++ [c]) ++ repeat c j))
        with ((b - a) :: diff (((b :: l) ++ [c]) ++ repeat c j)).
      rewrite IH. reflexivity.
Qed.

Lemma nonzero_from_ge mask : forall o,
  Forall (fun i => o <= i) (nonzero_from o mask).
Proof.
  induction mask as [|b m IH]; intros o; simpl; [constructor|].
  assert (F : Forall (fun i => o <= i) (nonzero_from (o + 1) m)).
  { eapply Forall_impl; [|apply IH]. intros; simpl in *; lia. }
  destruct b; auto. constructor; auto. lia.
Qed.

(** The boundary positions of the counts, when the size keeps every
    selected entry. *)
Lemma counts_sized {A} (differs : A -> A -> bool) (l : list A) (n : nat) :
  l <> [] ->
  let mask := mask_of differs l in
  (length (nonzero mask) <= n)%nat ->
  let idx := nonzero_size mask (n + 1) in
  diff (set_from1 idx
          (map (fun i => if negb (i =? 0) then i else Z.of_nat (length mask))
             (tl idx)))
  = diff (nonzero mask ++ [Z.of_nat (length mask)])
    ++ repeat 0 (n - length (nonzero mask)).
Proof.
  intros Hl mask Hk idx.
  destruct l as [|p t]; [congruence|].
  set (len := Z.of_nat (length mask)) in *.
  assert (Hnz : nonzero mask = 0 :: nonzero_from 1 (adj differs p t))
    by reflexivity.
  set (rest := nonzero_from 1 (adj differs p t)) in *.
  set (k := length (nonzero mask)) in *.
  assert (Hidx : idx = 0 :: rest ++ zeros (n + 1 - k)).
  { unfold idx, nonzero_size. rewrite firstn_all2 by (fold k; lia).
    fold k. now rewrite Hnz. }
  rewrite Hidx. cbn [tl]. rewrite map_app.
  assert (Hrest : map (fun i => if negb (i =? 0) then i else len) rest = rest).
  { rewrite <- (map_id rest) at 2. apply map_ext_in. intros i Hi.
    pose proof (nonzero_from_ge (adj differs p t) 1) as F.
    rewrite Forall_forall in F. specialize (F i Hi).
    destruct (Z.eqb_spec i 0); [lia|reflexivity]. }
  rewrite Hrest. unfold zeros. rewrite map_repeat. cbn [Z.eqb negb].
  unfold set_from1. cbn [firstn length app].
  rewrite firstn_all2 by (rewrite !length_app, !repeat_length; lia).
  replace (n + 1 - k)%nat with (S (n - k)) by lia. cbn [repeat].
  rewrite Hnz.
  change (0 :: rest ++ len :: repeat len (n - k))
    with ((0 :: rest) ++ len :: repeat len (n - k)).
  replace ((0 :: rest) ++ len :: repeat len (n - k))
    with (((0 :: rest) ++ [len]) ++ repeat len (n - k))
    by (rewrite <- app_assoc; reflexivity).
  apply diff_app_repeat.
Qed.

Lemma unique_sized_closed ar ri rv rc n fill rt :
  width ar <> 0%nat -> rows ar <> [] ->
  (inexact ar = false -> fill <> Some NaN) ->
  let aux := sorted_rows (rows ar) in
  let mask := mask_of (row_neq (inexact ar)) aux in
  let perm := lexsort (rows ar) in
  let res := take [] aux (nonzero_size mask n) in
  let idx := nonzero_size mask (n + 1) in
  _unique ar ri rv rc (Some n) fill rt
  = inr (mk_out
           (match fill with
            | Some fv =>
                if negb (length res =? 0)%nat
                then where_rows (width ar)
                       (map (fun i => i <? sum_bool mask) (arange n)) res fv
                else repeat (repeat fv (width ar)) n
            | None => res
            end)
           (if ri then Some (take 0 perm (nonzero_size mask n)) else None)
           (if rv then Some (scatter_set (zeros (length mask)) perm
                               (map (fun c => c - 1) (cumsum mask)))
            else None)
           (if rc
            then Some (diff (set_from1 idx
                               (map (fun i => if negb (i =? 0) then i
                                              else Z.of_nat (length mask))
                                  (tl idx))))
            else None)
           (if rt then Some (sum_bool mask) else None)).
Proof.
  intros Hw Hr Hf aux mask perm res idx. unfold _unique.
  rewrite (asarray_holds _ _ Hf).
  rewrite unique_sorted_mask_eq by auto. fold aux mask perm.
  destruct (rows ar) as [|r l] eqn:E; [congruence|].
  simpl length. simpl "&&". cbv iota.
  assert (Ha : (array_size (width ar) aux =? 0)%nat = false).
  { apply Nat.eqb_neq. unfold array_size, aux.
    rewrite sorted_rows_length. simpl. lia. }
  rewrite Ha. simpl negb. cbv iota. cbn [getitem]. fold res idx.
  destruct fill; reflexivity.
Qed.

Lemma compress_length_indep {A B} (m : list bool) (l1 : list A) (l2 : list B) :
  length m = length l1 -> length m = length l2 ->
  length (compress m l1) = length (compress m l2).
Proof.
  intros H1 H2. apply Nat2Z.inj.
  now rewrite <- (sum_bool_compress m l1 H1), <- (sum_bool_compress m l2 H2).
Qed.

(** With a size that keeps every distinct value, [unique] returns what it
    returns without a size, padded: the values with the fill value (by
    default the first value), the indices with the first sorted position,
    the counts with zeros; the inverse index is the same. *)
Lemma unique_sized_no_truncation (x : ndarray) (ri rv rc : bool) (n : nat)
    (fill : option elt) :
  well_formed x = true ->
  ravel x <> [] ->
  let aux := sorted_rows (rows (flatten x)) in
  let mask := mask_of (row_neq (inexact x)) aux in
  let perm := lexsort (rows (flatten x)) in
  let U := compress mask aux in
  (length U <= n)%nat ->
  (inexact x = false -> fill <> Some NaN) ->
  unique x ri rv rc None (Some n) fill
  = inr (mk_out
           (U ++ repeat [match fill with
                         | Some fv => fv
                         | None => hd NaN (concat U)
                         end] (n - length U))
           (if ri then Some (compress mask perm
                             ++ repeat (nth 0 perm 0) (n - length U))
            else None)
           (if rv then Some (scatter_set (zeros (length mask)) perm
                               (map (fun c => c - 1) (cumsum mask)))
            else None)
           (if rc then Some (diff (nonzero mask ++ [Z.of_nat (length mask)])
                             ++ repeat 0 (n - length U))
            else None)
           None).
Proof.
  intros Hwf Hne aux mask perm U Hk Hf.
  assert (Hwf' := well_formed_flatten x Hwf).
  assert (Hw : width (flatten x) <> 0%nat) by (simpl; lia).
  assert (Hr : rows (flatten x) <> []).
  { unfold flatten, array1. simpl. destruct (ravel x); [congruence|discriminate]. }
  unfold unique. rewrite (unique_sized_closed _ ri rv rc n fill false Hw Hr Hf).
  change (inexact (flatten x)) with (inexact x). fold aux. fold mask. fold perm.
  assert (La : length aux = length (rows (flatten x)))
    by apply sorted_rows_length.
  assert (Lm : length mask = length aux) by apply mask_of_length.
  assert (Lp : length perm = length aux)
    by (unfold perm; now rewrite lexsort_length).
  assert (Haux : aux <> []).
  { intros E. rewrite E in La. destruct (rows (flatten x)); [congruence|discriminate La]. }
  assert (Hhd : nth 0 aux [] = [hd NaN (concat U)] /\ U <> []).
  { assert (Ha : Forall (fun r => length r = 1%nat) aux).
    { apply Forall_forall. intros r Hr'.
      apply (proj1 (sorted_rows_In _ _)) in Hr'.
      apply (well_formed_row _ _ Hwf' Hr'). }
    unfold U, mask. destruct aux as [|p t]; [congruence|].
    inversion Ha as [|? ? Hp _]; subst.
    destruct p as [|e0 [|e1 p]]; try discriminate Hp.
    split; [reflexivity|discriminate]. }
  destruct Hhd as [Hhd HU].
  assert (Hres : take [] aux (nonzero_size mask n)
                 = U ++ repeat [hd NaN (concat U)] (n - length U)).
  { rewrite take_nonzero_size by auto. fold U.
    now rewrite firstn_all2, Hhd by lia. }
  rewrite Hres.
  assert (Hn : n <> 0%nat) by (destruct U; [congruence|simpl in Hk; lia]).
  f_equal. f_equal.
  - destruct fill as [fv|]; [|reflexivity].
    assert (Lr : length (U ++ repeat [hd NaN (concat U)] (n - length U)) = n)
      by (rewrite length_app, repeat_length; lia).
    rewrite Lr. destruct (Nat.eqb_spec n 0); [contradiction|]. cbn [negb].
    unfold where_rows. rewrite length_map, arange_length.
    rewrite <- Lr at 2. rewrite broadcast_rows_id.
    rewrite (sum_bool_compress mask aux Lm). fold U.
    rewrite <- Lr at 1. rewrite where_lt, Lr.
    rewrite firstn_app, Nat.sub_diag, firstn_O, app_nil_r, firstn_all.
    reflexivity.
  - destruct ri; [|reflexivity]. f_equal.
    rewrite take_nonzero_size by lia.
    assert (Lc : length (compress mask perm) = length U)
      by (apply compress_length_indep; lia).
    rewrite firstn_all2 by lia. now rewrite Lc.
  - destruct rc; [|reflexivity]. f_equal.
    assert (Lnz : length (nonzero mask) = length U)
      by (apply (nonzero_from_length mask aux 0); lia).
    pose proof (counts_sized (row_neq (inexact x)) aux n Haux) as Hc.
    cbv zeta in Hc. fold mask in Hc. rewrite Lnz in Hc. apply Hc. exact Hk.
Qed.

(** ** Counts *)

Lemma diff_shift o r rest :
  diff (o :: r :: rest)
  = match diff ((o + 1) :: r :: rest) with
    | c :: cs => (c + 1) :: cs
    | [] => []
    end.
Proof. simpl. f_equal. lia. Qed.

Section Runs.
Context {A : Type} (differs : A -> A -> bool).
Hypothesis differs_spec : forall x y, differs x y = false <-> x = y.
Context (eq_dec : forall x y : A, {x = y} + {x <> y}).
Context (leb : A -> A -> bool).
Hypothesis leb_trans :
  forall x y z, leb x y = true -> leb y z = true -> leb x z = true.
Hypothesis leb_antisym : forall x y, leb x y = true -> leb y x = true -> x = y.

Lemma diff_nonzero_runs (t : list A) : forall p o,
  diff (o :: nonzero_from (o + 1) (adj differs p t)
          ++ [o + 1 + Z.of_nat (length t)])
  = runs differs p t.
Proof.
  induction t as [|y t IH]; intros p o.
  - simpl. f_equal. lia.
  - cbn [adj nonzero_from runs length].
    replace (o + 1 + Z.of_nat (S (length t)))
      with ((o + 1) + 1 + Z.of_nat (length t)) by lia.
    specialize (IH y (o + 1)).
    destruct (differs y p).
    + cbn [app]. cbn [diff]. rewrite <- IH. f_equal. lia.
    + rewrite <- IH.
      destruct (nonzero_from (o + 1 + 1) (adj differs y t)
                  ++ [o + 1 + 1 + Z.of_nat (length t)]) as [|r rest] eqn:E.
      * destruct (nonzero_from (o + 1 + 1) (adj differs y t)); discriminate E.
      * apply diff_shift.
Qed.

Lemma runs_sum (t : list A) : forall p,
  sum_Z (runs differs p t) = 1 + Z.of_nat (length t).
Proof.
  induction t as [|y t IH]; intros p; [reflexivity|].
  cbn [runs length]. specialize (IH y). unfold sum_Z in *.
  destruct (differs y p).
  - cbn [fold_right]. lia.
  - destruct (runs differs y t); cbn [fold_right] in *; lia.
Qed.

Lemma sorted_head_absent (p y : A) (t : list A) :
  StronglySorted (le_of leb) (p :: y :: t) -> y <> p -> ~ In p (y :: t).
Proof.
  intros S Hne Hin.
  inversion S as [|? ? S' F]; subst. inversion S' as [|? ? _ F']; subst.
  inversion F as [|? ? Hpy _]; subst.
  destruct Hin as [->|Hin]; [congruence|].
  rewrite Forall_forall in F'. apply Hne. apply leb_antisym; auto.
  apply F'; auto.
Qed.

(** In a sorted array the run lengths are the multiplicities of the selected
    values. *)
Lemma runs_count (t : list A) : forall p,
  StronglySorted (le_of leb) (p :: t) ->
  runs differs p t
  = map (fun v => Z.of_nat (count_occ eq_dec (p :: t) v))
      (p :: compress (adj differs p t) t).
Proof.
  induction t as [|y t IH]; intros p S.
  - simpl. destruct (eq_dec p p); [reflexivity|congruence].
  - assert (S' : StronglySorted (le_of leb) (y :: t)) by now inversion S.
    specialize (IH y S').
    assert (Hstrict := adj_strict differs differs_spec leb leb_trans
                         leb_antisym (y :: t) p S).
    cbn [adj runs compress] in *. destruct (differs y p) eqn:E.
    + rewrite IH. cbn [map].
      assert (Hne : y <> p).
      { intros ->. assert (differs p p = false) by now apply differs_spec.
        congruence. }
      assert (Habs := sorted_head_absent p y t S Hne).
      f_equal.
      * rewrite count_occ_cons_eq by auto.
        rewrite (proj1 (count_occ_not_In eq_dec _ _) Habs). reflexivity.
      * f_equal.
        -- f_equal. symmetry. apply count_occ_cons_neq. auto.
        -- apply map_ext_in. intros v Hv. f_equal.
           rewrite (count_occ_cons_neq eq_dec (y :: t) (x:=p) (y:=v));
             [reflexivity|].
           intros ->. apply Habs. right. eapply compress_In; eauto.
    + apply differs_spec in E. subst y. rewrite IH. cbn [map].
      f_equal.
      * rewrite (count_occ_cons_eq eq_dec (p :: t) (x:=p) (y:=p)) by auto. lia.
      * apply map_ext_in. intros v Hv. f_equal.
        rewrite (count_occ_cons_neq eq_dec (p :: t) (x:=p) (y:=v));
          [reflexivity|].
        apply (strict_NoDup leb) in Hstrict. inversion Hstrict; subst.
        intros ->. auto.
Qed.

End Runs.

Lemma counts_runs {A} (differs : A -> A -> bool) (l : list A) :
  diff (nonzero (mask_of differs l) ++ [Z.of_nat (length (mask_of differs l))])
  = match l with [] => [] | p :: t => runs differs p t end.
Proof.
  destruct l as [|p t]; [reflexivity|].
  unfold nonzero. cbn [mask_of nonzero_from app length].
  rewrite adj_length.
  replace (Z.of_nat (S (length t))) with (0 + 1 + Z.of_nat (length t)) by lia.
  apply diff_nonzero_runs.
Qed.

Lemma count_single (l : list elt) (e : elt) :
  count_occ row_eq_dec (map (fun e => [e]) l) [e] = count_occ elt_eq_dec l e.
Proof.
  symmetry. apply (count_occ_map (fun e : elt => [e])).
  intros a b H. now inversion H.
Qed.

Lemma nth_singletons (l : list elt) k :
  nth k (map (fun e => [e]) l) [NaN] = [nth k l NaN].
Proof. apply (map_nth (fun e : elt => [e])). Qed.

Lemma sum_Z_app l1 l2 : sum_Z (l1 ++ l2) = sum_Z l1 + sum_Z l2.
Proof. unfold sum_Z. induction l1; simpl in *; lia. Qed.

Lemma sum_Z_zeros j : sum_Z (repeat 0 j) = 0.
Proof. unfold sum_Z. induction j; simpl in *; lia. Qed.

(** C2: with [return_counts] and no size, the counts returned by [unique]
    add up to the length of the input along the working axis, there is one
    count per returned value, and each count is the number of occurrences
    of that value in the input.  With a size that keeps every distinct value
    and a fill value, if any, that the dtype of the array holds, the counts
    are the same, followed by a zero for each padding entry, so that they
    add up to the same length. *)
Theorem unique_counts (x : ndarray) :
  well_formed x = true ->
  exists o counts,
    unique x false false true None None None = inr o
    /\ out_counts o = Some counts
    /\ sum_Z counts = Z.of_nat (axis_length x None)
    /\ length counts = length (values o)
    /\ (forall k, (k < length (values o))%nat ->
          nth k counts 0
          = Z.of_nat (count_occ elt_eq_dec (ravel x) (nth k (values o) NaN)))
    /\ (forall n fill, ravel x <> [] -> (length (values o) <= n)%nat ->
          (inexact x = false -> fill <> Some NaN) ->
          exists o',
            unique x false false true None (Some n) fill = inr o'
            /\ values o'
               = values o
                 ++ repeat (match fill with
                            | Some fv => fv
                            | None => hd NaN (values o)
                            end) (n - length (values o))
            /\ out_counts o'
               = Some (counts ++ repeat 0 (n - length (values o)))
            /\ sum_Z (counts ++ repeat 0 (n - length (values o)))
               = Z.of_nat (axis_length x None)).
Proof.
  intros Hwf.
  assert (Hwf' := well_formed_flatten x Hwf).
  assert (Hw : width (flatten x) <> 0%nat) by (simpl; lia).
  pose proof (unique_sized_no_truncation x false false true) as Hsized.
  cbv zeta in Hsized.
  unfold unique at 1.
  rewrite (unique_size_none _ false false true false Hw).
  change (inexact (flatten x)) with (inexact x).
  assert (Hsorted := sorted_rows_sorted (rows (flatten x))).
  assert (HIn := sorted_rows_In (rows (flatten x))).
  assert (Hperm := sorted_rows_perm (rows (flatten x))).
  assert (Hmw := mask_well_formed _ Hwf').
  change (inexact (flatten x)) with (inexact x) in Hmw.
  remember (sorted_rows (rows (flatten x))) as aux eqn:Eaux. clear Eaux.
  remember (mask_of (row_neq (inexact x)) aux) as mask eqn:Emask.
  eexists. eexists. split; [reflexivity|]. split; [reflexivity|].
  unfold values. cbn [result].
  assert (Hsing : Forall (fun r => length r = 1%nat) (compress mask aux)).
  { apply Forall_forall. intros r Hr. apply compress_In in Hr.
    apply (proj1 (HIn _)) in Hr. apply (well_formed_row _ _ Hwf' Hr). }
  assert (Hres := singletons_concat _ Hsing).
  assert (Hcl : length (concat (compress mask aux))
                = length (compress mask aux)).
  { rewrite <- Hres at 2. now rewrite length_map. }
  assert (Hrav : length (ravel x) = length aux).
  { rewrite (Permutation_length Hperm). unfold flatten, array1. cbn [rows].
    now rewrite length_map. }
  unfold axis_length. rewrite Hcl, Hrav.
  assert (Hsum : sum_Z (diff (nonzero mask ++ [Z.of_nat (length mask)]))
                 = Z.of_nat (length aux)).
  { rewrite Emask, counts_runs. destruct aux as [|p t]; [reflexivity|].
    rewrite runs_sum. cbn [length]. lia. }
  split; [exact Hsum|]. split; [|split].
  - rewrite Hmw, counts_runs. destruct aux as [|p t]; [reflexivity|].
    rewrite (runs_count row_differs row_differs_false_iff row_eq_dec row_le
               row_le_trans row_le_antisym t p Hsorted).
    now rewrite length_map.
  - clear Emask Hsum Hsized. subst mask. rewrite counts_runs.
    destruct aux as [|p t]; [simpl; intros k Hk; lia|].
    intros k Hk.
    rewrite (runs_count row_differs row_differs_false_iff row_eq_dec row_le
               row_le_trans row_le_antisym t p Hsorted).
    cbn [mask_of compress] in *.
    set (u := p :: compress (adj row_differs p t) t) in *.
    rewrite (nth_indep _ 0
               ((fun v => Z.of_nat (count_occ row_eq_dec (p :: t) v)) [NaN]))
      by now rewrite length_map.
    rewrite (map_nth (fun v => Z.of_nat (count_occ row_eq_dec (p :: t) v))).
    f_equal.
    rewrite (proj1 (Permutation_count_occ row_eq_dec _ _) Hperm).
    rewrite <- Hres at 1.
    rewrite nth_singletons.
    unfold flatten, array1. cbn [rows]. apply count_single.
  - intros n fill Hne Hk Hf.
    rewrite (Hsized n fill Hwf Hne Hk Hf).
    eexists. split; [reflexivity|]. cbn [result out_counts].
    split; [|split; [reflexivity|]].
    + rewrite concat_app, concat_repeat_single. reflexivity.
    + rewrite sum_Z_app, sum_Z_zeros. lia.
Qed.

(** ** The inverse index *)

Lemma set_nth_length {A} (l : list A) : forall n v,
  length (set_nth l n v) = length l.
Proof. induction l; intros [|n] v; simpl; auto. Qed.

Lemma set_nth_same {A} (d : A) (l : list A) : forall n v,
  (n < length l)%nat -> nth n (set_nth l n v) d = v.
Proof.
  induction l; intros [|n] v H; simpl in *; try lia; auto.
  apply IHl. lia.
Qed.

Lemma set_nth_other {A} (d : A) (l : list A) : forall n m v,
  n <> m -> nth m (set_nth l n v) d = nth m l d.
Proof.
  induction l; intros [|n] [|m] v H; simpl; auto; try congruence.
Qed.

Section Scatter.
Context {A : Type} (d : A) (len : nat).

Lemma scatter_step_in_range (acc : list A) i v :
  0 <= i < Z.of_nat len ->
  scatter_step len acc (i, v) = set_nth acc (Z.to_nat i) v.
Proof.
  intros H. unfold scatter_step. cbn [fst snd].
  destruct (Z.ltb_spec i 0); [lia|].
  destruct (Z.leb_spec 0 i); [|lia].
  destruct (Z.ltb_spec i (Z.of_nat len)); [|lia]. reflexivity.
Qed.

Lemma scatter_fold_length (ivs : list (Z * A)) : forall acc,
  length (fold_left (scatter_step len) ivs acc) = length acc.
Proof.
  induction ivs as [|iv ivs IH]; intros acc; simpl; auto.
  rewrite IH. unfold scatter_step.
  destruct (_ && _); auto using set_nth_length.
Qed.

Lemma scatter_fold_other (idx : list Z) : forall (vals : list A) acc m,
  Forall (fun i => 0 <= i < Z.of_nat len) idx ->
  ~ In (Z.of_nat m) idx ->
  nth m (fold_left (scatter_step len) (combine idx vals) acc) d = nth m acc d.
Proof.
  induction idx as [|i idx IH]; intros [|v vals] acc m F Hm; simpl; auto.
  inversion F; subst. rewrite IH; auto.
  - rewrite scatter_step_in_range by auto.
    apply set_nth_other. intros E. apply Hm. left. lia.
  - intros H. apply Hm. right. auto.
Qed.

Lemma scatter_fold_nth (idx : list Z) : forall (vals : list A) acc j,
  length acc = len ->
  NoDup idx ->
  Forall (fun i => 0 <= i < Z.of_nat len) idx ->
  length vals = length idx ->
  (j < length idx)%nat ->
  nth (Z.to_nat (nth j idx 0)) (fold_left (scatter_step len) (combine idx vals) acc) d
  = nth j vals d.
Proof.
  induction idx as [|i idx IH]; intros [|v vals] acc j L N F Lv Hj;
    simpl in *; try lia.
  apply NoDup_cons_iff in N. destruct N as [Hni N].
  apply Forall_cons_iff in F. destruct F as [Hi F].
  destruct j as [|j].
  - rewrite <- (Z2Nat.id i) at 1 by lia.
    rewrite Nat2Z.id.
    rewrite scatter_fold_other; auto.
    + rewrite scatter_step_in_range by auto. apply set_nth_same. lia.
    + rewrite Z2Nat.id by lia. auto.
  - apply IH; auto; try lia.
    rewrite scatter_step_in_range by auto. now rewrite set_nth_length.
Qed.

End Scatter.

Lemma scatter_set_nth {A} (d : A) (base : list A) idx vals j :
  NoDup idx ->
  Forall (fun i => 0 <= i < Z.of_nat (length base)) idx ->
  length vals = length idx ->
  (j < length idx)%nat ->
  nth (Z.to_nat (nth j idx 0)) (scatter_set base idx vals) d = nth j vals d.
Proof.
  intros. unfold scatter_set.
  apply (scatter_fold_nth d (length base)); auto.
Qed.

Lemma scatter_set_length {A} (base : list A) idx vals :
  length (scatter_set base idx vals) = length base.
Proof. apply (scatter_fold_length (length base)). Qed.

Lemma cumsum_from_length mask : forall acc,
  length (cumsum_from acc mask) = length mask.
Proof. induction mask; simpl; auto. Qed.

Lemma cumsum_from_nth mask : forall acc j,
  (j < length mask)%nat ->
  nth j (cumsum_from acc mask) 0 = acc + sum_bool (firstn (S j) mask).
Proof.
  induction mask as [|b m IH]; intros acc j Hj; simpl in *; [lia|].
  destruct j as [|j].
  - simpl. lia.
  - rewrite IH by lia. cbn [firstn sum_bool fold_right]. unfold sum_bool. lia.
Qed.

Section Rank.
Context {A : Type} (differs : A -> A -> bool) (d : A).
Hypothesis differs_spec : forall x y, differs x y = false <-> x = y.

Lemma rank_from (t : list A) : forall p pre j,
  (j < length t)%nat ->
  exists k,
    nth j (cumsum_from (Z.of_nat (length pre) + 1) (adj differs p t)) 0
    = Z.of_nat k + 1
    /\ nth_error (pre ++ p :: compress (adj differs p t) t) k
       = Some (nth j t d).
Proof.
  induction t as [|y t IH]; intros p pre j Hj; simpl in Hj; [lia|].
  cbn [adj cumsum_from compress]. destruct (differs y p) eqn:E.
  - cbn [b2z]. destruct j as [|j].
    + exists (length pre + 1)%nat. split; [simpl; lia|].
      rewrite nth_error_app2 by lia.
      replace (length pre + 1 - length pre)%nat with 1%nat by lia.
      reflexivity.
    + destruct (IH y (pre ++ [p]) j) as (k & H1 & H2); [lia|].
      exists k. cbn [nth]. split.
      * rewrite <- H1. f_equal. f_equal. rewrite length_app. simpl. lia.
      * rewrite <- app_assoc in H2. exact H2.
  - apply differs_spec in E. subst y. cbn [b2z]. rewrite Z.add_0_r.
    destruct j as [|j].
    + exists (length pre). split; [reflexivity|].
      rewrite nth_error_app2 by lia. rewrite Nat.sub_diag. reflexivity.
    + destruct (IH p pre j) as (k & H1 & H2); [lia|].
      exists k. cbn [nth]. auto.
Qed.

Lemma rank_of_position (l : list A) j :
  (j < length l)%nat ->
  exists k,
    nth j (cumsum (mask_of differs l)) 0 = Z.of_nat k + 1
    /\ nth_error (compress (mask_of differs l) l) k = Some (nth j l d).
Proof.
  destruct l as [|p t]; simpl; [lia|]. intros Hj.
  destruct j as [|j].
  - exists 0%nat. auto.
  - destruct (rank_from t p [] j) as (k & H1 & H2); [lia|].
    exists k. auto.
Qed.

End Rank.

Lemma arange_NoDup n : NoDup (arange n).
Proof.
  unfold arange. generalize (seq_NoDup n 0). generalize (seq 0 n).
  induction 1 as [|k l Hk _ IH]; simpl; constructor; auto.
  intros H. apply in_map_iff in H. destruct H as (k' & E & Hk').
  apply Nat2Z.inj in E. subst. auto.
Qed.

Lemma lexsort_NoDup l : NoDup (lexsort l).
Proof.
  eapply Permutation_NoDup; [symmetry; apply lexsort_perm|apply arange_NoDup].
Qed.

Lemma nth_map_default {A B} (f : A -> B) (l : list A) dA dB j :
  (j < length l)%nat -> nth j (map f l) dB = f (nth j l dA).
Proof.
  intros H. rewrite (nth_indep _ dB (f dA)) by now rewrite length_map.
  apply map_nth.
Qed.

Lemma take_singletons (v : list elt) (idx : list Z) :
  take [NaN] (map (fun e => [e]) v) idx = map (fun e => [e]) (take NaN v idx).
Proof.
  unfold take. rewrite map_map, length_map. apply map_ext. intros i.
  apply nth_singletons.
Qed.

Lemma take_app_l {A} (d : A) (l1 l2 : list A) (idx : list Z) :
  Forall (fun i => 0 <= i < Z.of_nat (length l1)) idx ->
  take d (l1 ++ l2) idx = take d l1 idx.
Proof.
  intros F. unfold take. apply map_ext_in. intros i Hi.
  rewrite Forall_forall in F. specialize (F i Hi).
  rewrite !norm_index_in_range by (rewrite ?length_app; lia).
  apply app_nth1. lia.
Qed.

(** The inverse index sends the original position of each sorted entry to
    the rank of the entry; its entries are positions of selected rows, and
    the selected rows taken at the inverse index are the rows of the
    array. *)
Lemma inverse_index_rows (fl : bool) (l : list row) :
  well_formed (mk_array fl 1 l) = true ->
  let aux := sorted_rows l in
  let mask := mask_of (row_neq fl) aux in
  let perm := lexsort l in
  let inv := scatter_set (zeros (length mask)) perm
               (map (fun c => c - 1) (cumsum mask)) in
  (forall j, (j < length perm)%nat ->
     nth (Z.to_nat (nth j perm 0)) inv 0 = nth j (cumsum mask) 0 - 1)
  /\ Forall (fun i => 0 <= i < Z.of_nat (length (compress mask aux))) inv
  /\ take [NaN] (compress mask aux) inv = l.
Proof.
  intros Hwf aux mask perm inv.
  assert (Hmask : mask = mask_of row_differs aux)
    by apply (mask_well_formed (mk_array fl 1 l) Hwf).
  assert (Lm : length mask = length l)
    by (unfold mask, aux; now rewrite mask_of_length, sorted_rows_length).
  assert (Lp : length perm = length l) by apply lexsort_length.
  assert (Lc : length (cumsum mask) = length l)
    by (unfold cumsum; now rewrite cumsum_from_length).
  assert (Hinv : forall j, (j < length perm)%nat ->
            nth (Z.to_nat (nth j perm 0)) inv 0 = nth j (cumsum mask) 0 - 1).
  { intros j Hj. unfold inv. rewrite scatter_set_nth; auto.
    - apply (nth_map_default (fun c => c - 1)). lia.
    - apply lexsort_NoDup.
    - apply Forall_forall. intros i Hi. unfold zeros. rewrite repeat_length, Lm.
      now apply lexsort_in_range.
    - rewrite length_map. lia. }
  assert (Li : length inv = length l).
  { unfold inv. rewrite scatter_set_length. unfold zeros.
    now rewrite repeat_length. }
  assert (Hpos : forall m, (m < length l)%nat ->
            exists k, nth m inv 0 = Z.of_nat k
                      /\ nth_error (compress mask aux) k = Some (nth m l [NaN])).
  { intros m Hm.
    assert (Hin : In (Z.of_nat m) perm).
    { eapply Permutation_in; [symmetry; apply lexsort_perm|].
      unfold arange. apply in_map. apply in_seq. lia. }
    destruct (In_nth _ _ 0 Hin) as (j & Hj & Ej).
    assert (Em : m = Z.to_nat (nth j perm 0)) by (rewrite Ej; lia).
    destruct (rank_of_position row_differs [NaN] row_differs_false_iff aux j)
      as (k & Hk & Hnth).
    { unfold aux. rewrite sorted_rows_length. lia. }
    rewrite <- Hmask in Hk, Hnth.
    exists k. split.
    - rewrite Em at 1. rewrite Hinv by auto. rewrite Hk. lia.
    - rewrite Hnth. f_equal.
      unfold aux. rewrite <- take_lexsort. unfold take. fold perm.
      rewrite (nth_map_default _ perm 0) by lia.
      rewrite Ej. rewrite norm_index_in_range by lia. rewrite Nat2Z.id.
      apply nth_indep. lia. }
  split; [exact Hinv|]. split.
  - apply Forall_forall. intros i Hi.
    destruct (In_nth _ _ 0 Hi) as (m & Hm & <-).
    destruct (Hpos m) as (k & Hk & Hnth); [lia|].
    rewrite Hk. assert (k < length (compress mask aux))%nat; [|lia].
    apply nth_error_Some. congruence.
  - apply (nth_ext _ _ [NaN] [NaN]); [now rewrite take_length|].
    intros m Hm. rewrite take_length, Li in Hm.
    unfold take at 1. rewrite (nth_map_default _ inv 0) by lia.
    destruct (Hpos m Hm) as (k & Hk & Hnth). rewrite Hk.
    assert (k < length (compress mask aux))%nat
      by (apply nth_error_Some; congruence).
    rewrite norm_index_in_range by lia. rewrite Nat2Z.id.
    apply (nth_error_nth _ _ _ Hnth).
Qed.

(** C3: with [return_inverse] and no size, taking the returned values at the
    returned inverse index gives back the input, element by element; the
    inverse index at the original position of each sorted entry is the
    number of true mask entries up to and including that sorted position,
    minus one.  With a size that keeps every distinct value and a fill
    value, if any, that the dtype of the array holds, the inverse index is
    the same and the identity holds again. *)
Theorem unique_inverse_roundtrip (x : ndarray) :
  well_formed x = true ->
  exists o inv,
    unique x false true false None None None = inr o
    /\ out_inverse o = Some inv
    /\ take NaN (values o) inv = ravel x
    /\ (let '(_, mask, perm) := _unique_sorted_mask (flatten x) in
        Permutation perm (arange (length (ravel x)))
        /\ forall j, (j < length perm)%nat ->
             nth (Z.to_nat (nth j perm 0)) inv 0
             = sum_bool (firstn (S j) mask) - 1)
    /\ (forall n fill, ravel x <> [] -> (length (values o) <= n)%nat ->
          (inexact x = false -> fill <> Some NaN) ->
          exists o',
            unique x false true false None (Some n) fill = inr o'
            /\ out_inverse o' = Some inv
            /\ take NaN (values o') inv = ravel x).
Proof.
  intros Hwf.
  assert (Hwf' := well_formed_flatten x Hwf).
  assert (Hw : width (flatten x) <> 0%nat) by (simpl; lia).
  pose proof (unique_sized_no_truncation x false true false) as Hsized.
  cbv zeta in Hsized.
  unfold unique at 1.
  rewrite (unique_size_none _ false true false false Hw).
  rewrite (unique_sorted_mask_eq _ Hw).
  eexists. eexists. split; [reflexivity|]. split; [reflexivity|].
  unfold values. cbn [result].
  destruct (inverse_index_rows (inexact x) (rows (flatten x)) Hwf')
    as (Hinv & Hrange & Htake).
  change (inexact (flatten x)) with (inexact x) in *.
  set (aux := sorted_rows (rows (flatten x))) in *.
  set (mask := mask_of (row_neq (inexact x)) aux) in *.
  set (perm := lexsort (rows (flatten x))) in *.
  set (inv := scatter_set (zeros (length mask)) perm
                (map (fun c => c - 1) (cumsum mask))) in *.
  assert (Hsing : Forall (fun r => length r = 1%nat) (compress mask aux)).
  { apply Forall_forall. intros r Hr. apply compress_In in Hr.
    apply (proj1 (sorted_rows_In _ _)) in Hr.
    apply (well_formed_row _ _ Hwf' Hr). }
  assert (Hres := singletons_concat _ Hsing).
  assert (Hcl : length (concat (compress mask aux))
                = length (compress mask aux)).
  { rewrite <- Hres at 2. now rewrite length_map. }
  assert (Lr : length (rows (flatten x)) = length (ravel x)).
  { unfold flatten, array1. cbn [rows]. now rewrite length_map. }
  assert (Hvals : take NaN (concat (compress mask aux)) inv = ravel x).
  { rewrite <- Hres, take_singletons in Htake.
    apply (f_equal (@concat elt)) in Htake.
    rewrite concat_singletons in Htake. rewrite Htake.
    apply ravel_flatten. }
  split; [exact Hvals|]. split; [split|].
  - rewrite <- Lr. apply lexsort_perm.
  - intros j Hj. rewrite Hinv by auto.
    unfold cumsum. rewrite cumsum_from_nth.
    + lia.
    + unfold mask. rewrite mask_of_length. unfold aux.
      rewrite sorted_rows_length. unfold perm in Hj.
      now rewrite lexsort_length in Hj.
  - intros n fill Hne Hk Hf. rewrite Hcl in Hk.
    rewrite (Hsized n fill Hwf Hne Hk Hf).
    eexists. split; [reflexivity|]. cbn [result out_inverse].
    split; [reflexivity|].
    rewrite concat_app, take_app_l; [exact Hvals|].
    now rewrite Hcl.
Qed.

(** * Further properties *)

Lemma well_formed_view ar axis :
  well_formed ar = true -> well_formed (view ar axis) = true.
Proof. destruct axis; simpl; auto using well_formed_flatten. Qed.

Lemma axis_length_view ar axis :
  axis_length ar axis = length (rows (view ar axis)).
Proof.
  destruct axis; simpl; auto.
  unfold flatten, array1. cbn [rows]. now rewrite length_map.
Qed.

Lemma strict_single (u : list elt) :
  StronglySorted (lt_of row_le) (map (fun e => [e]) u) ->
  StronglySorted (lt_of elt_le) u.
Proof.
  induction u as [|e u IH]; intros S; [constructor|].
  inversion S as [|? ? S' F]; subst. constructor; auto.
  rewrite Forall_forall in *. intros v Hv.
  destruct (F [v]) as [H1 H2]; [apply in_map_iff; eauto|].
  split; [now rewrite <- row_le_single|congruence].
Qed.

(** X1: without a size, the values returned by [unique] for a flattened
    array are in strictly increasing order, and a NaN can only be the last
    of them. *)
Theorem unique_values_increasing (x : ndarray) :
  well_formed x = true ->
  exists o,
    unique x false false false None None None = inr o
    /\ StronglySorted (lt_of elt_le) (values o)
    /\ forall i, (i < length (values o))%nat ->
         nth i (values o) NaN = NaN -> S i = length (values o).
Proof.
  intros Hwf.
  assert (Hwf' := well_formed_flatten x Hwf).
  assert (Hw : width (flatten x) <> 0%nat) by (simpl; lia).
  unfold unique. rewrite (unique_size_none _ false false false false Hw).
  eexists. split; [reflexivity|]. unfold values. cbn [result].
  assert (Hstrict := unique_rows_strict _ Hwf').
  set (U := compress _ _) in *.
  assert (Hsing : Forall (fun r => length r = 1%nat) U).
  { apply Forall_forall. intros r Hr. apply compress_In in Hr.
    apply (proj1 (sorted_rows_In _ _)) in Hr.
    apply (well_formed_row _ _ Hwf' Hr). }
  assert (Hres := singletons_concat _ Hsing).
  rewrite <- Hres in Hstrict. apply strict_single in Hstrict.
  split; [exact Hstrict|].
  intros i Hi Hnan.
  destruct (Nat.eq_dec (S i) (length (concat U))) as [E|E]; auto.
  destruct (strict_nth elt_le NaN _ Hstrict i (S i)) as [H1 H2]; [lia|].
  rewrite Hnan in H1, H2. unfold elt_le in H1.
  destruct (nth (S i) (concat U) NaN); [discriminate H1|congruence].
Qed.

(** X2: without a size, the slices returned by [unique] along an axis (or
    the values of the flattened array) are in strictly increasing
    lexicographic order, so pairwise different; they are exactly the slices
    that occur in the input, and they keep its width. *)
Theorem unique_axis_slices (ar : ndarray) (axis : option nat) :
  well_formed ar = true ->
  width (view ar axis) <> 0%nat ->
  exists o,
    unique ar false false false axis None None = inr o
    /\ StronglySorted (lt_of row_le) (result o)
    /\ NoDup (result o)
    /\ (forall r, In r (result o) <-> In r (rows (view ar axis)))
    /\ Forall (fun r => length r = width (view ar axis)) (result o).
Proof.
  intros Hwf Hw.
  assert (Hwf' := well_formed_view ar axis Hwf).
  change (unique ar false false false axis None None)
    with (_unique (view ar axis) false false false None None false).
  rewrite (unique_size_none _ false false false false Hw).
  eexists. split; [reflexivity|]. cbn [result].
  assert (Hstrict := unique_rows_strict _ Hwf').
  split; [exact Hstrict|]. split; [now apply (strict_NoDup row_le)|].
  split.
  - intros r. rewrite mask_well_formed by auto.
    rewrite <- (mask_cover row_differs row_differs_false_iff).
    apply sorted_rows_In.
  - apply Forall_forall. intros r Hr. apply compress_In in Hr.
    apply (proj1 (sorted_rows_In _ _)) in Hr.
    apply (well_formed_row _ _ Hwf' Hr).
Qed.

(** ** [unique] as a function of the set of slices *)

(** Two strictly increasing lists with the same entries are equal. *)
Lemma strict_same_entries {A} (leb : A -> A -> bool) (l1 l2 : list A) :
  (forall x y, leb x y = true -> leb y x = true -> x = y) ->
  StronglySorted (lt_of leb) l1 -> StronglySorted (lt_of leb) l2 ->
  (forall x, In x l1 <-> In x l2) -> l1 = l2.
Proof.
  intros Hanti S1 S2 Hin.
  apply (sorted_perm_eq leb Hanti); try now apply strict_weaken.
  apply NoDup_Permutation; auto; now apply (strict_NoDup leb).
Qed.

Lemma unique_rows_entries ar r :
  well_formed ar = true ->
  In r (compress (mask_of (row_neq (inexact ar)) (sorted_rows (rows ar)))
          (sorted_rows (rows ar)))
  <-> In r (rows ar).
Proof.
  intros Hwf. rewrite mask_well_formed by auto.
  rewrite <- (mask_cover row_differs row_differs_false_iff).
  apply sorted_rows_In.
Qed.

Lemma unique_rows_ext ar1 ar2 :
  well_formed ar1 = true -> well_formed ar2 = true ->
  (forall r, In r (rows ar1) <-> In r (rows ar2)) ->
  compress (mask_of (row_neq (inexact ar1)) (sorted_rows (rows ar1)))
    (sorted_rows (rows ar1))
  = compress (mask_of (row_neq (inexact ar2)) (sorted_rows (rows ar2)))
      (sorted_rows (rows ar2)).
Proof.
  intros W1 W2 H.
  apply (strict_same_entries row_le); auto using row_le_antisym, unique_rows_strict.
  intros r. rewrite !unique_rows_entries by auto. apply H.
Qed.

(** X3: without a size, the result of [unique] depends only on the set of
    slices of its input: two well-formed arrays with the same slices, in any
    order and with any repetitions, have the same result. *)
Theorem unique_depends_on_set (ar1 ar2 : ndarray) (axis : option nat) :
  well_formed ar1 = true ->
  well_formed ar2 = true ->
  width (view ar1 axis) <> 0%nat ->
  width (view ar2 axis) <> 0%nat ->
  (forall r, In r (rows (view ar1 axis)) <-> In r (rows (view ar2 axis))) ->
  unique ar1 false false false axis None None
  = unique ar2 false false false axis None None.
Proof.
  intros W1 W2 H1 H2 H.
  change (_unique (view ar1 axis) false false false None None false
          = _unique (view ar2 axis) false false false None None false).
  rewrite !(unique_size_none _ false false false false) by auto.
  rewrite (unique_rows_ext (view ar1 axis) (view ar2 axis));
    auto using well_formed_view.
Qed.

(** ** Union *)

Lemma well_formed_array1 fl (l : list elt) :
  well_formed (array1 fl l) = true
  <-> (fl = false -> Forall (fun e => isnan e = false) l).
Proof.
  split.
  - intros Hwf E. apply Forall_forall. intros e He.
    destruct (well_formed_row (array1 fl l) [e] Hwf) as [_ Hn].
    { cbn [rows array1]. apply in_map_iff. eauto. }
    specialize (Hn E). now inversion Hn.
  - intros H. apply well_formed_intro. cbn [rows array1 width inexact].
    intros r Hr. apply in_map_iff in Hr. destruct Hr as (e & <- & He).
    split; [reflexivity|]. intros E. constructor; [|constructor].
    specialize (H E). rewrite Forall_forall in H. auto.
Qed.

Lemma well_formed_array1_incl fl (l1 l2 : list elt) :
  well_formed (array1 fl l1) = true -> incl l2 l1 ->
  well_formed (array1 fl l2) = true.
Proof.
  rewrite !well_formed_array1. intros H Hi E. specialize (H E).
  rewrite Forall_forall in *. auto.
Qed.

(** The values of [unique] on a one-dimensional array: strictly increasing,
    with the entries of the array. *)
Lemma unique_values_spec fl l :
  well_formed (array1 fl l) = true ->
  exists u,
    unique_values fl l None None = inr u
    /\ StronglySorted (lt_of elt_le) u
    /\ forall e, In e u <-> In e l.
Proof.
  intros Hwf. rewrite unique_values_none. eexists. split; [reflexivity|].
  assert (Hstrict := unique_rows_strict _ Hwf).
  assert (Hent := fun r => unique_rows_entries (array1 fl l) r Hwf).
  cbn [rows inexact array1] in *.
  set (U := compress _ _) in *.
  assert (Hsing : Forall (fun r => length r = 1%nat) U).
  { apply Forall_forall. intros r Hr. apply Hent in Hr.
    apply in_map_iff in Hr. now destruct Hr as (e & <- & _). }
  assert (Hres := singletons_concat _ Hsing).
  split.
  - rewrite <- Hres in Hstrict. now apply strict_single.
  - intros e. rewrite <- (Hres) in Hent. specialize (Hent [e]).
    rewrite !in_map_iff in Hent. split; intros H.
    + destruct (proj1 Hent) as (e' & E & He'); [eauto|]. now inversion E; subst.
    + destruct (proj2 Hent) as (e' & E & He'); [eauto|]. now inversion E; subst.
Qed.

Lemma unique_values_ext fl1 fl2 l1 l2 :
  well_formed (array1 fl1 l1) = true -> well_formed (array1 fl2 l2) = true ->
  (forall e, In e l1 <-> In e l2) ->
  unique_values fl1 l1 None None = unique_values fl2 l2 None None.
Proof.
  intros W1 W2 H.
  destruct (unique_values_spec fl1 l1 W1) as (u1 & E1 & S1 & I1).
  destruct (unique_values_spec fl2 l2 W2) as (u2 & E2 & S2 & I2).
  rewrite E1, E2. f_equal.
  apply (strict_same_entries elt_le); auto using elt_le_antisym.
  intros e. rewrite I1, I2. apply H.
Qed.

(** X4: without a size, [union1d] returns, in strictly increasing order, the
    values that occur in either array, and it does not depend on the order
    of the arguments. *)
Theorem union1d_members (fl : bool) (a b : list elt) :
  well_formed (array1 fl (a ++ b)) = true ->
  exists u,
    union1d fl a b None None = inr u
    /\ StronglySorted (lt_of elt_le) u
    /\ (forall e, In e u <-> In e a \/ In e b)
    /\ union1d fl b a None None = inr u.
Proof.
  intros Hwf. unfold union1d.
  destruct (unique_values_spec fl (a ++ b) Hwf) as (u & E & S & I).
  exists u. split; [exact E|]. split; [exact S|]. split.
  - intros e. rewrite I. apply in_app_iff.
  - rewrite <- E. apply unique_values_ext; auto.
    + apply (well_formed_array1_incl fl (a ++ b)); auto.
      intros e He. apply in_app_iff. apply in_app_iff in He. tauto.
    + intros e. rewrite !in_app_iff. tauto.
Qed.

(** X5: [union1d] is associative, and the union of an array with itself is
    the array deduplicated. *)
Theorem union1d_assoc (fl : bool) (a b c uab ubc : list elt) :
  well_formed (array1 fl (a ++ b ++ c)) = true ->
  union1d fl a b None None = inr uab ->
  union1d fl b c None None = inr ubc ->
  union1d fl uab c None None = union1d fl a ubc None None
  /\ union1d fl a a None None = unique_values fl a None None.
Proof.
  intros Hwf Hab Hbc. unfold union1d in *.
  assert (Wab : well_formed (array1 fl (a ++ b)) = true).
  { apply (well_formed_array1_incl fl (a ++ b ++ c)); auto.
    intros e. rewrite !in_app_iff. tauto. }
  assert (Wbc : well_formed (array1 fl (b ++ c)) = true).
  { apply (well_formed_array1_incl fl (a ++ b ++ c)); auto.
    intros e. rewrite !in_app_iff. tauto. }
  destruct (unique_values_spec fl (a ++ b) Wab) as (u1 & E1 & _ & I1).
  destruct (unique_values_spec fl (b ++ c) Wbc) as (u2 & E2 & _ & I2).
  assert (u1 = uab) by congruence. assert (u2 = ubc) by congruence. subst.
  split.
  - apply unique_values_ext.
    + apply (well_formed_array1_incl fl (a ++ b ++ c)); auto.
      intros e. rewrite !in_app_iff, I1, in_app_iff. tauto.
    + apply (well_formed_array1_incl fl (a ++ b ++ c)); auto.
      intros e. rewrite !in_app_iff, I2, in_app_iff. tauto.
    + intros e. rewrite !in_app_iff, I1, I2, !in_app_iff. tauto.
  - apply unique_values_ext.
    + apply (well_formed_array1_incl fl (a ++ b ++ c)); auto.
      intros e. rewrite !in_app_iff. tauto.
    + apply (well_formed_array1_incl fl (a ++ b ++ c)); auto.
      intros e. rewrite !in_app_iff. tauto.
    + intros e. rewrite in_app_iff. tauto.
Qed.

(** ** Set difference without a size, and with [assume_unique] *)




(** The selection of the first [n] entries of a mask, padded with the fill
    value. *)
Lemma where_take_nonzero {A} (d fv : A) (mask : list bool) (l : list A) n :
  length mask = length l ->
  where_ (map (fun i => i <? sum_bool mask) (arange n))
    (take d l (nonzero_size mask n)) fv
  = firstn n (compress mask l)
    ++ repeat fv (n - length (compress mask l)).
Proof.
  intros H. rewrite (sum_bool_compress mask l H).
  rewrite take_nonzero_size by auto.
  set (s := compress mask l).
  set (L := firstn n s ++ repeat (nth 0 l d) (n - length (firstn n s))).
  assert (LL : length L = n).
  { unfold L. rewrite length_app, repeat_length, length_firstn. lia. }
  rewrite <- LL at 1. rewrite where_lt. rewrite LL. f_equal.
  destruct (Nat.le_gt_cases (length s) n) as [Hle|Hgt].
  - unfold L. rewrite (firstn_all2 s) by lia.
    rewrite firstn_app, Nat.sub_diag, firstn_O, app_nil_r.
    now rewrite firstn_all.
  - unfold L. rewrite length_firstn.
    replace (n - Nat.min n (length s))%nat with 0%nat by lia.
    cbn [repeat]. rewrite app_nil_r.
    apply firstn_all2. rewrite length_firstn. lia.
Qed.

(** X7: with [assume_unique] and a fill value, if any, that the dtype of
    the first array holds, [setdiff1d] does not deduplicate: without a size
    it returns the elements of the first array that are equal to no element
    of the second, in their order and with their repetitions, and with a
    size the first [size] of them, padded with the fill value (zero by
    default). *)
Theorem setdiff1d_assume_unique (fl : bool) (a b : list elt) (n : nat)
    (fill : option elt) :
  (fl = false -> fill <> Some NaN) ->
  let s := filter (fun x => negb (existsb (lax_eq x) b)) a in
  setdiff1d fl a b true None fill = inr s
  /\ setdiff1d fl a b true (Some n) fill
     = inr (firstn n s
              ++ repeat (match fill with None => Val 0 | Some v => v end)
                   (n - length s)).
Proof.
  intros Hfill s. unfold setdiff1d. rewrite (asarray_default fl fill Hfill).
  destruct a as [|x a].
  - cbn [length Nat.eqb repeat]. split; [reflexivity|].
    unfold s. cbn [filter firstn length app]. rewrite firstn_nil.
    now rewrite Nat.sub_0_r.
  - cbn [length Nat.eqb negb]. rewrite in1d_invert.
    fold (length (x :: a)).
    split.
    + now rewrite compress_map.
    + rewrite where_take_nonzero by now rewrite length_map.
      now rewrite compress_map.
Qed.

(** X8: membership depends only on the set of reference values: testing
    against an array or against its deduplicated values gives the same
    answers, and the test of a concatenation is the concatenation of the
    tests. *)
Theorem in1d_reference_set (fl : bool) (a1 a2 b : list elt) (invert : bool) :
  well_formed (array1 fl b) = true ->
  exists u,
    unique_values fl b None None = inr u
    /\ in1d a1 u false invert = in1d a1 b false invert
    /\ in1d (a1 ++ a2) b false invert
       = in1d a1 b false invert ++ in1d a2 b false invert.
Proof.
  intros Hwf.
  destruct (unique_values_spec fl b Hwf) as (u & E & _ & I).
  exists u. split; [exact E|].
  assert (H : forall x, existsb (lax_eq x) u = existsb (lax_eq x) b).
  { intros x. apply eq_true_iff_eq. rewrite !existsb_exists.
    split; intros (y & Hy & Ey); exists y; split; auto; now apply I. }
  destruct invert.
  - rewrite !in1d_invert. split; [|apply map_app].
    apply map_ext. intros x. now rewrite H.
  - rewrite !in1d_direct. split; [|apply map_app].
    apply map_ext. intros x. now rewrite H.
Qed.

(** ** [unique] with a size that truncates *)

Lemma diff_firstn (l : list Z) : forall n,
  diff (firstn (S n) l) = firstn n (diff l).
Proof.
  induction l as [|x l IH]; intros n; [simpl; now rewrite firstn_nil|].
  destruct l as [|y l]; [destruct n; simpl; now rewrite ?firstn_nil|].
  destruct n as [|n]; [reflexivity|].
  change (firstn (S (S n)) (x :: y :: l)) with (x :: firstn (S n) (y :: l)).
  change (diff (x :: y :: l)) with ((y - x) :: diff (y :: l)).
  cbn [firstn]. rewrite <- IH. reflexivity.
Qed.

Lemma firstn_subset {A} (l : list A) : forall n x,
  In x (firstn n l) -> In x l.
Proof.
  induction l as [|y l IH]; intros [|n] x H; simpl in *; try tauto.
  destruct H; eauto.
Qed.

Lemma diff_length (l : list Z) : length (diff l) = (length l - 1)%nat.
Proof.
  induction l as [|x l IH]; [reflexivity|].
  destruct l as [|y l]; [reflexivity|].
  change (diff (x :: y :: l)) with ((y - x) :: diff (y :: l)).
  cbn [length] in *. rewrite IH. lia.
Qed.

(** The boundary positions of the counts when the size drops selected
    entries. *)
Lemma counts_truncated {A} (differs : A -> A -> bool) (l : list A) (n : nat) :
  l <> [] ->
  let mask := mask_of differs l in
  (n <= length (nonzero mask))%nat ->
  let idx := nonzero_size mask (n + 1) in
  diff (set_from1 idx
          (map (fun i => if negb (i =? 0) then i else Z.of_nat (length mask))
             (tl idx)))
  = firstn n (diff (nonzero mask ++ [Z.of_nat (length mask)])).
Proof.
  intros Hl mask Hk idx.
  destruct (Nat.eq_dec n (length (nonzero mask))) as [E|E].
  - pose proof (counts_sized differs l n Hl) as H. cbv zeta in H.
    fold mask in H. fold idx in H. rewrite H by lia.
    rewrite E, Nat.sub_diag. cbn [repeat]. rewrite app_nil_r.
    symmetry. apply firstn_all2.
    rewrite diff_length, length_app. cbn [length]. lia.
  - destruct l as [|p t]; [congruence|].
    assert (Hnz : nonzero mask = 0 :: nonzero_from 1 (adj differs p t))
      by reflexivity.
    set (rest := nonzero_from 1 (adj differs p t)) in *.
    assert (Hidx : idx = 0 :: firstn n rest).
    { unfold idx, nonzero_size. rewrite Nat.add_1_r.
      rewrite length_firstn.
      replace (S n - Nat.min (S n) (length (nonzero mask)))%nat with 0%nat
        by lia.
      cbn [zeros repeat]. rewrite app_nil_r. now rewrite Hnz. }
    rewrite Hidx. cbn [tl].
    assert (Hfix : map (fun i => if negb (i =? 0) then i
                                 else Z.of_nat (length mask)) (firstn n rest)
                   = firstn n rest).
    { rewrite <- (map_id (firstn n rest)) at 2. apply map_ext_in. intros i Hi.
      apply firstn_subset in Hi.
      pose proof (nonzero_from_ge (adj differs p t) 1) as F.
      rewrite Forall_forall in F. specialize (F i Hi).
      destruct (Z.eqb_spec i 0); [lia|reflexivity]. }
    rewrite Hfix. unfold set_from1. cbn [firstn length app].
    replace (S (length (firstn n rest)) - 1)%nat
      with (length (firstn n rest)) by lia.
    rewrite firstn_all.
    rewrite <- diff_firstn. f_equal.
    rewrite firstn_app, Hnz. cbn [length].
    replace (S n - S (length rest))%nat with 0%nat
      by (rewrite Hnz in Hk, E; cbn [length] in *; lia).
    now rewrite firstn_O, app_nil_r.
Qed.

(** X9: a size that is at most the number of distinct slices truncates:
    [unique] returns the first [size] slices, indices and counts of the
    result without a size, whatever fill value the dtype of the array
    holds; the counts of the dropped slices are dropped with them, and the
    inverse index is the one of the result without a size. *)
Theorem unique_truncates (ar : ndarray) (axis : option nat) (ri rv rc : bool)
    (n : nat) (fill : option elt) (o0 : unique_out) :
  width (view ar axis) <> 0%nat ->
  rows (view ar axis) <> [] ->
  (inexact ar = false -> fill <> Some NaN) ->
  unique ar true true true axis None None = inr o0 ->
  (n <= length (result o0))%nat ->
  unique ar ri rv rc axis (Some n) fill
  = inr (mk_out (firstn n (result o0))
           (if ri then option_map (firstn n) (out_index o0) else None)
           (if rv then out_inverse o0 else None)
           (if rc then option_map (firstn n) (out_counts o0) else None)
           None).
Proof.
  intros Hw Hr Hf H0 Hn.
  assert (Hf' : inexact (view ar axis) = false -> fill <> Some NaN)
    by (destruct axis; exact Hf).
  change (unique ar true true true axis None None)
    with (_unique (view ar axis) true true true None None false) in H0.
  change (unique ar ri rv rc axis (Some n) fill)
    with (_unique (view ar axis) ri rv rc (Some n) fill false).
  rewrite (unique_size_none _ true true true false Hw) in H0.
  rewrite (unique_sized_closed _ ri rv rc n fill false Hw Hr Hf').
  remember (view ar axis) as v eqn:Ev. clear Ev Hf Hf' ar axis.
  assert (La : length (sorted_rows (rows v)) = length (rows v))
    by apply sorted_rows_length.
  assert (Lp : length (lexsort (rows v)) = length (rows v))
    by apply lexsort_length.
  remember (sorted_rows (rows v)) as aux eqn:Eaux. clear Eaux.
  remember (lexsort (rows v)) as perm eqn:Eperm. clear Eperm.
  assert (Haux : aux <> []).
  { intros E. rewrite E in La. destruct (rows v); [congruence|discriminate La]. }
  assert (Lm : length (mask_of (row_neq (inexact v)) aux) = length aux)
    by apply mask_of_length.
  pose proof (counts_truncated (row_neq (inexact v)) aux n Haux) as Hc.
  cbv zeta in Hc.
  remember (mask_of (row_neq (inexact v)) aux) as mask eqn:Emask.
  injection H0 as <-. cbn [result out_index out_inverse out_counts option_map] in *.
  set (U := compress mask aux) in *.
  assert (Hres : take [] aux (nonzero_size mask n) = firstn n U).
  { rewrite take_nonzero_size by auto. fold U.
    rewrite length_firstn.
    replace (n - Nat.min n (length U))%nat with 0%nat by lia.
    cbn [repeat]. apply app_nil_r. }
  rewrite Hres.
  assert (Lf : length (firstn n U) = n) by (rewrite length_firstn; lia).
  f_equal. f_equal.
  - destruct fill as [fv|]; [|reflexivity]. rewrite Lf.
    destruct (Nat.eqb_spec n 0) as [->|Hn0]; [reflexivity|]. cbn [negb].
    unfold where_rows. rewrite length_map, arange_length.
    rewrite <- Lf at 2. rewrite broadcast_rows_id.
    rewrite (sum_bool_compress mask aux Lm). fold U.
    rewrite <- Lf at 1. rewrite where_lt, Lf.
    replace (n - length U)%nat with 0%nat by lia.
    cbn [repeat]. rewrite app_nil_r.
    apply firstn_all2. lia.
  - destruct ri; [|reflexivity]. f_equal.
    rewrite take_nonzero_size by lia.
    assert (Lc : length (compress mask perm) = length U)
      by (apply compress_length_indep; lia).
    rewrite length_firstn.
    replace (n - Nat.min n (length (compress mask perm)))%nat with 0%nat by lia.
    cbn [repeat]. apply app_nil_r.
  - destruct rc; [|reflexivity]. f_equal. apply Hc.
    unfold nonzero. rewrite (nonzero_from_length mask aux 0) by lia. exact Hn.
Qed.

(** ** Arrays whose other axes are empty *)

(** X10: along an axis of a non-empty array whose other axes have no extent,
    [unique] returns one empty slice: the index is [[0]], the inverse is
    zero at every input position, and the only count is the number of input
    slices. *)
Theorem unique_without_entries (fl : bool) (l : list row) (k : nat) :
  well_formed (mk_array fl 0 l) = true ->
  l <> [] ->
  unique (mk_array fl 0 l) true true true (Some k) None None
  = inr (mk_out [[]] (Some [0]) (Some (zeros (length l)))
           (Some [Z.of_nat (length l)]) None).
Proof.
  intros Hwf Hne. unfold unique, _unique, _unique_sorted_mask.
  cbn [rows width inexact truthy andb]. rewrite andb_false_r.
  cbn [Nat.eqb]. unfold array_size. rewrite Nat.mul_0_r.
  cbn [Nat.eqb negb].
  destruct l as [|r l']; [congruence|].
  assert (Hrow : take [] (r :: l') (zeros 1) = [[]]).
  { rewrite take_zeros. cbn [repeat]. f_equal.
    destruct (well_formed_row (mk_array fl 0 (r :: l')) r Hwf) as [Hr _];
      [left; auto|].
    cbn [width] in Hr. destruct r; [reflexivity|discriminate Hr]. }
  rewrite Hrow. reflexivity.
Qed.

(** ** Stability of the sort and first occurrences *)

Section Stable.
Context {K : Type} (leb : K -> K -> bool).
Hypothesis leb_total : forall x y, leb x y = true \/ leb y x = true.
Hypothesis leb_trans :
  forall x y z, leb x y = true -> leb y z = true -> leb x z = true.

Lemma insert_stable (x : Z * K) (s : list (Z * K)) :
  StronglySorted (stable_le leb) s ->
  Forall (fun q => fst x < fst q) s ->
  StronglySorted (stable_le leb) (insert (pair_le leb) x s).
Proof.
  induction 1 as [|y s S IH F]; intros Hx; simpl.
  - repeat constructor.
  - inversion Hx as [|? ? Hxy Hxs]; subst.
    unfold pair_le at 1. destruct (leb (snd x) (snd y)) eqn:E.
    + constructor; [constructor; auto|].
      constructor; [split; auto|].
      rewrite Forall_forall in *. intros z Hz. split; [|intros _; auto].
      destruct (F z Hz) as [Hyz _]. eapply leb_trans; eauto.
    + constructor; auto.
      eapply Permutation_Forall; [symmetry; apply insert_perm|].
      constructor; auto. split.
      * destruct (leb_total (snd x) (snd y)); [congruence|auto].
      * intros H. congruence.
Qed.

Lemma isort_stable (l : list (Z * K)) :
  StronglySorted (fun p q => fst p < fst q) l ->
  StronglySorted (stable_le leb) (isort (pair_le leb) l).
Proof.
  induction 1 as [|x l S IH F]; simpl; [constructor|].
  apply insert_stable; auto.
  eapply Permutation_Forall; [symmetry; apply isort_perm|exact F].
Qed.

Lemma combine_arange_increasing (l : list K) : forall s,
  StronglySorted (fun p q : Z * K => fst p < fst q)
    (combine (map Z.of_nat (seq s (length l))) l).
Proof.
  induction l as [|x l IH]; intros s; simpl; constructor; auto.
  apply Forall_forall. intros [i y] H.
  apply (combine_arange_In x) in H. destruct H as (k & -> & _). simpl. lia.
Qed.

Hypothesis leb_antisym : forall x y, leb x y = true -> leb y x = true -> x = y.
Context (differs : K -> K -> bool).
Hypothesis differs_spec : forall x y, differs x y = false <-> x = y.

Lemma leb_refl x : leb x x = true.
Proof. destruct (leb_total x x); auto. Qed.

(** Among the pairs selected after [p], none has the key of [p], and each
    has the least position of its key. *)
Lemma adj_selected_first (t : list (Z * K)) : forall p i r,
  StronglySorted (stable_le leb) (p :: t) ->
  In (i, r) (compress (adj differs (snd p) (map snd t)) t) ->
  r <> snd p /\ forall i', In (i', r) t -> i <= i'.
Proof.
  induction t as [|q t IH]; intros p i r S Hin; [destruct Hin|].
  assert (S' : StronglySorted (stable_le leb) (q :: t)) by now inversion S.
  assert (Hpq : stable_le leb p q).
  { inversion S as [|? ? _ F]; subst. now inversion F. }
  assert (Hq : forall i', In (i', r) t -> r = snd q -> fst q < i').
  { intros i' Hi' ->. inversion S' as [|? ? _ F]; subst.
    rewrite Forall_forall in F. destruct (F _ Hi') as [_ H].
    apply H. apply leb_refl. }
  assert (Hge : forall i', In (i', r) t -> leb (snd q) r = true).
  { intros i' Hi'. inversion S' as [|? ? _ F]; subst.
    rewrite Forall_forall in F. now destruct (F _ Hi') as [H _]. }
  cbn [map adj compress] in Hin.
  assert (Hrec : In (i, r) (compress (adj differs (snd q) (map snd t)) t) ->
                 r <> snd p /\ forall i', In (i', r) (q :: t) -> i <= i').
  { intros H. destruct (IH q i r S' H) as [Hne Hmin]. split.
    - intros ->. apply Hne. apply leb_antisym.
      + now destruct Hpq.
      + apply (Hge i). eapply compress_In; eauto.
    - intros i' [E|Hi']; [subst q; cbn [snd] in Hne; congruence|auto]. }
  destruct (differs (snd q) (snd p)) eqn:E; [|auto].
  destruct Hin as [E'|Hin]; [|auto].
  subst q. cbn [snd fst] in *. split.
  - intros ->. assert (differs (snd p) (snd p) = false) by now apply differs_spec.
    congruence.
  - intros i' [E'|Hi']; [inversion E'; lia|].
    specialize (Hq i' Hi' eq_refl). lia.
Qed.

Lemma selected_first (ps : list (Z * K)) i r :
  StronglySorted (stable_le leb) ps ->
  In (i, r) (compress (mask_of differs (map snd ps)) ps) ->
  forall i', In (i', r) ps -> i <= i'.
Proof.
  destruct ps as [|p t]; [intros _ []|].
  intros S Hin i' Hi'. cbn [map mask_of compress] in Hin.
  destruct Hin as [->|Hin].
  - destruct Hi' as [E|Hi']; [inversion E; lia|].
    inversion S as [|? ? _ F]; subst. rewrite Forall_forall in F.
    destruct (F _ Hi') as [_ H]. cbn [snd fst] in H.
    specialize (H (leb_refl r)). lia.
  - destruct (adj_selected_first t p i r S Hin) as [Hne Hmin].
    destruct Hi' as [E|Hi']; [subst p; cbn [snd] in Hne; congruence|auto].
Qed.

End Stable.

Lemma compress_fmap {A B} (f : A -> B) (m : list bool) : forall l : list A,
  compress m (map f l) = map f (compress m l).
Proof.
  induction m as [|b m IH]; intros [|x l]; simpl; auto.
  rewrite IH. now destruct b.
Qed.

Lemma combine_arange_nth {A} (d : A) (l : list A) : forall s i,
  (i < length l)%nat ->
  In (Z.of_nat (s + i), nth i l d) (combine (map Z.of_nat (seq s (length l))) l).
Proof.
  induction l as [|x l IH]; intros s i Hi; simpl in *; [lia|].
  destruct i as [|i].
  - left. f_equal. f_equal. lia.
  - right. replace (s + S i)%nat with (S s + i)%nat by lia. apply IH. lia.
Qed.

Lemma sorted_pairs_stable (l : list row) :
  StronglySorted (stable_le row_le) (sorted_pairs l).
Proof.
  unfold sorted_pairs, arange.
  change key_le with (pair_le row_le).
  apply (isort_stable row_le row_le_total row_le_trans).
  apply combine_arange_increasing.
Qed.

Lemma sorted_pairs_member (l : list row) i' :
  (i' < length l)%nat -> In (Z.of_nat i', nth i' l []) (sorted_pairs l).
Proof.
  intros H. eapply Permutation_in; [symmetry; apply sorted_pairs_perm|].
  apply (combine_arange_nth [] l 0 i' H).
Qed.

(** The indices of [_unique] are the positions of the first occurrences. *)
Lemma first_occurrence_view (v : ndarray) :
  well_formed v = true ->
  width v <> 0%nat ->
  exists o idx,
    _unique v true false false None None false = inr o
    /\ out_index o = Some idx
    /\ result o
       = compress (mask_of (row_neq (inexact v)) (sorted_rows (rows v)))
           (sorted_rows (rows v))
    /\ length idx = length (result o)
    /\ forall k, (k < length idx)%nat ->
         0 <= nth k idx 0 < Z.of_nat (length (rows v))
         /\ nth (Z.to_nat (nth k idx 0)) (rows v) [] = nth k (result o) []
         /\ forall i', (i' < length (rows v))%nat ->
              nth i' (rows v) [] = nth k (result o) [] ->
              nth k idx 0 <= Z.of_nat i'.
Proof.
  intros Hwf' Hw.
  rewrite (unique_size_none _ true false false false Hw).
  eexists. eexists. split; [reflexivity|]. split; [reflexivity|].
  split; [reflexivity|].
  cbn [result]. rewrite (mask_well_formed _ Hwf').
  unfold lexsort. fold (sorted_pairs (rows v)). unfold sorted_rows.
  assert (Hst := sorted_pairs_stable (rows v)).
  assert (Hlook := sorted_pairs_lookup (rows v)).
  assert (Hmem := sorted_pairs_member (rows v)).
  remember (sorted_pairs (rows v)) as ps eqn:Eps. clear Eps.
  rewrite !compress_fmap.
  set (sel := compress (mask_of row_differs (map snd ps)) ps) in *.
  split; [now rewrite !length_map|].
  intros k Hk. rewrite length_map in Hk.
  rewrite (nth_map_default fst sel (0, [])) by lia.
  rewrite (nth_map_default snd sel (0, [])) by lia.
  assert (Hin : In (nth k sel (0, [])) sel) by (apply nth_In; lia).
  destruct (nth k sel (0, [])) as [i r]. cbn [fst snd].
  assert (Hps : In (i, r) ps) by (eapply compress_In; eauto).
  destruct (Hlook i r Hps) as [Hi Hr].
  split; [exact Hi|]. split; [exact Hr|].
  intros i' Hi' E.
  apply (selected_first row_le row_le_total row_le_antisym row_differs
           row_differs_false_iff ps i r Hst Hin).
  rewrite <- E. now apply Hmem.
Qed.

(** X11: with [return_index] and no size, the index returned for each slice
    of the result is the position of the first occurrence of that slice in
    the input: the input slice there is the result slice, and no earlier
    input slice is. *)
Theorem unique_first_occurrence (ar : ndarray) (axis : option nat) :
  well_formed ar = true ->
  width (view ar axis) <> 0%nat ->
  exists o idx,
    unique ar true false false axis None None = inr o
    /\ out_index o = Some idx
    /\ length idx = length (result o)
    /\ forall k, (k < length idx)%nat ->
         0 <= nth k idx 0 < Z.of_nat (axis_length ar axis)
         /\ nth (Z.to_nat (nth k idx 0)) (rows (view ar axis)) []
            = nth k (result o) []
         /\ forall i', (i' < axis_length ar axis)%nat ->
              nth i' (rows (view ar axis)) [] = nth k (result o) [] ->
              nth k idx 0 <= Z.of_nat i'.
Proof.
  intros Hwf Hw.
  destruct (first_occurrence_view (view ar axis) (well_formed_view ar axis Hwf) Hw)
    as (o & idx & Ho & Hi & _ & Hl & Hk).
  exists o, idx. rewrite axis_length_view. auto.
Qed.

(** ** Counts and inverse index along an axis *)

(** X12: with [return_counts] and no size, along an axis or on the flattened
    array, there is one count per returned slice, each count is the number
    of input slices equal to it, and the counts add up to the length of the
    input along the axis. *)
Theorem unique_axis_counts (ar : ndarray) (axis : option nat) :
  well_formed ar = true ->
  width (view ar axis) <> 0%nat ->
  exists o counts,
    unique ar false false true axis None None = inr o
    /\ out_counts o = Some counts
    /\ length counts = length (result o)
    /\ sum_Z counts = Z.of_nat (axis_length ar axis)
    /\ forall k, (k < length (result o))%nat ->
         nth k counts 0
         = Z.of_nat (count_occ row_eq_dec (rows (view ar axis))
                       (nth k (result o) [])).
Proof.
  intros Hwf Hw.
  assert (Hwf' := well_formed_view ar axis Hwf).
  change (unique ar false false true axis None None)
    with (_unique (view ar axis) false false true None None false).
  rewrite (unique_size_none _ false false true false Hw).
  rewrite axis_length_view.
  remember (view ar axis) as v eqn:Ev. clear Ev ar axis Hwf.
  rewrite (mask_well_formed _ Hwf').
  assert (Hsorted := sorted_rows_sorted (rows v)).
  assert (Hperm := sorted_rows_perm (rows v)).
  remember (sorted_rows (rows v)) as aux eqn:Eaux. clear Eaux.
  eexists. eexists. split; [reflexivity|]. split; [reflexivity|].
  cbn [result]. rewrite counts_runs.
  rewrite <- (Permutation_length Hperm).
  destruct aux as [|p t].
  { repeat split; auto. simpl. intros k Hk. lia. }
  assert (Hsum := runs_sum row_differs t p).
  rewrite (runs_count row_differs row_differs_false_iff row_eq_dec row_le
             row_le_trans row_le_antisym t p Hsorted) in *.
  cbn [mask_of compress].
  set (u := p :: compress (adj row_differs p t) t) in *.
  split; [now rewrite length_map|]. split.
  - rewrite Hsum. cbn [length]. lia.
  - intros k Hk.
    rewrite (nth_map_default _ u []) by lia. f_equal.
    apply (proj1 (Permutation_count_occ row_eq_dec _ _) Hperm).
Qed.

(** The inverse index of an array seen from its working axis. *)
Lemma inverse_index_axis (v : ndarray) :
  well_formed v = true ->
  let aux := sorted_rows (rows v) in
  let mask := mask_of (row_neq (inexact v)) aux in
  let perm := lexsort (rows v) in
  let inv := scatter_set (zeros (length mask)) perm
               (map (fun c => c - 1) (cumsum mask)) in
  length inv = length (rows v)
  /\ Forall (fun i => 0 <= i < Z.of_nat (length (compress mask aux))) inv
  /\ take [] (compress mask aux) inv = rows v.
Proof.
  intros Hwf aux mask perm inv.
  set (l := rows v) in *.
  assert (Hmask : mask = mask_of row_differs aux)
    by apply (mask_well_formed v Hwf).
  assert (Lm : length mask = length l)
    by (unfold mask, aux; now rewrite mask_of_length, sorted_rows_length).
  assert (Lp : length perm = length l) by apply lexsort_length.
  assert (Lc : length (cumsum mask) = length l)
    by (unfold cumsum; now rewrite cumsum_from_length).
  assert (Hinv : forall j, (j < length perm)%nat ->
            nth (Z.to_nat (nth j perm 0)) inv 0 = nth j (cumsum mask) 0 - 1).
  { intros j Hj. unfold inv. rewrite scatter_set_nth; auto.
    - apply (nth_map_default (fun c => c - 1)). lia.
    - apply lexsort_NoDup.
    - apply Forall_forall. intros i Hi. unfold zeros. rewrite repeat_length, Lm.
      now apply lexsort_in_range.
    - rewrite length_map. lia. }
  assert (Li : length inv = length l).
  { unfold inv. rewrite scatter_set_length. unfold zeros.
    now rewrite repeat_length. }
  assert (Hpos : forall m, (m < length l)%nat ->
            exists k, nth m inv 0 = Z.of_nat k
                      /\ nth_error (compress mask aux) k = Some (nth m l [])).
  { intros m Hm.
    assert (Hin : In (Z.of_nat m) perm).
    { eapply Permutation_in; [symmetry; apply lexsort_perm|].
      unfold arange. apply in_map. apply in_seq. fold l. lia. }
    destruct (In_nth _ _ 0 Hin) as (j & Hj & Ej).
    assert (Em : m = Z.to_nat (nth j perm 0)) by (rewrite Ej; lia).
    destruct (rank_of_position row_differs [] row_differs_false_iff aux j)
      as (k & Hk & Hnth).
    { unfold aux. rewrite sorted_rows_length. fold l. lia. }
    rewrite <- Hmask in Hk, Hnth.
    exists k. split.
    - rewrite Em at 1. rewrite Hinv by auto. rewrite Hk. lia.
    - rewrite Hnth. f_equal.
      unfold aux. rewrite <- take_lexsort. unfold take. fold perm. fold l.
      rewrite (nth_map_default _ perm 0) by lia.
      rewrite Ej. rewrite norm_index_in_range by lia. now rewrite Nat2Z.id. }
  split; [exact Li|]. split.
  - apply Forall_forall. intros i Hi.
    destruct (In_nth _ _ 0 Hi) as (m & Hm & <-).
    destruct (Hpos m) as (k & Hk & Hnth); [lia|].
    rewrite Hk. assert (k < length (compress mask aux))%nat; [|lia].
    apply nth_error_Some. congruence.
  - apply (nth_ext _ _ [] []); [now rewrite take_length|].
    intros m Hm. rewrite take_length, Li in Hm.
    unfold take at 1. rewrite (nth_map_default _ inv 0) by lia.
    destruct (Hpos m Hm) as (k & Hk & Hnth). rewrite Hk.
    assert (k < length (compress mask aux))%nat
      by (apply nth_error_Some; congruence).
    rewrite norm_index_in_range by lia. rewrite Nat2Z.id.
    apply (nth_error_nth _ _ _ Hnth).
Qed.

(** X13: with [return_inverse] and no size, along an axis or on the
    flattened array, the inverse index has one entry per input slice, every
    entry is a position of the result, and the result slices taken at the
    inverse index are the input slices. *)
Theorem unique_axis_inverse (ar : ndarray) (axis : option nat) :
  well_formed ar = true ->
  width (view ar axis) <> 0%nat ->
  exists o inv,
    unique ar false true false axis None None = inr o
    /\ out_inverse o = Some inv
    /\ length inv = axis_length ar axis
    /\ Forall (fun i => 0 <= i < Z.of_nat (length (result o))) inv
    /\ take [] (result o) inv = rows (view ar axis).
Proof.
  intros Hwf Hw.
  assert (Hwf' := well_formed_view ar axis Hwf).
  change (unique ar false true false axis None None)
    with (_unique (view ar axis) false true false None None false).
  rewrite (unique_size_none _ false true false false Hw).
  rewrite axis_length_view.
  eexists. eexists. split; [reflexivity|]. split; [reflexivity|].
  cbn [result]. apply (inverse_index_axis _ Hwf').
Qed.

(** ** Intersection: the values *)

Lemma compress_dups (l : list elt) :
  compress (map2 lax_eq (tl l) (removelast l)) (removelast l) = dups l.
Proof.
  induction l as [|x t IH]; [reflexivity|].
  destruct t as [|y t]; [reflexivity|].
  change (removelast (x :: y :: t)) with (x :: removelast (y :: t)).
  cbn [tl map2 compress dups]. cbn [tl] in IH. rewrite IH.
  reflexivity.
Qed.

Lemma dups_count (l : list elt) e :
  In e (dups l) -> (2 <= count_occ elt_eq_dec l e)%nat /\ isnan e = false.
Proof.
  induction l as [|x t IH]; [intros []|].
  destruct t as [|y t]; [intros []|].
  cbn [dups]. destruct (lax_eq y x) eqn:E.
  - apply lax_eq_true_iff in E. destruct E as [-> Hn].
    intros [<-|H].
    + split; auto. rewrite !count_occ_cons_eq by auto. lia.
    + destruct (IH H) as [H2 Hn']. split; auto.
      destruct (elt_eq_dec x e) as [->|Hne].
      * rewrite (count_occ_cons_eq elt_eq_dec (e :: t) (x:=e) (y:=e)) by auto. lia.
      * rewrite (count_occ_cons_neq elt_eq_dec (x :: t) (x:=x) (y:=e)) by auto. lia.
  - intros H. destruct (IH H) as [H2 Hn']. split; auto.
    destruct (elt_eq_dec x e) as [->|Hne].
    + rewrite (count_occ_cons_eq elt_eq_dec (y :: t) (x:=e) (y:=e)) by auto. lia.
    + rewrite (count_occ_cons_neq elt_eq_dec (y :: t) (x:=x) (y:=e)) by auto. lia.
Qed.

Lemma dups_tail (x : elt) (t : list elt) e : In e (dups t) -> In e (dups (x :: t)).
Proof.
  destruct t as [|y t]; [intros []|]. intros H.
  cbn [dups] in *. destruct (lax_eq y x); [right|]; exact H.
Qed.

Lemma count_dups (l : list elt) e :
  StronglySorted (le_of elt_le) l ->
  (2 <= count_occ elt_eq_dec l e)%nat -> isnan e = false ->
  In e (dups l).
Proof.
  induction 1 as [|x t S IH F]; intros Hc Hn; [simpl in Hc; lia|].
  destruct (elt_eq_dec x e) as [->|Hne].
  - rewrite count_occ_cons_eq in Hc by auto.
    assert (Hin : In e t) by (apply (count_occ_In elt_eq_dec); lia).
    destruct t as [|y t]; [destruct Hin|].
    assert (y = e).
    { destruct Hin as [|Hin]; auto.
      inversion S as [|? ? _ Fy]; subst. inversion F as [|? ? Hey _]; subst.
      rewrite Forall_forall in Fy. apply elt_le_antisym; auto. apply Fy; auto. }
    subst y. cbn [dups].
    rewrite (proj2 (lax_eq_true_iff e e)) by auto. left; auto.
  - rewrite count_occ_cons_neq in Hc by auto.
    apply dups_tail. auto.
Qed.

Lemma dups_NoDup (l : list elt) :
  (forall e, (count_occ elt_eq_dec l e <= 2)%nat) -> NoDup (dups l).
Proof.
  induction l as [|x t IH]; intros H; [constructor|].
  assert (Ht : forall e, (count_occ elt_eq_dec t e <= 2)%nat).
  { intros e. specialize (H e). simpl in H.
    destruct (elt_eq_dec x e); lia. }
  destruct t as [|y t]; [constructor|].
  change (dups (x :: y :: t))
    with (if lax_eq y x then x :: dups (y :: t) else dups (y :: t)).
  destruct (lax_eq y x) eqn:E; auto.
  constructor; auto. intros Hin.
  apply dups_count in Hin. destruct Hin as [Hin _].
  specialize (H x). rewrite count_occ_cons_eq in H by auto. lia.
Qed.

Lemma dups_subset (l : list elt) e : In e (dups l) -> In e l.
Proof.
  intros H. apply dups_count in H. destruct H as [H _].
  apply (count_occ_In elt_eq_dec). lia.
Qed.

Lemma dups_sorted (R : elt -> elt -> Prop) (l : list elt) :
  StronglySorted R l -> StronglySorted R (dups l).
Proof.
  induction 1 as [|x t S IH F]; [constructor|].
  destruct t as [|y t]; [constructor|].
  change (dups (x :: y :: t))
    with (if lax_eq y x then x :: dups (y :: t) else dups (y :: t)).
  destruct (lax_eq y x); auto.
  constructor; auto. rewrite Forall_forall in *. intros z Hz.
  apply F. now apply dups_subset.
Qed.

Lemma sorted_NoDup_strict {A} (leb : A -> A -> bool) (l : list A) :
  StronglySorted (le_of leb) l -> NoDup l -> StronglySorted (lt_of leb) l.
Proof.
  induction 1 as [|x t S IH F]; intros N; [constructor|].
  inversion N; subst. constructor; auto.
  rewrite Forall_forall in *. intros y Hy. split; [now apply F|].
  intros E. subst. auto.
Qed.

Lemma strict_count {A} (dec : forall x y : A, {x = y} + {x <> y})
    (leb : A -> A -> bool) (l : list A) e :
  StronglySorted (lt_of leb) l ->
  count_occ dec l e = if in_dec dec e l then 1%nat else 0%nat.
Proof.
  intros S. apply (strict_NoDup leb) in S.
  destruct (in_dec dec e l) as [H|H].
  - apply NoDup_count_occ'; auto.
  - now apply count_occ_not_In.
Qed.

(** X14: for two arrays of the same dtype, [intersect1d] returns, in
    strictly increasing order, the values that occur in both arrays; a NaN
    is never among them. *)
Theorem intersect1d_members (cast : elt -> elt) (fl : bool) (a b : list elt) :
  well_formed (array1 fl a) = true ->
  well_formed (array1 fl b) = true ->
  exists r,
    intersect1d cast fl a fl b false false = inr (r, None)
    /\ StronglySorted (lt_of elt_le) r
    /\ forall e, In e r <-> In e a /\ In e b /\ isnan e = false.
Proof.
  intros W1 W2.
  destruct (unique_values_spec fl a W1) as (u1 & E1 & S1 & I1).
  destruct (unique_values_spec fl b W2) as (u2 & E2 & S2 & I2).
  unfold intersect1d. cbn [negb]. rewrite E1, E2.
  unfold _intersect1d_sorted_mask. rewrite concatenate_same, compress_dups.
  eexists. split; [reflexivity|].
  assert (Hs : StronglySorted (le_of elt_le) (sort (u1 ++ u2)))
    by apply (isort_sorted elt_le elt_le_total elt_le_trans).
  assert (Hc : forall e, count_occ elt_eq_dec (sort (u1 ++ u2)) e
                 = ((if in_dec elt_eq_dec e u1 then 1 else 0)
                    + (if in_dec elt_eq_dec e u2 then 1 else 0))%nat).
  { intros e.
    rewrite (proj1 (Permutation_count_occ elt_eq_dec _ _)
               (isort_perm elt_le (u1 ++ u2))).
    rewrite count_occ_app.
    now rewrite (strict_count elt_eq_dec elt_le u1 e S1),
                (strict_count elt_eq_dec elt_le u2 e S2). }
  split.
  - apply sorted_NoDup_strict; [now apply dups_sorted|].
    apply dups_NoDup. intros e. rewrite Hc.
    destruct (in_dec _ e u1), (in_dec _ e u2); lia.
  - intros e. rewrite <- I1, <- I2. split.
    + intros H. apply dups_count in H. destruct H as [H Hn].
      rewrite Hc in H.
      destruct (in_dec _ e u1), (in_dec _ e u2); try lia. auto.
    + intros (H1 & H2 & Hn). apply count_dups; auto. rewrite Hc.
      destruct (in_dec _ e u1), (in_dec _ e u2); try lia; contradiction.
Qed.

(** ** [setxor1d] *)

Example setxor1d_example :
  setxor1d round_even false (ints [1; 2; 3; 2]) false (ints [3; 4; 4]) false
  = inr (ints [1; 2; 4]).
Proof. reflexivity. Qed.

Lemma removelast_app_one {A} (l : list A) (x : A) : removelast (l ++ [x]) = l.
Proof. rewrite removelast_app by discriminate. simpl. apply app_nil_r. Qed.

Lemma compress_singles (l : list elt) : forall f,
  compress
    (map2 andb (map2 lax_ne (tl l) (removelast l) ++ [true])
       (f :: map2 lax_ne (tl l) (removelast l)))
    l
  = singles f l.
Proof.
  induction l as [|x t IH]; intros f; [reflexivity|].
  destruct t as [|y t].
  - cbn. now destruct f.
  - change (removelast (x :: y :: t)) with (x :: removelast (y :: t)).
    cbn [tl map2 app compress singles]. cbn [tl] in IH.
    rewrite (IH (lax_ne y x)). rewrite andb_comm.
    destruct (f && lax_ne y x); reflexivity.
Qed.

Lemma setxor1d_singles cast fl1 a fl2 b u1 u2 :
  unique_values fl1 a None None = inr u1 ->
  unique_values fl2 b None None = inr u2 ->
  setxor1d cast fl1 a fl2 b false
  = inr (singles true (sort (concatenate cast fl1 u1 fl2 u2))).
Proof.
  intros E1 E2. unfold setxor1d. cbn [negb]. rewrite E1, E2.
  destruct (Nat.eqb_spec (length (concatenate cast fl1 u1 fl2 u2)) 0) as [E|E].
  - apply length_zero_iff_nil in E. rewrite E. reflexivity.
  - f_equal. set (aux := sort (concatenate cast fl1 u1 fl2 u2)).
    cbn [app tl].
    change (removelast (true :: map2 lax_ne (tl aux) (removelast aux) ++ [true]))
      with (removelast ((true :: map2 lax_ne (tl aux) (removelast aux)) ++ [true])).
    rewrite removelast_app_one. apply compress_singles.
Qed.

(** An entry other than NaN is kept exactly when it occurs once. *)
Lemma singles_count (l : list elt) e : forall f,
  StronglySorted (le_of elt_le) l ->
  isnan e = false ->
  In e (singles f l)
  <-> count_occ elt_eq_dec l e = 1%nat /\ (f = false -> hd_error l <> Some e).
Proof.
  induction l as [|x t IH]; intros f S Hn.
  - simpl. split; [tauto|intros [H _]; discriminate H].
  - assert (S' : StronglySorted (le_of elt_le) t) by now inversion S.
    destruct t as [|y t].
    + simpl. destruct (elt_eq_dec x e) as [->|Hne]; destruct f; simpl;
        intuition congruence.
    + change (singles f (x :: y :: t))
        with ((if f && lax_ne y x then [x] else [])
              ++ singles (lax_ne y x) (y :: t)).
      rewrite in_app_iff, (IH (lax_ne y x) S' Hn). cbn [hd_error].
      assert (Hd : lax_ne y x = false -> y = x).
      { rewrite lax_ne_eq, negb_false_iff. intros D.
        now apply lax_eq_true_iff in D. }
      destruct (elt_eq_dec x e) as [->|Hne].
      * rewrite (count_occ_cons_eq elt_eq_dec (y :: t) (x:=e) (y:=e)) by auto.
        destruct (lax_ne y e) eqn:D.
        -- assert (Habs : ~ In e (y :: t)).
           { apply (sorted_head_absent elt_le elt_le_antisym e y t S).
             intros ->. rewrite lax_ne_eq in D.
             rewrite (proj2 (lax_eq_true_iff e e)) in D by auto. discriminate. }
           rewrite (proj1 (count_occ_not_In elt_eq_dec _ _) Habs).
           rewrite andb_true_r. destruct f; simpl; intuition congruence.
        -- rewrite (Hd eq_refl).
           rewrite (count_occ_cons_eq elt_eq_dec t (x:=e) (y:=e)) by auto.
           rewrite andb_false_r. simpl. intuition (congruence || lia).
      * rewrite (count_occ_cons_neq elt_eq_dec (y :: t) (x:=x) (y:=e)) by auto.
        assert (Hx : ~ In e (if f && lax_ne y x then [x] else [])).
        { destruct (f && lax_ne y x); simpl; intuition congruence. }
        assert (Hy : lax_ne y x = false -> Some y <> Some e).
        { intros D E. rewrite (Hd D) in E. congruence. }
        intuition congruence.
Qed.

(** A NaN is always kept. *)
Lemma singles_nan (l : list elt) : forall f,
  (f = false -> hd_error l <> Some NaN) ->
  In NaN (singles f l) <-> In NaN l.
Proof.
  induction l as [|x t IH]; intros f Hf; [reflexivity|].
  destruct t as [|y t].
  - cbn [singles]. destruct f; [reflexivity|].
    simpl. split; [tauto|]. intros [->|[]]. exfalso. now apply Hf.
  - change (singles f (x :: y :: t))
      with ((if f && lax_ne y x then [x] else [])
            ++ singles (lax_ne y x) (y :: t)).
    rewrite in_app_iff, IH.
    + split.
      * intros [H|H]; [|right; auto].
        destruct (f && lax_ne y x); [destruct H as [|[]]; left; auto|destruct H].
      * intros [->|H]; [|right; auto].
        left. destruct f.
        -- simpl. destruct y; left; reflexivity.
        -- exfalso. now apply Hf.
    + intros D E. inversion E; subst. destruct x; discriminate D.
Qed.

Lemma singles_subset (l : list elt) e : forall f,
  In e (singles f l) -> In e l.
Proof.
  induction l as [|x t IH]; intros f H; [destruct H|].
  destruct t as [|y t].
  - cbn [singles] in H. destruct f; [exact H|destruct H].
  - change (singles f (x :: y :: t))
      with ((if f && lax_ne y x then [x] else [])
            ++ singles (lax_ne y x) (y :: t)) in H.
    apply in_app_iff in H. destruct H as [H|H].
    + destruct (f && lax_ne y x); [destruct H as [|[]]; left; auto|destruct H].
    + right. eapply IH; eauto.
Qed.

Lemma singles_sorted (R : elt -> elt -> Prop) (l : list elt) : forall f,
  StronglySorted R l -> StronglySorted R (singles f l).
Proof.
  induction l as [|x t IH]; intros f S; [constructor|].
  inversion S as [|? ? S' F]; subst.
  destruct t as [|y t].
  - cbn [singles]. destruct f; repeat constructor.
  - change (singles f (x :: y :: t))
      with ((if f && lax_ne y x then [x] else [])
            ++ singles (lax_ne y x) (y :: t)).
    destruct (f && lax_ne y x); cbn [app]; auto.
    constructor; auto. rewrite Forall_forall in *. intros z Hz.
    apply F. eapply singles_subset; eauto.
Qed.

(** X15: for two arrays of the same dtype, [setxor1d] does not depend on
    the order of its arguments; a value other than NaN is in the result
    exactly when it occurs in one of the arrays and not in the other, and a
    NaN is in the result as soon as it occurs in one of the arrays. *)
Theorem setxor1d_members (cast : elt -> elt) (fl : bool) (a b : list elt) :
  well_formed (array1 fl a) = true ->
  well_formed (array1 fl b) = true ->
  exists r,
    setxor1d cast fl a fl b false = inr r
    /\ setxor1d cast fl b fl a false = inr r
    /\ StronglySorted (le_of elt_le) r
    /\ (forall e, isnan e = false ->
          In e r <-> (In e a /\ ~ In e b) \/ (In e b /\ ~ In e a))
    /\ (In NaN r <-> In NaN a \/ In NaN b).
Proof.
  intros W1 W2.
  destruct (unique_values_spec fl a W1) as (u1 & E1 & S1 & I1).
  destruct (unique_values_spec fl b W2) as (u2 & E2 & S2 & I2).
  rewrite (setxor1d_singles cast fl a fl b u1 u2 E1 E2).
  rewrite (setxor1d_singles cast fl b fl a u2 u1 E2 E1).
  rewrite !concatenate_same.
  rewrite (sort_app_comm u2 u1).
  eexists. split; [reflexivity|]. split; [reflexivity|].
  assert (Hs : StronglySorted (le_of elt_le) (sort (u1 ++ u2)))
    by apply (isort_sorted elt_le elt_le_total elt_le_trans).
  assert (Hc : forall e, count_occ elt_eq_dec (sort (u1 ++ u2)) e
                 = ((if in_dec elt_eq_dec e u1 then 1 else 0)
                    + (if in_dec elt_eq_dec e u2 then 1 else 0))%nat).
  { intros e.
    rewrite (proj1 (Permutation_count_occ elt_eq_dec _ _)
               (isort_perm elt_le (u1 ++ u2))).
    rewrite count_occ_app.
    now rewrite (strict_count elt_eq_dec elt_le u1 e S1),
                (strict_count elt_eq_dec elt_le u2 e S2). }
  split; [|split].
  - now apply singles_sorted.
  - intros e Hn. rewrite (singles_count _ e true Hs Hn), Hc.
    rewrite <- I1, <- I2.
    destruct (in_dec _ e u1), (in_dec _ e u2); split; try tauto;
      try (intros [H _]; lia); try (intros _; split; [lia|discriminate]).
  - rewrite singles_nan by discriminate.
    rewrite <- I1, <- I2, <- in_app_iff.
    split; apply Permutation_in;
      [apply isort_perm|symmetry; apply isort_perm].
Qed.

(** ** Intersection: the indices *)

Lemma unique_with_index_spec fl (a : list elt) :
  well_formed (array1 fl a) = true ->
  exists u ind,
    unique_with_index fl a = inr (u, ind)
    /\ unique_values fl a None None = inr u
    /\ length ind = length u
    /\ forall k, (k < length u)%nat ->
         0 <= nth k ind 0 < Z.of_nat (length a)
         /\ nth (Z.to_nat (nth k ind 0)) a NaN = nth k u NaN
         /\ forall i', (i' < length a)%nat ->
              nth i' a NaN = nth k u NaN -> nth k ind 0 <= Z.of_nat i'.
Proof.
  intros Hwf.
  assert (Hw : width (array1 fl a) <> 0%nat) by (simpl; lia).
  destruct (first_occurrence_view (array1 fl a) Hwf Hw)
    as (o & idx & Ho & Hi & Hres & Hl & Hk).
  unfold unique_with_index, unique. rewrite flatten_array1, Ho, Hi.
  exists (values o), idx. split; [reflexivity|].
  assert (Hu : unique_values fl a None None = inr (values o)).
  { rewrite unique_values_none. unfold values. now rewrite Hres. }
  split; [exact Hu|].
  assert (Hsing : Forall (fun r => length r = 1%nat) (result o)).
  { rewrite Hres. apply Forall_forall. intros r Hr. apply compress_In in Hr.
    apply (proj1 (sorted_rows_In _ _)) in Hr.
    apply (well_formed_row _ _ Hwf Hr). }
  assert (Hrows := singletons_concat _ Hsing). fold (values o) in Hrows.
  assert (Lv : length (values o) = length (result o)).
  { rewrite <- Hrows. now rewrite length_map. }
  cbn [rows array1] in Hk. rewrite length_map in Hk.
  split; [lia|].
  intros k Hk'. destruct (Hk k) as (H1 & H2 & H3); [lia|].
  rewrite <- Hrows in H2, H3.
  assert (Hn : forall j (l : list elt),
             nth j (map (fun e : elt => [e]) l) [] = [nth j l NaN]
             \/ (length l <= j)%nat).
  { intros j l. destruct (Nat.lt_ge_cases j (length l)); [left|right; auto].
    now apply (nth_map_default (fun e : elt => [e])). }
  assert (Hnk : nth k (map (fun e : elt => [e]) (values o)) []
                = [nth k (values o) NaN]).
  { now apply (nth_map_default (fun e : elt => [e])). }
  rewrite Hnk in H2, H3.
  split; [exact H1|]. split.
  - rewrite (nth_map_default (fun e : elt => [e]) a NaN) in H2 by lia.
    now inversion H2.
  - intros i' Hi' E. apply H3; auto.
    rewrite (nth_map_default (fun e : elt => [e]) a NaN) by lia.
    now rewrite E.
Qed.

Lemma map_snd_insert {K} (leb : K -> K -> bool) (x : Z * K) (s : list (Z * K)) :
  map snd (insert (pair_le leb) x s) = insert leb (snd x) (map snd s).
Proof.
  induction s as [|y s IH]; simpl; auto.
  unfold pair_le at 1. destruct (leb (snd x) (snd y)); simpl; auto.
  now rewrite IH.
Qed.

Lemma map_snd_isort {K} (leb : K -> K -> bool) (l : list (Z * K)) :
  map snd (isort (pair_le leb) l) = isort leb (map snd l).
Proof.
  induction l as [|x l IH]; simpl; auto.
  now rewrite map_snd_insert, IH.
Qed.

Lemma sort_key_val_values (l : list elt) : fst (sort_key_val l) = sort l.
Proof.
  unfold sort_key_val, sort. cbn [fst].
  change (fun p q : Z * elt => elt_le (snd p) (snd q)) with (pair_le elt_le).
  rewrite map_snd_isort. unfold arange. now rewrite map_snd_combine_arange.
Qed.

Section DupPairs.
Context {B : Type} (f : Z * elt -> B).

Lemma compress_dup_left (s : list (Z * elt)) :
  compress (map2 lax_eq (tl (map snd s)) (removelast (map snd s)))
    (removelast (map f s))
  = map (fun pq => f (fst pq)) (dup_pairs s).
Proof.
  induction s as [|p t IH]; [reflexivity|].
  destruct t as [|q t]; [reflexivity|].
  change (compress (map2 lax_eq (tl (map snd (p :: q :: t)))
                      (removelast (map snd (p :: q :: t))))
            (removelast (map f (p :: q :: t))))
    with (if lax_eq (snd q) (snd p)
          then f p :: compress (map2 lax_eq (tl (map snd (q :: t)))
                                  (removelast (map snd (q :: t))))
                        (removelast (map f (q :: t)))
          else compress (map2 lax_eq (tl (map snd (q :: t)))
                           (removelast (map snd (q :: t))))
                 (removelast (map f (q :: t)))).
  rewrite IH.
  change (dup_pairs (p :: q :: t))
    with (if lax_eq (snd q) (snd p) then (p, q) :: dup_pairs (q :: t)
          else dup_pairs (q :: t)).
  destruct (lax_eq (snd q) (snd p)); reflexivity.
Qed.

Lemma compress_dup_right (s : list (Z * elt)) :
  compress (map2 lax_eq (tl (map snd s)) (removelast (map snd s)))
    (tl (map f s))
  = map (fun pq => f (snd pq)) (dup_pairs s).
Proof.
  induction s as [|p t IH]; [reflexivity|].
  destruct t as [|q t]; [reflexivity|].
  change (compress (map2 lax_eq (tl (map snd (p :: q :: t)))
                      (removelast (map snd (p :: q :: t))))
            (tl (map f (p :: q :: t))))
    with (if lax_eq (snd q) (snd p)
          then f q :: compress (map2 lax_eq (tl (map snd (q :: t)))
                                  (removelast (map snd (q :: t))))
                        (tl (map f (q :: t)))
          else compress (map2 lax_eq (tl (map snd (q :: t)))
                           (removelast (map snd (q :: t))))
                 (tl (map f (q :: t)))).
  rewrite IH.
  change (dup_pairs (p :: q :: t))
    with (if lax_eq (snd q) (snd p) then (p, q) :: dup_pairs (q :: t)
          else dup_pairs (q :: t)).
  destruct (lax_eq (snd q) (snd p)); reflexivity.
Qed.

End DupPairs.

Lemma dup_pairs_spec (s : list (Z * elt)) p q :
  StronglySorted (stable_le elt_le) s ->
  In (p, q) (dup_pairs s) ->
  In p s /\ In q s /\ snd q = snd p /\ isnan (snd p) = false /\ fst p < fst q.
Proof.
  induction s as [|x t IH]; intros S H; [destruct H|].
  assert (S' : StronglySorted (stable_le elt_le) t) by now inversion S.
  destruct t as [|y t]; [destruct H|].
  change (dup_pairs (x :: y :: t))
    with (if lax_eq (snd y) (snd x) then (x, y) :: dup_pairs (y :: t)
          else dup_pairs (y :: t)) in H.
  assert (Hrec : In (p, q) (dup_pairs (y :: t)) ->
                 In p (x :: y :: t) /\ In q (x :: y :: t) /\ snd q = snd p
                 /\ isnan (snd p) = false /\ fst p < fst q).
  { intros H'. destruct (IH S' H') as (H1 & H2 & H3). repeat split; try tauto;
      right; tauto. }
  destruct (lax_eq (snd y) (snd x)) eqn:E; [|auto].
  destruct H as [H|H]; [|auto]. inversion H; subst.
  apply lax_eq_true_iff in E. destruct E as [E Hn].
  repeat split; simpl; auto.
  inversion S as [|? ? _ F]; subst. inversion F as [|? ? [_ Hlt] _]; subst.
  apply Hlt. rewrite E. unfold elt_le. now rewrite lax_lt_irrefl.
Qed.

Lemma sort_key_val_pairs (l : list elt) :
  let s := isort (pair_le elt_le) (combine (arange (length l)) l) in
  sort_key_val l = (map snd s, map fst s)
  /\ StronglySorted (stable_le elt_le) s
  /\ forall i e, In (i, e) s ->
       0 <= i < Z.of_nat (length l) /\ nth (Z.to_nat i) l NaN = e.
Proof.
  intros s. split; [reflexivity|]. split.
  - apply (isort_stable elt_le elt_le_total elt_le_trans).
    apply combine_arange_increasing.
  - intros i e H.
    apply (Permutation_in _ (isort_perm (pair_le elt_le) _)) in H.
    apply (combine_arange_In NaN) in H. destruct H as (k & -> & Hk & Hn).
    simpl. rewrite Nat2Z.id. split; auto. lia.
Qed.

(** An adjacent equal pair of the sorted concatenation of two duplicate-free
    arrays has its left entry in the first array and its right entry in the
    second. *)
Lemma dup_pair_sides (u1 u2 : list elt) i j e :
  NoDup u1 -> NoDup u2 ->
  0 <= i < j -> j < Z.of_nat (length (u1 ++ u2)) ->
  nth (Z.to_nat i) (u1 ++ u2) NaN = e ->
  nth (Z.to_nat j) (u1 ++ u2) NaN = e ->
  i < Z.of_nat (length u1) <= j
  /\ nth (Z.to_nat i) u1 NaN = e
  /\ nth (Z.to_nat (j - Z.of_nat (length u1))) u2 NaN = e.
Proof.
  intros N1 N2 Hij Hj Ei Ej. rewrite length_app in Hj.
  destruct (Z.lt_ge_cases j (Z.of_nat (length u1))) as [Hj1|Hj1].
  - exfalso. rewrite app_nth1 in Ei, Ej by lia.
    assert (Z.to_nat i = Z.to_nat j); [|lia].
    apply (proj1 (NoDup_nth u1 NaN) N1); try lia. congruence.
  - destruct (Z.lt_ge_cases i (Z.of_nat (length u1))) as [Hi1|Hi1].
    + rewrite app_nth1 in Ei by lia. rewrite app_nth2 in Ej by lia.
      repeat split; auto; try lia.
      rewrite <- Ej. f_equal. lia.
    + exfalso. rewrite app_nth2 in Ei, Ej by lia.
      assert (Z.to_nat i - length u1 = Z.to_nat j - length u1)%nat; [|lia].
      apply (proj1 (NoDup_nth u2 NaN) N2); try lia. congruence.
Qed.

(** X16: for two arrays of the same dtype, with [return_indices],
    [intersect1d] returns the same values as without, and for each of them
    a position in each input array: the element of the array at that
    position is the value, and it is the first such position. *)
Theorem intersect1d_indices (cast : elt -> elt) (fl : bool) (a b : list elt) :
  well_formed (array1 fl a) = true ->
  well_formed (array1 fl b) = true ->
  exists r i1 i2,
    intersect1d cast fl a fl b false true = inr (r, Some (i1, i2))
    /\ intersect1d cast fl a fl b false false = inr (r, None)
    /\ length i1 = length r /\ length i2 = length r
    /\ forall k, (k < length r)%nat ->
         (0 <= nth k i1 0 < Z.of_nat (length a)
          /\ nth (Z.to_nat (nth k i1 0)) a NaN = nth k r NaN
          /\ forall i', (i' < length a)%nat -> nth i' a NaN = nth k r NaN ->
               nth k i1 0 <= Z.of_nat i')
         /\ (0 <= nth k i2 0 < Z.of_nat (length b)
             /\ nth (Z.to_nat (nth k i2 0)) b NaN = nth k r NaN
             /\ forall i', (i' < length b)%nat -> nth i' b NaN = nth k r NaN ->
                  nth k i2 0 <= Z.of_nat i').
Proof.
  intros W1 W2.
  destruct (unique_with_index_spec fl a W1) as (u1 & ind1 & X1 & E1 & L1 & K1).
  destruct (unique_with_index_spec fl b W2) as (u2 & ind2 & X2 & E2 & L2 & K2).
  destruct (unique_values_props fl a u1 W1 E1) as (N1 & _ & _).
  destruct (unique_values_props fl b u2 W2 E2) as (N2 & _ & _).
  unfold intersect1d. cbn [negb]. rewrite X1, X2, E1, E2.
  unfold _intersect1d_sorted_mask. rewrite concatenate_same.
  rewrite <- sort_key_val_values.
  destruct (sort_key_val_pairs (u1 ++ u2)) as (Hskv & Hst & Hlook).
  cbv zeta in Hskv, Hst, Hlook.
  remember (isort (pair_le elt_le) (combine (arange (length (u1 ++ u2)))
                                       (u1 ++ u2))) as s eqn:Es.
  clear Es. rewrite Hskv. cbn [fst snd].
  rewrite (compress_dup_left snd s).
  rewrite (compress_dup_left fst s), (compress_dup_right fst s).
  rewrite map_map.
  eexists. eexists. eexists. split; [reflexivity|]. split; [reflexivity|].
  rewrite !take_length, !length_map.
  split; [reflexivity|]. split; [reflexivity|].
  intros k Hk.
  set (d := ((0, NaN), (0, NaN)) : (Z * elt) * (Z * elt)).
  rewrite (nth_map_default (fun pq => snd (fst pq)) _ d) by lia.
  unfold take.
  rewrite (nth_map_default _ (map (fun pq => fst (fst pq)) (dup_pairs s)) 0)
    by (rewrite length_map; lia).
  rewrite (nth_map_default _ (map (fun pq : Z * elt * (Z * elt) =>
                                      fst (snd pq) - Z.of_nat (length u1))
                                (dup_pairs s)) 0)
    by (rewrite length_map; lia).
  rewrite (nth_map_default (fun pq => fst (fst pq)) _ d) by lia.
  rewrite (nth_map_default (fun pq : Z * elt * (Z * elt) =>
                              fst (snd pq) - Z.of_nat (length u1)) _ d) by lia.
  assert (Hin : In (nth k (dup_pairs s) d) (dup_pairs s)) by (apply nth_In; lia).
  destruct (nth k (dup_pairs s) d) as [[i e] [j e']]. cbn [fst snd].
  destruct (dup_pairs_spec s (i, e) (j, e') Hst Hin) as (Hp & Hq & He & Hn & Hlt).
  cbn [fst snd] in *. subst e'.
  destruct (Hlook i e Hp) as [Hi Hie]. destruct (Hlook j e Hq) as [Hj Hje].
  destruct (dup_pair_sides u1 u2 i j e N1 N2) as (Hside & Hu1 & Hu2);
    auto; try lia.
  rewrite length_app in Hj.
  rewrite !norm_index_in_range by lia.
  destruct (K1 (Z.to_nat i)) as (A1 & A2 & A3); [lia|].
  destruct (K2 (Z.to_nat (j - Z.of_nat (length u1)))) as (B1 & B2 & B3); [lia|].
  rewrite Hu1 in A2, A3. rewrite Hu2 in B2, B3.
  repeat split; auto; try lia.
Qed.

(** ** [unique] with a size that pads *)

(** X17: on a flattened, non-empty array, a size that is at least the number
    of distinct values pads: the values without a size are followed by the
    fill value, if it is one that the dtype of the array holds, or by the
    smallest value when there is none; the indices are followed by the
    index of the smallest value, the counts by zeros, and the inverse index
    is the one of the result without a size. *)
Theorem unique_pads (x : ndarray) (ri rv rc : bool) (n : nat)
    (fill : option elt) (o0 : unique_out) :
  well_formed x = true ->
  ravel x <> [] ->
  unique x true true true None None None = inr o0 ->
  (length (result o0) <= n)%nat ->
  (inexact x = false -> fill <> Some NaN) ->
  let pad := (n - length (result o0))%nat in
  unique x ri rv rc None (Some n) fill
  = inr (mk_out
           (result o0
            ++ repeat [match fill with
                       | Some fv => fv
                       | None => hd NaN (values o0)
                       end] pad)
           (if ri
            then option_map (fun i => i ++ repeat (hd 0 i) pad) (out_index o0)
            else None)
           (if rv then out_inverse o0 else None)
           (if rc
            then option_map (fun c => c ++ repeat 0 pad) (out_counts o0)
            else None)
           None).
Proof.
  intros Hwf Hne H0 Hn Hf pad.
  unfold unique in H0.
  rewrite (unique_size_none _ true true true false) in H0
    by (simpl; lia).
  pose proof (unique_sized_no_truncation x ri rv rc n fill Hwf Hne) as Hs.
  cbv zeta in Hs.
  assert (Lp : length (lexsort (rows (flatten x)))
               = length (sorted_rows (rows (flatten x)))).
  { now rewrite lexsort_length, sorted_rows_length. }
  assert (Hi : inexact (flatten x) = inexact x) by reflexivity.
  rewrite Hi in H0.
  remember (sorted_rows (rows (flatten x))) as aux eqn:Eaux. clear Eaux.
  remember (lexsort (rows (flatten x))) as perm eqn:Eperm. clear Eperm.
  injection H0 as <-. unfold pad, values.
  cbn [result out_index out_inverse out_counts option_map] in *.
  rewrite (Hs Hn Hf).
  f_equal. f_equal.
  destruct ri; [|reflexivity]. f_equal. f_equal. f_equal.
  destruct aux as [|r aux]; destruct perm as [|p perm];
    try discriminate Lp; reflexivity.
Qed.

(** ** [assume_unique] on duplicate-free arrays *)

Lemma unique_values_perm fl (a : list elt) :
  well_formed (array1 fl a) = true ->
  NoDup a ->
  exists u, unique_values fl a None None = inr u /\ Permutation u a.
Proof.
  intros Hwf Hnd.
  destruct (unique_values_spec fl a Hwf) as (u & Hu & Hs & Hm).
  exists u. split; auto.
  apply NoDup_Permutation; auto.
  destruct (unique_values_props fl a u Hwf Hu) as (N & _). exact N.
Qed.

(** X18: on arrays without repeated values, [assume_unique] changes nothing
    for [intersect1d] and [setxor1d]: the result is the one computed with
    deduplication. *)
Theorem assume_unique_duplicate_free (cast : elt -> elt) (fl1 : bool)
    (a : list elt) (fl2 : bool) (b : list elt) :
  well_formed (array1 fl1 a) = true ->
  well_formed (array1 fl2 b) = true ->
  NoDup a -> NoDup b ->
  intersect1d cast fl1 a fl2 b true false
  = intersect1d cast fl1 a fl2 b false false
  /\ setxor1d cast fl1 a fl2 b true = setxor1d cast fl1 a fl2 b false.
Proof.
  intros W1 W2 N1 N2.
  destruct (unique_values_perm fl1 a W1 N1) as (u1 & E1 & P1).
  destruct (unique_values_perm fl2 b W2 N2) as (u2 & E2 & P2).
  assert (P : Permutation (concatenate cast fl1 u1 fl2 u2)
                (concatenate cast fl1 a fl2 b))
    by now apply concatenate_perm.
  assert (S : sort (concatenate cast fl1 u1 fl2 u2)
              = sort (concatenate cast fl1 a fl2 b)).
  { unfold sort.
    apply (isort_perm_eq elt_le elt_le_total elt_le_trans elt_le_antisym).
    exact P. }
  split.
  - unfold intersect1d. cbn [negb]. rewrite E1, E2.
    unfold _intersect1d_sorted_mask. now rewrite S.
  - unfold setxor1d. cbn [negb]. rewrite E1, E2.
    rewrite (Permutation_length P), S.
    destruct (Nat.eqb_spec (length (concatenate cast fl1 a fl2 b)) 0)
      as [E|_]; [|reflexivity].
    apply length_zero_iff_nil in E. rewrite E in P.
    apply Permutation_sym, Permutation_nil in P. now rewrite E, P.
Qed.

(** ** The theorems at concrete arrays *)

Lemma unique_distinct_and_complete_witness :
  well_formed sample = true
  /\ exists o,
       unique sample false false false None None None = inr o
       /\ (forall i j, (i < j < length (values o))%nat ->
             nan_equal (nth i (values o) NaN) (nth j (values o) NaN) = false)
       /\ (forall e, In e (ravel sample) ->
             exists v, In v (values o) /\ nan_equal e v = true)
       /\ (let '(aux, mask, _) := _unique_sorted_mask (flatten sample) in
           length mask = length aux
           /\ result o = compress mask aux
           /\ forall i, (i < length mask)%nat ->
                nth i mask false
                = (i =? 0)%nat
                  || row_neq true (nth i aux []) (nth (i - 1) aux [])).
Proof.
  split; [reflexivity|].
  apply (unique_distinct_and_complete sample). reflexivity.
Defined.

Lemma unique_counts_witness :
  well_formed sample = true
  /\ exists o counts,
       unique sample false false true None None None = inr o
       /\ out_counts o = Some counts
       /\ sum_Z counts = Z.of_nat (axis_length sample None)
       /\ length counts = length (values o)
       /\ (forall k, (k < length (values o))%nat ->
             nth k counts 0
             = Z.of_nat (count_occ elt_eq_dec (ravel sample)
                           (nth k (values o) NaN)))
       /\ (forall n fill, ravel sample <> [] -> (length (values o) <= n)%nat ->
             (inexact sample = false -> fill <> Some NaN) ->
             exists o',
               unique sample false false true None (Some n) fill = inr o'
               /\ values o'
                  = values o
                    ++ repeat (match fill with
                               | Some fv => fv
                               | None => hd NaN (values o)
                               end) (n - length (values o))
               /\ out_counts o'
                  = Some (counts ++ repeat 0 (n - length (values o)))
               /\ sum_Z (counts ++ repeat 0 (n - length (values o)))
                  = Z.of_nat (axis_length sample None)).
Proof.
  split; [reflexivity|].
  apply (unique_counts sample). reflexivity.
Defined.

Lemma unique_inverse_roundtrip_witness :
  well_formed sample = true
  /\ exists o inv,
       unique sample false true false None None None = inr o
       /\ out_inverse o = Some inv
       /\ take NaN (values o) inv = ravel sample
       /\ (let '(_, mask, perm) := _unique_sorted_mask (flatten sample) in
           Permutation perm (arange (length (ravel sample)))
           /\ forall j, (j < length perm)%nat ->
                nth (Z.to_nat (nth j perm 0)) inv 0
                = sum_bool (firstn (S j) mask) - 1)
       /\ (forall n fill, ravel sample <> [] -> (length (values o) <= n)%nat ->
             (inexact sample = false -> fill <> Some NaN) ->
             exists o',
               unique sample false true false None (Some n) fill = inr o'
               /\ out_inverse o' = Some inv
               /\ take NaN (values o') inv = ravel sample).
Proof.
  split; [reflexivity|].
  apply (unique_inverse_roundtrip sample). reflexivity.
Defined.

Lemma unique_idempotent_witness :
  well_formed sample = true
  /\ exists o,
       unique sample false false false None None None = inr o
       /\ unique (array1 (inexact sample) (values o))
            false false false None None None
          = inr o.
Proof.
  split; [reflexivity|].
  apply (unique_idempotent sample). reflexivity.
Defined.

Lemma unique_empty_input_witness :
  axis_length (array1 false []) None = 0%nat
  /\ (0 < 2)%nat
  /\ (inexact (array1 false []) = false -> Some (Val 0) <> Some NaN)
  /\ (unique (array1 false []) false false false None (Some 2%nat) (Some (Val 0))
      = inl ValueError <-> Some (Val 0) = None)
  /\ (forall fv, Some (Val 0) = Some fv ->
        exists o,
          unique (array1 false []) false false false None (Some 2%nat)
            (Some (Val 0)) = inr o
          /\ length (result o) = 2%nat
          /\ Forall (Forall (fun e => e = fv)) (result o)
          /\ result o = repeat (repeat fv 1%nat) 2).
Proof.
  split; [reflexivity|]. split; [lia|]. split; [intros _; discriminate|].
  apply (unique_empty_input (array1 false []) false false false None 2
           (Some (Val 0))); [reflexivity|lia|intros _; discriminate].
Defined.

Lemma unique_pads_with_minimum_witness :
  well_formed sample = true
  /\ ravel sample <> []
  /\ unique sample false false false None None None = inr sample_unique
  /\ (length (values sample_unique) < 5)%nat
  /\ exists o,
       unique sample false false false None (Some 5%nat) None = inr o
       /\ values o
          = values sample_unique
            ++ repeat (hd NaN (values sample_unique))
                 (5 - length (values sample_unique))
       /\ (forall e, In e (ravel sample) -> elt_le (hd NaN (values sample_unique)) e = true).
Proof.
  split; [reflexivity|]. split; [discriminate|]. split; [reflexivity|].
  split; [simpl; lia|].
  apply (unique_pads_with_minimum sample false false false 5 sample_unique);
    [reflexivity|discriminate|reflexivity|simpl; lia].
Defined.

Lemma unique_values_increasing_witness :
  well_formed sample = true
  /\ exists o,
       unique sample false false false None None None = inr o
       /\ StronglySorted (lt_of elt_le) (values o)
       /\ forall i, (i < length (values o))%nat ->
            nth i (values o) NaN = NaN -> S i = length (values o).
Proof.
  split; [reflexivity|].
  apply (unique_values_increasing sample). reflexivity.
Defined.

Lemma unique_axis_slices_witness :
  well_formed sample_rows = true
  /\ width (view sample_rows (Some 0%nat)) <> 0%nat
  /\ exists o,
       unique sample_rows false false false (Some 0%nat) None None = inr o
       /\ StronglySorted (lt_of row_le) (result o)
       /\ NoDup (result o)
       /\ (forall r, In r (result o)
                     <-> In r (rows (view sample_rows (Some 0%nat))))
       /\ Forall (fun r => length r = width (view sample_rows (Some 0%nat)))
            (result o).
Proof.
  split; [reflexivity|]. split; [simpl; lia|].
  apply (unique_axis_slices sample_rows (Some 0%nat)); [reflexivity|simpl; lia].
Defined.

Lemma unique_depends_on_set_witness :
  well_formed sample_rows = true
  /\ well_formed (mk_array false 2 [ints [1; 3]; ints [2; 1]]) = true
  /\ (forall r,
        In r (rows (view sample_rows (Some 0%nat)))
        <-> In r (rows (view (mk_array false 2 [ints [1; 3]; ints [2; 1]])
                          (Some 0%nat))))
  /\ unique sample_rows false false false (Some 0%nat) None None
     = unique (mk_array false 2 [ints [1; 3]; ints [2; 1]])
         false false false (Some 0%nat) None None.
Proof.
  assert (H : forall r,
             In r (rows (view sample_rows (Some 0%nat)))
             <-> In r (rows (view (mk_array false 2 [ints [1; 3]; ints [2; 1]])
                               (Some 0%nat)))) by (intros r; simpl; tauto).
  split; [reflexivity|]. split; [reflexivity|]. split; [exact H|].
  apply (unique_depends_on_set sample_rows
           (mk_array false 2 [ints [1; 3]; ints [2; 1]]) (Some 0%nat));
    [reflexivity|reflexivity|simpl; lia|simpl; lia|exact H].
Defined.

Lemma union1d_members_witness :
  well_formed (array1 false (ints [3; 1] ++ ints [2; 3])) = true
  /\ exists u,
       union1d false (ints [3; 1]) (ints [2; 3]) None None = inr u
       /\ StronglySorted (lt_of elt_le) u
       /\ (forall e, In e u <-> In e (ints [3; 1]) \/ In e (ints [2; 3]))
       /\ union1d false (ints [2; 3]) (ints [3; 1]) None None = inr u.
Proof.
  split; [reflexivity|].
  apply (union1d_members false (ints [3; 1]) (ints [2; 3])). reflexivity.
Defined.

Lemma union1d_assoc_witness :
  well_formed (array1 false (ints [3; 1] ++ ints [2; 3] ++ ints [0; 1])) = true
  /\ union1d false (ints [3; 1]) (ints [2; 3]) None None = inr (ints [1; 2; 3])
  /\ union1d false (ints [2; 3]) (ints [0; 1]) None None
     = inr (ints [0; 1; 2; 3])
  /\ union1d false (ints [1; 2; 3]) (ints [0; 1]) None None
     = union1d false (ints [3; 1]) (ints [0; 1; 2; 3]) None None
  /\ union1d false (ints [3; 1]) (ints [3; 1]) None None
     = unique_values false (ints [3; 1]) None None.
Proof.
  split; [reflexivity|]. split; [reflexivity|]. split; [reflexivity|].
  apply (union1d_assoc false (ints [3; 1]) (ints [2; 3]) (ints [0; 1])
           (ints [1; 2; 3]) (ints [0; 1; 2; 3])); reflexivity.
Defined.


Lemma setdiff1d_assume_unique_witness :
  (false = false -> Some (Val 9) <> Some NaN)
  /\ setdiff1d false (ints [3; 1; 2; 3; 1]) (ints [2]) true None (Some (Val 9))
     = inr (filter (fun x => negb (existsb (lax_eq x) (ints [2])))
              (ints [3; 1; 2; 3; 1]))
  /\ setdiff1d false (ints [3; 1; 2; 3; 1]) (ints [2]) true (Some 6%nat)
       (Some (Val 9))
     = inr (firstn 6 (filter (fun x => negb (existsb (lax_eq x) (ints [2])))
                        (ints [3; 1; 2; 3; 1]))
            ++ repeat (Val 9)
                 (6 - length (filter (fun x => negb (existsb (lax_eq x)
                                                        (ints [2])))
                               (ints [3; 1; 2; 3; 1])))).
Proof.
  split; [intros _; discriminate|].
  apply (setdiff1d_assume_unique false (ints [3; 1; 2; 3; 1]) (ints [2]) 6
           (Some (Val 9))).
  intros _; discriminate.
Defined.

Lemma in1d_reference_set_witness :
  well_formed (array1 true (floats [Some 2; None; Some 2])) = true
  /\ exists u,
       unique_values true (floats [Some 2; None; Some 2]) None None = inr u
       /\ in1d (floats [Some 1; Some 2]) u false false
          = in1d (floats [Some 1; Some 2]) (floats [Some 2; None; Some 2])
              false false
       /\ in1d (floats [Some 1; Some 2] ++ floats [None])
            (floats [Some 2; None; Some 2]) false false
          = in1d (floats [Some 1; Some 2]) (floats [Some 2; None; Some 2])
              false false
            ++ in1d (floats [None]) (floats [Some 2; None; Some 2]) false false.
Proof.
  split; [reflexivity|].
  apply (in1d_reference_set true (floats [Some 1; Some 2]) (floats [None])
           (floats [Some 2; None; Some 2]) false).
  reflexivity.
Defined.

Lemma unique_truncates_witness :
  width (view sample_ints None) <> 0%nat
  /\ rows (view sample_ints None) <> []
  /\ (inexact sample_ints = false -> Some (Val 7) <> Some NaN)
  /\ unique sample_ints true true true None None None = inr sample_ints_all
  /\ (2 <= length (result sample_ints_all))%nat
  /\ unique sample_ints true true true None (Some 2%nat) (Some (Val 7))
     = inr (mk_out (firstn 2 (result sample_ints_all))
              (option_map (firstn 2) (out_index sample_ints_all))
              (out_inverse sample_ints_all)
              (option_map (firstn 2) (out_counts sample_ints_all))
              None).
Proof.
  split; [simpl; lia|]. split; [discriminate|].
  split; [intros _; discriminate|]. split; [reflexivity|].
  split; [simpl; lia|].
  apply (unique_truncates sample_ints None true true true 2 (Some (Val 7))
           sample_ints_all);
    [simpl; lia|discriminate|intros _; discriminate|reflexivity|simpl; lia].
Defined.

Lemma unique_without_entries_witness :
  well_formed (mk_array false 0 [[]; []; []]) = true
  /\ [[]; []; []] <> ([] : list row)
  /\ unique (mk_array false 0 [[]; []; []]) true true true (Some 0%nat)
       None None
     = inr (mk_out [[]] (Some [0]) (Some (zeros 3)) (Some [3]) None).
Proof.
  split; [reflexivity|]. split; [discriminate|].
  apply (unique_without_entries false [[]; []; []] 0);
    [reflexivity|discriminate].
Defined.

Lemma unique_first_occurrence_witness :
  well_formed sample_rows = true
  /\ width (view sample_rows (Some 0%nat)) <> 0%nat
  /\ exists o idx,
       unique sample_rows true false false (Some 0%nat) None None = inr o
       /\ out_index o = Some idx
       /\ length idx = length (result o)
       /\ forall k, (k < length idx)%nat ->
            0 <= nth k idx 0 < Z.of_nat (axis_length sample_rows (Some 0%nat))
            /\ nth (Z.to_nat (nth k idx 0))
                 (rows (view sample_rows (Some 0%nat))) []
               = nth k (result o) []
            /\ forall i', (i' < axis_length sample_rows (Some 0%nat))%nat ->
                 nth i' (rows (view sample_rows (Some 0%nat))) []
                 = nth k (result o) [] ->
                 nth k idx 0 <= Z.of_nat i'.
Proof.
  split; [reflexivity|]. split; [simpl; lia|].
  apply (unique_first_occurrence sample_rows (Some 0%nat));
    [reflexivity|simpl; lia].
Defined.

Lemma unique_axis_counts_witness :
  well_formed sample_rows = true
  /\ width (view sample_rows (Some 0%nat)) <> 0%nat
  /\ exists o counts,
       unique sample_rows false false true (Some 0%nat) None None = inr o
       /\ out_counts o = Some counts
       /\ length counts = length (result o)
       /\ sum_Z counts = Z.of_nat (axis_length sample_rows (Some 0%nat))
       /\ forall k, (k < length (result o))%nat ->
            nth k counts 0
            = Z.of_nat (count_occ row_eq_dec
                          (rows (view sample_rows (Some 0%nat)))
                          (nth k (result o) [])).
Proof.
  split; [reflexivity|]. split; [simpl; lia|].
  apply (unique_axis_counts sample_rows (Some 0%nat));
    [reflexivity|simpl; lia].
Defined.

Lemma unique_axis_inverse_witness :
  well_formed sample_rows = true
  /\ width (view sample_rows (Some 0%nat)) <> 0%nat
  /\ exists o inv,
       unique sample_rows false true false (Some 0%nat) None None = inr o
       /\ out_inverse o = Some inv
       /\ length inv = axis_length sample_rows (Some 0%nat)
       /\ Forall (fun i => 0 <= i < Z.of_nat (length (result o))) inv
       /\ take [] (result o) inv = rows (view sample_rows (Some 0%nat)).
Proof.
  split; [reflexivity|]. split; [simpl; lia|].
  apply (unique_axis_inverse sample_rows (Some 0%nat));
    [reflexivity|simpl; lia].
Defined.

Lemma intersect1d_members_witness :
  well_formed (array1 true (floats [Some 2; None; Some 1; Some 2])) = true
  /\ well_formed (array1 true (floats [Some 3; None; Some 2; Some 2])) = true
  /\ exists r,
       intersect1d round_even true (floats [Some 2; None; Some 1; Some 2])
         true (floats [Some 3; None; Some 2; Some 2]) false false
       = inr (r, None)
       /\ StronglySorted (lt_of elt_le) r
       /\ forall e, In e r
            <-> In e (floats [Some 2; None; Some 1; Some 2])
                /\ In e (floats [Some 3; None; Some 2; Some 2])
                /\ isnan e = false.
Proof.
  split; [reflexivity|]. split; [reflexivity|].
  apply (intersect1d_members round_even true
           (floats [Some 2; None; Some 1; Some 2])
           (floats [Some 3; None; Some 2; Some 2])); reflexivity.
Defined.

Lemma setxor1d_members_witness :
  well_formed (array1 true (floats [Some 2; None; Some 1; Some 2])) = true
  /\ well_formed (array1 true (floats [Some 3; Some 2; Some 2])) = true
  /\ exists r,
       setxor1d round_even true (floats [Some 2; None; Some 1; Some 2])
         true (floats [Some 3; Some 2; Some 2]) false = inr r
       /\ setxor1d round_even true (floats [Some 3; Some 2; Some 2])
            true (floats [Some 2; None; Some 1; Some 2]) false = inr r
       /\ StronglySorted (le_of elt_le) r
       /\ (forall e, isnan e = false ->
             In e r
             <-> (In e (floats [Some 2; None; Some 1; Some 2])
                  /\ ~ In e (floats [Some 3; Some 2; Some 2]))
                 \/ (In e (floats [Some 3; Some 2; Some 2])
                     /\ ~ In e (floats [Some 2; None; Some 1; Some 2])))
       /\ (In NaN r
           <-> In NaN (floats [Some 2; None; Some 1; Some 2])
               \/ In NaN (floats [Some 3; Some 2; Some 2])).
Proof.
  split; [reflexivity|]. split; [reflexivity|].
  apply (setxor1d_members round_even true
           (floats [Some 2; None; Some 1; Some 2])
           (floats [Some 3; Some 2; Some 2])); reflexivity.
Defined.

Lemma intersect1d_indices_witness :
  well_formed (array1 false (ints [4; 2; 4; 1])) = true
  /\ well_formed (array1 false (ints [3; 4; 2; 2])) = true
  /\ exists r i1 i2,
       intersect1d round_even false (ints [4; 2; 4; 1])
         false (ints [3; 4; 2; 2]) false true = inr (r, Some (i1, i2))
       /\ intersect1d round_even false (ints [4; 2; 4; 1])
            false (ints [3; 4; 2; 2]) false false = inr (r, None)
       /\ length i1 = length r /\ length i2 = length r
       /\ forall k, (k < length r)%nat ->
            (0 <= nth k i1 0 < Z.of_nat (length (ints [4; 2; 4; 1]))
             /\ nth (Z.to_nat (nth k i1 0)) (ints [4; 2; 4; 1]) NaN
                = nth k r NaN
             /\ forall i', (i' < length (ints [4; 2; 4; 1]%Z))%nat ->
                  nth i' (ints [4; 2; 4; 1]) NaN = nth k r NaN ->
                  nth k i1 0 <= Z.of_nat i')
            /\ (0 <= nth k i2 0 < Z.of_nat (length (ints [3; 4; 2; 2]))
                /\ nth (Z.to_nat (nth k i2 0)) (ints [3; 4; 2; 2]) NaN
                   = nth k r NaN
                /\ forall i', (i' < length (ints [3; 4; 2; 2]%Z))%nat ->
                     nth i' (ints [3; 4; 2; 2]) NaN = nth k r NaN ->
                     nth k i2 0 <= Z.of_nat i').
Proof.
  split; [reflexivity|]. split; [reflexivity|].
  apply (intersect1d_indices round_even false (ints [4; 2; 4; 1])
           (ints [3; 4; 2; 2])); reflexivity.
Defined.

Lemma unique_pads_witness :
  well_formed sample_ints = true
  /\ ravel sample_ints <> []
  /\ unique sample_ints true true true None None None = inr sample_ints_all
  /\ (length (result sample_ints_all) <= 5)%nat
  /\ (inexact sample_ints = false -> Some (Val 7) <> Some NaN)
  /\ unique sample_ints true true true None (Some 5%nat) (Some (Val 7))
     = inr (mk_out
              (result sample_ints_all ++ repeat [Val 7] 2)
              (option_map (fun i => i ++ repeat (hd 0 i) 2)
                 (out_index sample_ints_all))
              (out_inverse sample_ints_all)
              (option_map (fun c => c ++ repeat 0 2)
                 (out_counts sample_ints_all))
              None).
Proof.
  split; [reflexivity|]. split; [discriminate|]. split; [reflexivity|].
  split; [simpl; lia|]. split; [intros _; discriminate|].
  apply (unique_pads sample_ints true true true 5 (Some (Val 7))
           sample_ints_all);
    [reflexivity|discriminate|reflexivity|simpl; lia|intros _; discriminate].
Defined.

Lemma assume_unique_duplicate_free_witness :
  well_formed (array1 false (ints [4; 2; 1])) = true
  /\ well_formed (array1 true (floats [Some 3; None; Some 2])) = true
  /\ NoDup (ints [4; 2; 1]) /\ NoDup (floats [Some 3; None; Some 2])
  /\ intersect1d round_even false (ints [4; 2; 1])
       true (floats [Some 3; None; Some 2]) true false
     = intersect1d round_even false (ints [4; 2; 1])
         true (floats [Some 3; None; Some 2]) false false
  /\ setxor1d round_even false (ints [4; 2; 1])
       true (floats [Some 3; None; Some 2]) true
     = setxor1d round_even false (ints [4; 2; 1])
         true (floats [Some 3; None; Some 2]) false.
Proof.
  assert (N1 : NoDup (ints [4; 2; 1])).
  { repeat (constructor; [simpl; intuition discriminate|]). constructor. }
  assert (N2 : NoDup (floats [Some 3; None; Some 2])).
  { repeat (constructor; [simpl; intuition discriminate|]). constructor. }
  split; [reflexivity|]. split; [reflexivity|].
  split; [exact N1|]. split; [exact N2|].
  apply (assume_unique_duplicate_free round_even false (ints [4; 2; 1])
           true (floats [Some 3; None; Some 2]));
    [reflexivity|reflexivity|exact N1|exact N2].
Defined.

